(** * The node editor of jsoncrack: JSONPath-addressed read, write and merge

    A shallow embedding of the helpers and of the save handler of
    [src/pages/index.tsx]:

    - [normalizeNodeData]   the text shown for a node's rows,
    - [jsonPathToString]    the text shown for a node's path,
    - [getValueAtPath]      reading a value under a path,
    - [setValueAtPath]      copy-on-write update under a path,
    - [pathEquals]          comparison of two paths,
    - [handleSave]          the commit of an edit.

    The helpers are given twice.  In the value model a JavaScript value is
    the tree it denotes; the save handler, which turns text into text,
    lives there.  In the store model ([Store]) a value is a primitive or a
    reference into a store of objects and an assignment changes an object
    in place; this is where copying and sharing can be told apart.

    ** Scope of the embedding

    The values are JSON data, [undefined], and the built-in objects that
    a property read can reach from them (the prototypes and their
    members).  An object is an array (elements, holes, named members) or
    a plain object whose members are kept in the order in which the
    language enumerates them: array indices first, in ascending order,
    then the other names in the order of their creation.

    A property read [x[k]] finds an own member, the [length] of an array
    or of a string, or what [x] inherits: the object behind [__proto__]
    or a member of a prototype.  Which names the prototypes define, and
    what a read from a built-in object gives, belongs to the engine
    ([Realm]).  An assignment [x[k] = v] creates or updates an own member,
    resizes an array when [k] is [length] (or throws a [RangeError]), and
    goes to the setter of [__proto__] where [x] has no own member of that
    name.

    A computation ends with a value, throws, or leaves the embedding
    ([outcome]).  It leaves the embedding where the setter of [__proto__]
    would replace the prototype of an object, where the new [length] of
    an array is given by a value whose conversion to a number is not
    embedded, where a string conversion would call a built-in function
    that was stored as [toString] or [join], and where the engine of the
    examples ([Reference.realm]) is not told what a built-in object
    holds.

    [JSON.parse] and [JSON.stringify] belong to the platform
    ([JsonCodec]); [Reference.codec] is a printer and a parser of the
    JSON texts of the embedded values, for which the laws that the
    theorems assume of the platform ([JsonLaws]) are proved.

    Numbers stand for integers, as array indices and the numbers of the
    examples are; their conversion to text belongs to the engine.  A
    string is a sequence of code units below 256. *)

From Stdlib Require Import ZArith NArith Lia.
From stdpp Require Import base option list strings pretty.

Set Warnings "-register-all".

(** ** Values *)

(** The primitive values of the language that occur in JSON documents. *)
Inductive prim : Type :=
| Undefined
| Null
| Bool (b : bool)
| Num (n : Z)
| Str (s : string).

(** An object of the language: an array (elements, some of them holes, and
    the named members that were assigned to it) or a plain object (members
    in enumeration order).  [V] is what a member holds: a tree in the value
    model, a reference in the store model. *)
Inductive container (V : Type) : Type :=
| Arr (elems : list (option V)) (named : list (string * V))
| Obj (props : list (string * V)).

Arguments Arr {V} elems named.
Arguments Obj {V} props.

(** The kinds of values that have a prototype. *)
Inductive kind : Type :=
| KObject | KArray | KString | KNumber | KBoolean.

(** The built-in objects within reach of a property read: the prototype
    of the values of a kind, and the member that these values inherit
    under a name. *)
Inductive builtin : Type :=
| Prototype (kd : kind)
| Inherited (kd : kind) (name : string).

(** A value, read as the tree it denotes. *)
Inductive jsvalue : Type :=
| VPrim (p : prim)
| VObject (c : container jsvalue)
| VBuiltin (b : builtin).

Coercion VPrim : prim >-> jsvalue.

Abbreviation VArr elems := (VObject (Arr elems [])).
Abbreviation VObj props := (VObject (Obj props)).

(** ** Outcomes *)

(** How a computation ends: with a value, by throwing, or outside of what
    is embedded. *)
Inductive outcome (A : Type) : Type :=
| Ok (a : A)
| Throws
| Unmodelled.

Arguments Ok {A} a.
Arguments Throws {A}.
Arguments Unmodelled {A}.

#[export] Instance outcome_ret : MRet outcome := fun A a => Ok a.

#[export] Instance outcome_bind : MBind outcome := fun A B f m =>
  match m with
  | Ok a => f a
  | Throws => Throws
  | Unmodelled => Unmodelled
  end.

(** ** The engine *)

(** What the engine decides: the names defined along the prototype chain
    of each kind of value ([__proto__] apart; under string keys these
    members are functions), what a read from a built-in object gives, and
    the text of a number and of a built-in object. *)
Class Realm : Type := {
  inherits : kind -> string -> bool;
  builtin_get : builtin -> string -> outcome jsvalue;
  number_to_string : Z -> string;
  builtin_to_string : builtin -> outcome string
}.

(** ** Paths *)

(** [Array<string | number>]: an index or a member name. *)
Inductive segment : Type :=
| SNum (n : N)
| SStr (s : string).

Abbreviation JSONPath := (list segment).

(** [ToPropertyKey]: the name under which [x[seg]] looks a member up. *)
Definition to_key (seg : segment) : string :=
  match seg with
  | SNum n => pretty n
  | SStr s => s
  end.

Definition is_digit (c : Ascii.ascii) : bool :=
  let n := Ascii.N_of_ascii c in (48 <=? n)%N && (n <=? 57)%N.

Fixpoint digits_value (s : string) (acc : N) : option N :=
  match s with
  | EmptyString => Some acc
  | String c s' =>
      if is_digit c
      then digits_value s' (10 * acc + (Ascii.N_of_ascii c - 48))%N
      else None
  end.

(** A key is an integer index when it is the canonical decimal spelling of
    an integer: the characters of a string are found under such keys. *)
Definition string_index (k : string) : option nat :=
  match digits_value k 0 with
  | Some n => if String.eqb (pretty n) k then Some (N.to_nat n) else None
  | None => None
  end.

(** An integer index is an array index when it is below 2^32 - 1. *)
Definition array_index (k : string) : option nat :=
  match string_index k with
  | Some i => if (N.of_nat i <? 4294967295)%N then Some i else None
  | None => None
  end.

(** ** Own members of a container *)

Fixpoint lookup_prop {V} (k : string) (ps : list (string * V)) : option V :=
  match ps with
  | [] => None
  | (k', v) :: ps' => if String.eqb k k' then Some v else lookup_prop k ps'
  end.

(** The member [k] gets the value [v] and keeps its place. *)
Fixpoint update_prop {V} (k : string) (v : V) (ps : list (string * V))
  : list (string * V) :=
  match ps with
  | [] => []
  | (k', v') :: ps' =>
      if String.eqb k k' then (k, v) :: ps' else (k', v') :: update_prop k v ps'
  end.

(** In the enumeration of the members of an object an array index comes
    before a larger one and before every other name. *)
Definition goes_before (k k' : string) : bool :=
  match array_index k with
  | Some i =>
      match array_index k' with
      | Some j => bool_decide (i < j)
      | None => true
      end
  | None => false
  end.

(** A new member takes its place in the enumeration: an array index among
    the indices, another name at the end. *)
Fixpoint add_prop {V} (k : string) (v : V) (ps : list (string * V))
  : list (string * V) :=
  match ps with
  | [] => [(k, v)]
  | (k', v') :: ps' =>
      if goes_before k k' then (k, v) :: ps else (k', v') :: add_prop k v ps'
  end.

(** The members of an object after [k] was given the value [v], by an
    assignment that finds no setter or by a definition. *)
Definition assign_prop {V} (k : string) (v : V) (ps : list (string * V))
  : list (string * V) :=
  match lookup_prop k ps with
  | Some _ => update_prop k v ps
  | None => add_prop k v ps
  end.

(** [a[i] = v] on the elements of an array: writing past the end extends
    the array, leaving holes in between. *)
Definition assign_elem {V} (i : nat) (v : V) (elems : list (option V))
  : list (option V) :=
  if decide (i < length elems)
  then <[i := Some v]> elems
  else elems ++ replicate (i - length elems) None ++ [Some v].

(** The elements of an array whose [length] was set to [n]. *)
Definition resize {V} (n : nat) (elems : list (option V)) : list (option V) :=
  take n elems ++ replicate (n - length elems) None.

(** The own member of [c] under key [k], if there is one; the [length] of
    an array is not among them. *)
Definition own_get {V} (c : container V) (k : string) : option V :=
  match c with
  | Obj ps => lookup_prop k ps
  | Arr elems named =>
      match array_index k with
      | Some i => mjoin (elems !! i)
      | None => lookup_prop k named
      end
  end.

(** What an assignment needs to know of the value assigned. *)
Inductive value_view : Type :=
| ViewPrim (p : prim)
| ViewObject
| ViewArray
| ViewBuiltin.

Definition is_space (c : Ascii.ascii) : bool :=
  let n := Ascii.N_of_ascii c in
  (n =? 9)%N || (n =? 10)%N || (n =? 11)%N || (n =? 12)%N || (n =? 13)%N
  || (n =? 32)%N || (n =? 160)%N.

Fixpoint string_forall (f : Ascii.ascii -> bool) (s : string) : bool :=
  match s with
  | EmptyString => true
  | String c s' => f c && string_forall f s'
  end.

(** The array length that a value stands for: [ToNumber] must give an
    integer from 0 to 2^32 - 1, otherwise the assignment to [length]
    throws a [RangeError].  A string of digits is that number; a string
    of white space is 0; a string without any digit is otherwise no
    finite number.  A plain object converts to ["[object Object]"] or
    fails to convert, which throws in both cases. *)
Definition to_length (w : value_view) : outcome nat :=
  match w with
  | ViewPrim Undefined => Throws
  | ViewPrim Null | ViewPrim (Bool false) => Ok 0
  | ViewPrim (Bool true) => Ok 1
  | ViewPrim (Num z) =>
      if bool_decide (0 <= z < 4294967296)%Z then Ok (Z.to_nat z) else Throws
  | ViewPrim (Str s) =>
      if string_forall is_space s then Ok 0
      else if string_forall is_digit s then
        match digits_value s 0 with
        | Some n => if (n <? 4294967296)%N then Ok (N.to_nat n) else Throws
        | None => Throws
        end
      else if string_forall (fun c => negb (is_digit c)) s then Throws
      else Unmodelled
  | ViewObject => Throws
  | ViewArray | ViewBuiltin => Unmodelled
  end.

(** The setter of [__proto__] ignores a value that is neither an object
    nor [null]. *)
Definition setter_ignores (w : value_view) : bool :=
  match w with
  | ViewPrim Null => false
  | ViewPrim _ => true
  | _ => false
  end.

(** [c["__proto__"] = v] where [c] has no own member of that name:
    nothing happens, or the prototype of [c] is replaced. *)
Definition proto_set {V} (w : value_view) (c : container V) : outcome (container V) :=
  if setter_ignores w then Ok c else Unmodelled.

(** [c[k] = v]. *)
Definition own_set {V} (view : V -> value_view) (c : container V) (k : string) (v : V)
  : outcome (container V) :=
  match c with
  | Obj ps =>
      if String.eqb k "__proto__" && negb (bool_decide (is_Some (lookup_prop k ps)))
      then proto_set (view v) c
      else Ok (Obj (assign_prop k v ps))
  | Arr elems named =>
      match array_index k with
      | Some i => Ok (Arr (assign_elem i v elems) named)
      | None =>
          if String.eqb k "length" then
            n ← to_length (view v); Ok (Arr (resize n elems) named)
          else if String.eqb k "__proto__"
                  && negb (bool_decide (is_Some (lookup_prop k named)))
          then proto_set (view v) c
          else Ok (Arr elems (assign_prop k v named))
      end
  end.

(** ** The operators of the language used by the helpers *)

(** [v == null]. *)
Definition is_nullish (v : jsvalue) : bool :=
  match v with
  | VPrim Undefined | VPrim Null => true
  | _ => false
  end.

(** [Array.isArray(v)]; the prototype of the arrays is an array. *)
Definition isArray (v : jsvalue) : bool :=
  match v with
  | VObject (Arr _ _) | VBuiltin (Prototype KArray) => true
  | _ => false
  end.

(** [typeof v === "object" && v !== null && !Array.isArray(v)]: the
    members that the prototypes define are functions, the prototypes
    themselves are objects. *)
Definition is_plain_object (v : jsvalue) : bool :=
  match v with
  | VObject (Obj _) => true
  | VBuiltin (Prototype kd) =>
      match kd with
      | KArray => false
      | _ => true
      end
  | _ => false
  end.

Definition view (v : jsvalue) : value_view :=
  match v with
  | VPrim p => ViewPrim p
  | VObject (Obj _) => ViewObject
  | VObject (Arr _ _) => ViewArray
  | VBuiltin _ => ViewBuiltin
  end.

(** The characters of a string as members ["0"], ["1"], ... *)
Fixpoint string_members {V} (inj : prim -> V) (i : nat) (s : string)
  : list (string * V) :=
  match s with
  | EmptyString => []
  | String c s' =>
      (pretty i, inj (Str (String c EmptyString))) :: string_members inj (S i) s'
  end.

(** The elements of an array that are not holes, as members. *)
Fixpoint elem_members {V} (i : nat) (elems : list (option V)) : list (string * V) :=
  match elems with
  | [] => []
  | Some v :: elems' => (pretty i, v) :: elem_members (S i) elems'
  | None :: elems' => elem_members (S i) elems'
  end.

(** [[...a]] for an array [a]: the iterator yields [undefined] for a hole
    and stops at the length, so named members are not copied. *)
Definition spread_array {V} (undef : V) (elems : list (option V)) : list (option V) :=
  map (fun o => Some (default undef o)) elems.

(** The members copied by [{...x}]: the own enumerable members of [x].
    The members of the built-in objects are not enumerable. *)
Definition spread_object (x : jsvalue) : list (string * jsvalue) :=
  match x with
  | VObject (Obj ps) => ps
  | VObject (Arr elems named) => elem_members 0 elems ++ named
  | VPrim (Str s) => string_members VPrim 0 s
  | VPrim _ => []
  | VBuiltin _ => []
  end.

(** [Array.isArray(x) ? [...x] : {...x}]; the prototype of the arrays has
    no elements. *)
Definition shallow_copy (x : jsvalue) : container jsvalue :=
  match x with
  | VObject (Arr elems _) => Arr (spread_array (VPrim Undefined) elems) []
  | VBuiltin (Prototype KArray) => Arr [] []
  | _ => Obj (spread_object x)
  end.

(** [typeof nextSeg === "number" ? [] : {}]. *)
Definition fresh_for {V} (nextSeg : segment) : container V :=
  match nextSeg with
  | SNum _ => Arr [] []
  | SStr _ => Obj []
  end.

Section Language.
Context `{Realm}.

(** What a value of kind [kd] finds under [k] when it has no own member
    of that name: the prototypes define no member under an integer index,
    the getter of [__proto__] gives the prototype, and the other names
    are as the engine has them. *)
Definition inherited (kd : kind) (k : string) : jsvalue :=
  if bool_decide (is_Some (string_index k)) then VPrim Undefined
  else if String.eqb k "__proto__" then VBuiltin (Prototype kd)
  else if inherits kd k then VBuiltin (Inherited kd k)
  else VPrim Undefined.

(** [x[k]]; reading from [null] or [undefined] throws a [TypeError]. *)
Definition get_prop (x : jsvalue) (k : string) : outcome jsvalue :=
  match x with
  | VObject (Obj ps) =>
      Ok (default (inherited KObject k) (lookup_prop k ps))
  | VObject (Arr elems named) =>
      if String.eqb k "length" then Ok (VPrim (Num (Z.of_nat (length elems))))
      else Ok (default (inherited KArray k) (own_get (Arr elems named) k))
  | VPrim (Str s) =>
      if String.eqb k "length" then Ok (VPrim (Num (Z.of_nat (String.length s))))
      else
        Ok (default (inherited KString k)
              (i ← string_index k; c ← String.get i s;
               Some (VPrim (Str (String c EmptyString)))))
  | VPrim (Num _) => Ok (inherited KNumber k)
  | VPrim (Bool _) => Ok (inherited KBoolean k)
  | VPrim Undefined | VPrim Null => Throws
  | VBuiltin b => builtin_get b k
  end.

(** ** getValueAtPath *)

(** The loop of [getValueAtPath]: [cursor] is the value reached so far. *)
Fixpoint get_loop (cursor : jsvalue) (segs : JSONPath) : outcome jsvalue :=
  match segs with
  | [] => Ok cursor
  | seg :: segs' =>
      if is_nullish cursor then Ok (VPrim Undefined)
      else x ← get_prop cursor (to_key seg); get_loop x segs'
  end.

(** [path] is [None] for [undefined]. *)
Definition getValueAtPath (root : jsvalue) (path : option JSONPath) : outcome jsvalue :=
  match path with
  | None | Some [] => Ok root
  | Some segs => get_loop root segs
  end.

(** ** setValueAtPath *)

(** The loop of [setValueAtPath] together with the final assignment.
    [cursor] is a copy that this call owns; [seg] is the segment at hand
    and [rest] the segments after it.  The source stores the child in
    [cursor], makes it the cursor and goes on writing into it; here the
    child is stored, completed, and stored again as completed. *)
Fixpoint set_loop (cursor : container jsvalue) (seg : segment) (rest : JSONPath)
    (v : jsvalue) : outcome (container jsvalue) :=
  match rest with
  | [] => own_set view cursor (to_key seg) v
  | nextSeg :: rest' =>
      cur ← get_prop (VObject cursor) (to_key seg);
      let child :=
        if is_nullish cur then fresh_for nextSeg else shallow_copy cur in
      cursor' ← own_set view cursor (to_key seg) (VObject child);
      child' ← set_loop child nextSeg rest' v;
      own_set view cursor' (to_key seg) (VObject child')
  end.

Definition setValueAtPath (root : jsvalue) (path : option JSONPath) (v : jsvalue)
  : outcome jsvalue :=
  match path with
  | None | Some [] => Ok v
  | Some (seg :: rest) =>
      c ← set_loop (shallow_copy root) seg rest v; Ok (VObject c)
  end.

End Language.

(** ** pathEquals *)

(** [x === y] on segments: a number and a string are never equal. *)
Definition seg_eqb (x y : segment) : bool :=
  match x, y with
  | SNum m, SNum n => (m =? n)%N
  | SStr s, SStr t => String.eqb s t
  | _, _ => false
  end.

(** [a.every((v, i) => v === b[i])], the index starting at [i]; [b[i]] is
    [undefined] past the end of [b]. *)
Fixpoint every_eq (i : nat) (a b : JSONPath) : bool :=
  match a with
  | [] => true
  | v :: a' =>
      match b !! i with
      | Some w => seg_eqb v w && every_eq (S i) a' b
      | None => false
      end
  end.

Definition pathEquals (a b : option JSONPath) : bool :=
  match a, b with
  | None, None => true
  | None, Some _ | Some _, None => false
  | Some a, Some b =>
      if negb (Nat.eqb (length a) (length b)) then false else every_eq 0 a b
  end.

(** ** String conversion *)

Fixpoint join (sep : string) (parts : list string) : string :=
  match parts with
  | [] => ""
  | [x] => x
  | x :: parts' => x +:+ sep +:+ join sep parts'
  end.

(** The outcomes of a list of computations run from left to right. *)
Fixpoint sequence {A} (l : list (outcome A)) : outcome (list A) :=
  match l with
  | [] => Ok []
  | m :: l' => x ← m; xs ← sequence l'; Ok (x :: xs)
  end.

Section Conversion.
Context `{Realm}.

(** [ToString], the conversion behind the template literal [`${v}`].  A
    string stands for itself.  An object is converted by its [toString]:
    the inherited one gives ["[object Object]"] for a plain object and,
    for an array, the elements joined by commas ([null], [undefined] and
    holes give the empty string); an own member [toString] that is JSON
    data cannot be called, and the conversion throws a [TypeError]; so
    does the conversion of an array with an own [join] that cannot be
    called, for which the inherited [toString] gives ["[object Array]"]. *)
Fixpoint to_string (v : jsvalue) : outcome string :=
  match v with
  | VPrim Undefined => Ok "undefined"
  | VPrim Null => Ok "null"
  | VPrim (Bool true) => Ok "true"
  | VPrim (Bool false) => Ok "false"
  | VPrim (Num n) => Ok (number_to_string n)
  | VPrim (Str s) => Ok s
  | VObject (Obj ps) =>
      match lookup_prop "toString" ps with
      | None => Ok "[object Object]"
      | Some (VBuiltin _) => Unmodelled
      | Some _ => Throws
      end
  | VObject (Arr elems named) =>
      match lookup_prop "toString" named with
      | Some (VBuiltin _) => Unmodelled
      | Some _ => Throws
      | None =>
          match lookup_prop "join" named with
          | Some (VBuiltin _) => Unmodelled
          | Some _ => Ok "[object Array]"
          | None =>
              parts ← sequence
                (map (fun o =>
                        match o with
                        | None | Some (VPrim Undefined) | Some (VPrim Null) => Ok ""
                        | Some x => to_string x
                        end) elems);
              Ok (join "," parts)
          end
      end
  | VBuiltin b => builtin_to_string b
  end.

End Conversion.

(** ** The platform's JSON codec

    [JSON.parse] and [JSON.stringify(_, null, 2)] belong to the platform.
    The editor is embedded over any such pair; [JSON_parse] answers [None]
    where [JSON.parse] throws a [SyntaxError]. *)
Class JsonCodec : Type := {
  JSON_parse : string -> option jsvalue;
  JSON_stringify : jsvalue -> string
}.

(** ** Nodes *)

(** Modelled from the spec: the declaration of [NodeData] and of its rows
    ([../types/graph]) is not part of the sources.  A row has an optional
    key, a value and a type tag, one of array, object, string, number,
    boolean, null. *)
Inductive row_type : Type :=
| TArray | TObject | TString | TNumber | TBoolean | TNull.

Record NodeRow : Type := {
  key : option string;
  value : jsvalue;
  type : row_type
}.

(** [text] and [path] are [None] where the field is [undefined]. *)
Record NodeData : Type := {
  text : option (list NodeRow);
  path : option JSONPath
}.

(** [!row.key]: the key is [null], [undefined] or the empty string. *)
Definition no_key (row : NodeRow) : bool :=
  match key row with
  | None | Some EmptyString => true
  | Some _ => false
  end.

(** [row.type !== "array" && row.type !== "object"]. *)
Definition is_scalar_row (row : NodeRow) : bool :=
  match type row with
  | TArray | TObject => false
  | _ => true
  end.

(** [nodeRows.length === 1 && !nodeRows[0].key]. *)
Definition single_keyless (nodeRows : list NodeRow) : bool :=
  match nodeRows with
  | [row] => no_key row
  | _ => false
  end.

(** [obj[k] = v] on the members of the plain object [obj]. *)
Definition assign_member (obj : list (string * jsvalue)) (k : string) (v : jsvalue)
  : outcome (list (string * jsvalue)) :=
  c ← own_set view (Obj obj) k v;
  match c with
  | Obj ps => Ok ps
  | Arr _ _ => Unmodelled
  end.

(** The body of the [forEach] of [normalizeNodeData], on the members of
    [obj]. *)
Definition add_row (obj : list (string * jsvalue)) (row : NodeRow)
  : outcome (list (string * jsvalue)) :=
  if is_scalar_row row then
    match key row with
    | None | Some EmptyString => Ok obj
    | Some k => assign_member obj k (value row)
    end
  else Ok obj.

(** The rows are taken from left to right; the first one that fails ends
    the loop. *)
Fixpoint add_rows (obj : list (string * jsvalue)) (nodeRows : list NodeRow)
  : outcome (list (string * jsvalue)) :=
  match nodeRows with
  | [] => Ok obj
  | row :: rows' => obj' ← add_row obj row; add_rows obj' rows'
  end.

Definition rows_object (nodeRows : list NodeRow) : outcome (list (string * jsvalue)) :=
  add_rows [] nodeRows.

Section Editor.
Context `{Realm} `{JsonCodec}.

(** ** normalizeNodeData *)

Definition normalizeNodeData (nodeRows : option (list NodeRow)) : outcome string :=
  match nodeRows with
  | None | Some [] => Ok "{}"
  | Some rows =>
      if single_keyless rows
      then match rows with
           | row :: _ => to_string (value row)
           | [] => Ok "{}"
           end
      else obj ← rows_object rows; Ok (JSON_stringify (VObj obj))
  end.

(** ** handleSave *)

(** What the component and the two stores hold: the document text of
    [useJson], the selected node of [useGraph], the component's own
    [editedText], [error] and [isEditing], whether [onClose] was called,
    and the paths captured by the re-selections handed to [setTimeout]. *)
Record State : Type := {
  json : string;
  selectedNode : option NodeData;
  editedText : string;
  error : option string;
  isEditing : bool;
  closed : bool;
  timers : list (option JSONPath)
}.

Definition setJson (s : string) (st : State) : State :=
  {| json := s; selectedNode := selectedNode st; editedText := editedText st;
     error := error st; isEditing := isEditing st; closed := closed st;
     timers := timers st |}.

Definition setSelectedNode (n : NodeData) (st : State) : State :=
  {| json := json st; selectedNode := Some n; editedText := editedText st;
     error := error st; isEditing := isEditing st; closed := closed st;
     timers := timers st |}.

Definition setError (e : option string) (st : State) : State :=
  {| json := json st; selectedNode := selectedNode st; editedText := editedText st;
     error := e; isEditing := isEditing st; closed := closed st;
     timers := timers st |}.

Definition setIsEditing (b : bool) (st : State) : State :=
  {| json := json st; selectedNode := selectedNode st; editedText := editedText st;
     error := error st; isEditing := b; closed := closed st;
     timers := timers st |}.

Definition onClose (st : State) : State :=
  {| json := json st; selectedNode := selectedNode st; editedText := editedText st;
     error := error st; isEditing := isEditing st; closed := true;
     timers := timers st |}.

Definition setTimeout (p : option JSONPath) (st : State) : State :=
  {| json := json st; selectedNode := selectedNode st; editedText := editedText st;
     error := error st; isEditing := isEditing st; closed := closed st;
     timers := timers st ++ [p] |}.

(** [{ ...target, ...parsed }]: the members of both are defined on a new
    object, those of [target] first. *)
Definition merge_objects (target parsed : jsvalue) : jsvalue :=
  VObj (fold_left (fun obj kv => assign_prop kv.1 kv.2 obj)
          (spread_object parsed) (spread_object target)).

(** The value that the write of lines 113-133 stores as the new root. *)
Definition written_root (rootObj : jsvalue) (nodeData : NodeData) (parsed : jsvalue)
  : outcome jsvalue :=
  let nodeRows := default [] (text nodeData) in
  if single_keyless nodeRows then
    setValueAtPath rootObj (path nodeData) parsed
  else
    target ← getValueAtPath rootObj (path nodeData);
    if is_plain_object parsed then
      if is_plain_object target then
        let merged := merge_objects target parsed in
        setValueAtPath rootObj (path nodeData) merged
      else setValueAtPath rootObj (path nodeData) parsed
    else setValueAtPath rootObj (path nodeData) parsed.

(** [JSON.parse(currentJsonStr)] inside its own [try], with [{}] in the
    [catch]. *)
Definition parse_root (currentJsonStr : string) : jsvalue :=
  match JSON_parse currentJsonStr with
  | Some rootObj => rootObj
  | None => VObj []
  end.

(** The [try] block of [handleSave]: the parse of the edited text, the
    read and the write can throw, and no setter of the state is called
    before they have returned. *)
Definition save_try (st : State) : outcome State :=
  match JSON_parse (editedText st) with
  | None => Throws
  | Some parsed =>
      let currentJsonStr := json st in
      let rootObj := parse_root currentJsonStr in
      match selectedNode st with
      | None => Ok (setError (Some "No target node selected") st)
      | Some nodeData =>
          newRoot ← written_root rootObj nodeData parsed;
          let st := setJson (JSON_stringify newRoot) st in
          let st := setTimeout (path nodeData) st in
          let st := setIsEditing false st in
          Ok (onClose st)
      end
  end.

Definition invalid_json_message : string :=
  "Invalid JSON — please fix syntax before saving".

(** [handleSave]: [setError(null)], the [try] block, and the [catch] that
    turns whatever was thrown into the error message. *)
Definition handleSave (st : State) : outcome State :=
  match save_try (setError None st) with
  | Ok st' => Ok st'
  | Throws => Ok (setError (Some invalid_json_message) (setError None st))
  | Unmodelled => Unmodelled
  end.

(** The callback handed to [setTimeout]: [nodes.find] with [pathEquals],
    then [setSelectedNode] when a node was found. *)
Definition reselect (nodes : list NodeData) (p : option JSONPath) (st : State) : State :=
  match find (fun n => pathEquals (path n) p) nodes with
  | Some n => setSelectedNode n st
  | None => st
  end.

End Editor.

(** ** A reference platform

    [JSON.stringify(_, null, 2)] and [JSON.parse] on the values of the
    embedding, and an engine with the names that the standard prototypes
    define, to run the editor on concrete documents.  The parser reads
    integers only and escapes up to [\u00ff]. *)
Module Reference.

Definition unit_string (n : N) : string :=
  String (Ascii.ascii_of_N n) EmptyString.

Definition dquote : string := unit_string 34.
Definition backslash : string := unit_string 92.
Definition newline : string := unit_string 10.

Definition hex_char (n : N) : string :=
  unit_string (if (n <? 10)%N then 48 + n else 87 + n)%N.

Definition escape_unit (c : Ascii.ascii) : string :=
  let n := Ascii.N_of_ascii c in
  if (n =? 34)%N then backslash +:+ dquote
  else if (n =? 92)%N then backslash +:+ backslash
  else if (n =? 8)%N then backslash +:+ "b"
  else if (n =? 12)%N then backslash +:+ "f"
  else if (n =? 10)%N then backslash +:+ "n"
  else if (n =? 13)%N then backslash +:+ "r"
  else if (n =? 9)%N then backslash +:+ "t"
  else if (n <? 32)%N
       then backslash +:+ "u00" +:+ hex_char (n / 16) +:+ hex_char (n mod 16)
  else String c EmptyString.

Fixpoint escape (s : string) : string :=
  match s with
  | EmptyString => ""
  | String c s' => escape_unit c +:+ escape s'
  end.

Definition quote (s : string) : string := dquote +:+ escape s +:+ dquote.

Fixpoint indent (n : nat) : string :=
  match n with
  | 0 => ""
  | S n' => " " +:+ indent n'
  end.

Definition layout (ind : nat) (open close : string) (items : list string) : string :=
  match items with
  | [] => open +:+ close
  | _ =>
      open +:+ newline
        +:+ join ("," +:+ newline) (map (fun x => indent (2 + ind) +:+ x) items)
        +:+ newline +:+ indent ind +:+ close
  end.

(** A hole or [undefined] in an array is written [null]; a member holding
    [undefined] is left out; the named members of an array are not
    written.  For [undefined] itself [JSON.stringify] gives no text; it is
    spelled out here, and so is a built-in object, which the documents of
    the examples do not hold. *)
Fixpoint stringify_at (ind : nat) (v : jsvalue) : string :=
  match v with
  | VPrim Undefined => "undefined"
  | VPrim Null => "null"
  | VPrim (Bool true) => "true"
  | VPrim (Bool false) => "false"
  | VPrim (Num n) => pretty n
  | VPrim (Str s) => quote s
  | VObject (Arr elems _) =>
      layout ind "[" "]"
        (map (fun o =>
                match o with
                | None | Some (VPrim Undefined) => "null"
                | Some x => stringify_at (2 + ind) x
                end) elems)
  | VObject (Obj ps) =>
      layout ind "{" "}"
        (map (fun kx => quote kx.1 +:+ ": " +:+ kx.2)
           (omap id
              (map (fun kx =>
                      match kx with
                      | (_, VPrim Undefined) => None
                      | (k, x) => Some (k, stringify_at (2 + ind) x)
                      end) ps)))
  | VBuiltin _ => "undefined"
  end.

Definition stringify (v : jsvalue) : string := stringify_at 0 v.

Definition is_ws (c : Ascii.ascii) : bool :=
  let n := Ascii.N_of_ascii c in
  (n =? 32)%N || (n =? 9)%N || (n =? 10)%N || (n =? 13)%N.

Fixpoint skip_ws (s : string) : string :=
  match s with
  | EmptyString => ""
  | String c s' => if is_ws c then skip_ws s' else s
  end.

Fixpoint strip_prefix (p s : string) : option string :=
  match p, s with
  | EmptyString, _ => Some s
  | String a p', String b s' => if Ascii.eqb a b then strip_prefix p' s' else None
  | String _ _, EmptyString => None
  end.

Definition hex_value (c : Ascii.ascii) : option N :=
  let n := Ascii.N_of_ascii c in
  if (48 <=? n)%N && (n <=? 57)%N then Some (n - 48)%N
  else if (97 <=? n)%N && (n <=? 102)%N then Some (n - 87)%N
  else if (65 <=? n)%N && (n <=? 70)%N then Some (n - 55)%N
  else None.

Definition unescape (e : Ascii.ascii) : option Ascii.ascii :=
  let n := Ascii.N_of_ascii e in
  if (n =? 34)%N || (n =? 92)%N || (n =? 47)%N then Some e
  else if (n =? 98)%N then Some (Ascii.ascii_of_N 8)
  else if (n =? 102)%N then Some (Ascii.ascii_of_N 12)
  else if (n =? 110)%N then Some (Ascii.ascii_of_N 10)
  else if (n =? 114)%N then Some (Ascii.ascii_of_N 13)
  else if (n =? 116)%N then Some (Ascii.ascii_of_N 9)
  else None.

Definition prepend (c : Ascii.ascii) (r : option (string * string))
  : option (string * string) :=
  match r with
  | Some (s, rest) => Some (String c s, rest)
  | None => None
  end.

(** The characters of a string literal after its opening quote. *)
Fixpoint parse_chars (s : string) : option (string * string) :=
  match s with
  | EmptyString => None
  | String c s' =>
      let n := Ascii.N_of_ascii c in
      if (n =? 34)%N then Some ("", s')
      else if (n =? 92)%N then
        match s' with
        | String e s'' =>
            match unescape e with
            | Some c' => prepend c' (parse_chars s'')
            | None =>
                match Ascii.N_of_ascii e, s'' with
                | 117%N, String h1 (String h2 (String h3 (String h4 s5))) =>
                    match hex_value h1, hex_value h2, hex_value h3, hex_value h4 with
                    | Some 0%N, Some 0%N, Some a, Some b =>
                        prepend (Ascii.ascii_of_N (16 * a + b)) (parse_chars s5)
                    | _, _, _, _ => None
                    end
                | _, _ => None
                end
            end
        | EmptyString => None
        end
      else if (n <? 32)%N then None
      else prepend c (parse_chars s')
  end.

Fixpoint take_digits (s : string) (acc : N) : N * string :=
  match s with
  | EmptyString => (acc, "")
  | String c s' =>
      if is_digit c
      then take_digits s' (10 * acc + (Ascii.N_of_ascii c - 48))%N
      else (acc, s)
  end.

(** An integer literal; a literal that goes on with a fraction or an
    exponent is not read (see the scope of the embedding). *)
Definition parse_number (s : string) : option (Z * string) :=
  let '(neg, s1) :=
    match s with
    | String c s' => if (Ascii.N_of_ascii c =? 45)%N then (true, s') else (false, s)
    | EmptyString => (false, s)
    end in
  match s1 with
  | String c s2 =>
      if is_digit c then
        let d := (Ascii.N_of_ascii c - 48)%N in
        let '(n, rest) := if (d =? 0)%N then (0%N, s2) else take_digits s2 d in
        let z := if neg then (- Z.of_N n)%Z else Z.of_N n in
        match rest with
        | String c' _ =>
            let m := Ascii.N_of_ascii c' in
            if (m =? 46)%N || (m =? 101)%N || (m =? 69)%N then None
            else Some (z, rest)
        | EmptyString => Some (z, rest)
        end
      else None
  | EmptyString => None
  end.

Fixpoint parse_value (fuel : nat) (s : string) : option (jsvalue * string) :=
  match fuel with
  | 0 => None
  | S fuel =>
      match skip_ws s with
      | EmptyString => None
      | String c rest as s0 =>
          let n := Ascii.N_of_ascii c in
          if (n =? 123)%N then
            match skip_ws rest with
            | String c' rest' =>
                if (Ascii.N_of_ascii c' =? 125)%N then Some (VObj [], rest')
                else parse_members fuel rest []
            | EmptyString => None
            end
          else if (n =? 91)%N then
            match skip_ws rest with
            | String c' rest' =>
                if (Ascii.N_of_ascii c' =? 93)%N then Some (VArr [], rest')
                else parse_items fuel rest []
            | EmptyString => None
            end
          else if (n =? 34)%N then
            match parse_chars rest with
            | Some (str, rest') => Some (VPrim (Str str), rest')
            | None => None
            end
          else
            match strip_prefix "null" s0, strip_prefix "true" s0,
                  strip_prefix "false" s0 with
            | Some rest', _, _ => Some (VPrim Null, rest')
            | _, Some rest', _ => Some (VPrim (Bool true), rest')
            | _, _, Some rest' => Some (VPrim (Bool false), rest')
            | None, None, None =>
                match parse_number s0 with
                | Some (z, rest') => Some (VPrim (Num z), rest')
                | None => None
                end
            end
      end
  end
with parse_items (fuel : nat) (s : string) (acc : list (option jsvalue))
  : option (jsvalue * string) :=
  match fuel with
  | 0 => None
  | S fuel =>
      match parse_value fuel s with
      | Some (v, rest) =>
          match skip_ws rest with
          | String c rest' =>
              let n := Ascii.N_of_ascii c in
              if (n =? 44)%N then parse_items fuel rest' (acc ++ [Some v])
              else if (n =? 93)%N then Some (VArr (acc ++ [Some v]), rest')
              else None
          | EmptyString => None
          end
      | None => None
      end
  end
with parse_members (fuel : nat) (s : string) (acc : list (string * jsvalue))
  : option (jsvalue * string) :=
  match fuel with
  | 0 => None
  | S fuel =>
      match skip_ws s with
      | String q rest =>
          if (Ascii.N_of_ascii q =? 34)%N then
            match parse_chars rest with
            | Some (k, rest1) =>
                match skip_ws rest1 with
                | String c rest2 =>
                    if (Ascii.N_of_ascii c =? 58)%N then
                      match parse_value fuel rest2 with
                      | Some (v, rest3) =>
                          match skip_ws rest3 with
                          | String d rest4 =>
                              let n := Ascii.N_of_ascii d in
                              if (n =? 44)%N
                              then parse_members fuel rest4 (assign_prop k v acc)
                              else if (n =? 125)%N
                              then Some (VObj (assign_prop k v acc), rest4)
                              else None
                          | EmptyString => None
                          end
                      | None => None
                      end
                    else None
                | EmptyString => None
                end
            | None => None
            end
          else None
      | EmptyString => None
      end
  end.

Definition parse (s : string) : option jsvalue :=
  match parse_value (2 + 2 * String.length s) s with
  | Some (v, rest) =>
      match skip_ws rest with
      | EmptyString => Some v
      | String _ _ => None
      end
  | None => None
  end.

Definition codec : JsonCodec :=
  {| JSON_parse := parse; JSON_stringify := stringify |}.

(** The names that the standard prototypes define ([__proto__] apart). *)
Definition object_names : list string :=
  ["constructor"; "__defineGetter__"; "__defineSetter__"; "hasOwnProperty";
   "__lookupGetter__"; "__lookupSetter__"; "isPrototypeOf";
   "propertyIsEnumerable"; "toString"; "valueOf"; "toLocaleString"].

Definition array_names : list string :=
  ["at"; "concat"; "copyWithin"; "entries"; "every"; "fill"; "filter"; "find";
   "findIndex"; "findLast"; "findLastIndex"; "flat"; "flatMap"; "forEach";
   "includes"; "indexOf"; "join"; "keys"; "lastIndexOf"; "map"; "pop"; "push";
   "reduce"; "reduceRight"; "reverse"; "shift"; "slice"; "some"; "sort";
   "splice"; "toReversed"; "toSorted"; "toSpliced"; "unshift"; "values"; "with"].

Definition string_names : list string :=
  ["at"; "charAt"; "charCodeAt"; "codePointAt"; "concat"; "endsWith";
   "includes"; "indexOf"; "isWellFormed"; "lastIndexOf"; "localeCompare";
   "match"; "matchAll"; "normalize"; "padEnd"; "padStart"; "repeat"; "replace";
   "replaceAll"; "search"; "slice"; "split"; "startsWith"; "substring";
   "toLocaleLowerCase"; "toLocaleUpperCase"; "toLowerCase"; "toUpperCase";
   "toWellFormed"; "trim"; "trimEnd"; "trimStart"; "anchor"; "big"; "blink";
   "bold"; "fixed"; "fontcolor"; "fontsize"; "italics"; "link"; "small";
   "strike"; "sub"; "substr"; "sup"; "trimLeft"; "trimRight"].

Definition number_names : list string :=
  ["toExponential"; "toFixed"; "toPrecision"].

Definition names_of (kd : kind) : list string :=
  match kd with
  | KObject => object_names
  | KArray => array_names ++ object_names
  | KString => string_names ++ object_names
  | KNumber => number_names ++ object_names
  | KBoolean => object_names
  end.

(** A member that the prototypes define is a function, and the accessors
    [caller] and [arguments] that a built-in function inherits throw a
    [TypeError]; the other reads from built-in objects are left out. *)
Definition realm : Realm :=
  {| inherits kd k := bool_decide (k ∈ names_of kd);
     builtin_get b k :=
       match b with
       | Inherited _ _ =>
           if String.eqb k "caller" || String.eqb k "arguments"
           then Throws else Unmodelled
       | Prototype _ => Unmodelled
       end;
     number_to_string z := pretty z;
     builtin_to_string _ := Unmodelled |}.

End Reference.

(** ** Notions used to state the properties *)

(** A plain object whose members have distinct names. *)
Definition distinct_keys (v : jsvalue) : Prop :=
  match v with
  | VObject (Obj ps) => NoDup ps.*1
  | _ => True
  end.

(** Overlay: the binding of [k] in [pps] if there is one, otherwise the
    binding in [tps]. *)
Definition overlay (tps pps : list (string * jsvalue)) (k : string) : option jsvalue :=
  match lookup_prop k pps with
  | Some v => Some v
  | None => lookup_prop k tps
  end.

(** The value that the rows give to key [k]: that of the last row under
    this key among the rows that have a non-empty key and a type other
    than array and object. *)
Definition contributes (k : string) (row : NodeRow) : bool :=
  is_scalar_row row && negb (no_key row) && bool_decide (key row = Some k).

Fixpoint row_value (k : string) (rows : list NodeRow) : option jsvalue :=
  match rows with
  | [] => None
  | row :: rows' =>
      match row_value k rows' with
      | Some v => Some v
      | None => if contributes k row then Some (value row) else None
      end
  end.

(** The rows for which the embedding follows the loop: no row that
    counts has the key [__proto__] with a value that the setter takes
    ([null] or an object). *)
Definition setter_free (rows : list NodeRow) : bool :=
  forallb (fun row =>
             negb (contributes "__proto__" row) || setter_ignores (view (value row)))
    rows.

(** *** Assignments that are neither a resize nor a call of a setter *)

(** The keys that no object treats specially. *)
Definition plain_key (k : string) : bool :=
  negb (String.eqb k "length") && negb (String.eqb k "__proto__").

Definition plain_path (p : JSONPath) : bool :=
  forallb (fun seg => plain_key (to_key seg)) p.

(** [c[k] = v] creates or updates an own member of [c]: [k] is not the
    [length] of an array, and it is not [__proto__] unless [c] has an own
    member of that name. *)
Definition ordinary {V} (c : container V) (k : string) : bool :=
  match c with
  | Obj ps =>
      negb (String.eqb k "__proto__") || bool_decide (is_Some (lookup_prop k ps))
  | Arr elems named =>
      bool_decide (is_Some (array_index k))
      || (negb (String.eqb k "length")
          && (negb (String.eqb k "__proto__")
              || bool_decide (is_Some (lookup_prop k named))))
  end.

(** The container after such an assignment. *)
Definition put {V} (c : container V) (k : string) (v : V) : container V :=
  match c with
  | Obj ps => Obj (assign_prop k v ps)
  | Arr elems named =>
      match array_index k with
      | Some i => Arr (assign_elem i v elems) named
      | None => Arr elems (assign_prop k v named)
      end
  end.

Section Plain.
Context `{Realm}.

(** What a read finds in a container. *)
Definition member (c : container jsvalue) (k : string) : jsvalue :=
  match c with
  | Obj ps => default (inherited KObject k) (lookup_prop k ps)
  | Arr elems named =>
      if String.eqb k "length" then VPrim (Num (Z.of_nat (length elems)))
      else default (inherited KArray k) (own_get c k)
  end.

(** The container that the loop of [setValueAtPath] leaves when each of
    its assignments is an ordinary one. *)
Fixpoint written (cursor : container jsvalue) (seg : segment) (rest : JSONPath)
    (v : jsvalue) : container jsvalue :=
  match rest with
  | [] => put cursor (to_key seg) v
  | nextSeg :: rest' =>
      let cur := member cursor (to_key seg) in
      let child :=
        if is_nullish cur then fresh_for nextSeg else shallow_copy cur in
      put cursor (to_key seg) (VObject (written child nextSeg rest' v))
  end.

(** Each assignment of the loop is an ordinary one. *)
Fixpoint ordinary_write (cursor : container jsvalue) (seg : segment) (rest : JSONPath)
  : bool :=
  ordinary cursor (to_key seg)
  && match rest with
     | [] => true
     | nextSeg :: rest' =>
         let cur := member cursor (to_key seg) in
         ordinary_write
           (if is_nullish cur then fresh_for nextSeg else shallow_copy cur)
           nextSeg rest'
     end.

End Plain.

(** *** Reading through own members *)

(** The own member of a value under a key: a member of an object, an
    element of an array, a character of a string. *)
Definition own_prop (x : jsvalue) (k : string) : option jsvalue :=
  match x with
  | VObject (Obj ps) => lookup_prop k ps
  | VObject (Arr elems named) =>
      if String.eqb k "length" then None else own_get (Arr elems named) k
  | VPrim (Str s) =>
      i ← string_index k; c ← String.get i s;
      Some (VPrim (Str (String c EmptyString)))
  | _ => None
  end.

(** The value reached along a path through own members only. *)
Fixpoint own_loop (cursor : jsvalue) (segs : JSONPath) : option jsvalue :=
  match segs with
  | [] => Some cursor
  | seg :: segs' => x ← own_prop cursor (to_key seg); own_loop x segs'
  end.

(** * The store model

    The same helpers over a store of objects, where a value is a
    primitive, a built-in object or a reference, and an assignment
    changes the object that the reference names.  An object is allocated
    at the end of the store. *)
Module Store.

Inductive ref_value : Type :=
| RPrim (p : prim)
| RRef (l : nat)
| RBuiltin (b : builtin).

Abbreviation store := (list (container ref_value)).

Definition is_nullish (v : ref_value) : bool :=
  match v with
  | RPrim Undefined | RPrim Null => true
  | _ => false
  end.

Definition view (h : store) (v : ref_value) : value_view :=
  match v with
  | RPrim p => ViewPrim p
  | RRef l =>
      match h !! l with
      | Some (Arr _ _) => ViewArray
      | _ => ViewObject
      end
  | RBuiltin _ => ViewBuiltin
  end.

(** A value that is not an object of the store, as a value of the store;
    the objects that a built-in object may hold are not in the store. *)
Definition inject (x : jsvalue) : outcome ref_value :=
  match x with
  | VPrim p => Ok (RPrim p)
  | VBuiltin b => Ok (RBuiltin b)
  | VObject _ => Unmodelled
  end.

(** The members copied by [{...x}]. *)
Definition spread_object (h : store) (x : ref_value) : list (string * ref_value) :=
  match x with
  | RRef l =>
      match h !! l with
      | Some (Obj ps) => ps
      | Some (Arr elems named) => elem_members 0 elems ++ named
      | None => []
      end
  | RPrim (Str s) => string_members RPrim 0 s
  | RPrim _ => []
  | RBuiltin _ => []
  end.

(** The object built by [Array.isArray(x) ? [...x] : {...x}]. *)
Definition shallow_copy (h : store) (x : ref_value) : container ref_value :=
  match x with
  | RRef l =>
      match h !! l with
      | Some (Arr elems _) => Arr (spread_array (RPrim Undefined) elems) []
      | _ => Obj (spread_object h x)
      end
  | RBuiltin (Prototype KArray) => Arr [] []
  | _ => Obj (spread_object h x)
  end.

(** A new object, and the reference to it. *)
Definition alloc (h : store) (c : container ref_value) : nat * store :=
  (length h, h ++ [c]).

(** [cursor[k] = v], changing the object at [cursor] in place. *)
Definition assign (h : store) (cursor : nat) (k : string) (v : ref_value)
  : outcome store :=
  match h !! cursor with
  | Some c => c' ← own_set (view h) c k v; Ok (<[cursor := c']> h)
  | None => Ok h
  end.

(** The reading of a path that takes own members only: members of
    objects, elements of arrays, characters of strings. *)
Definition own_prop (h : store) (x : ref_value) (k : string) : option ref_value :=
  match x with
  | RRef l =>
      match h !! l with
      | Some (Obj ps) => lookup_prop k ps
      | Some (Arr elems named) =>
          if String.eqb k "length" then None else own_get (Arr elems named) k
      | None => None
      end
  | RPrim (Str s) =>
      i ← string_index k; c ← String.get i s;
      Some (RPrim (Str (String c EmptyString)))
  | _ => None
  end.

Fixpoint own_loop (h : store) (cursor : ref_value) (segs : JSONPath) : option ref_value :=
  match segs with
  | [] => Some cursor
  | seg :: segs' => x ← own_prop h cursor (to_key seg); own_loop h x segs'
  end.

Section Language.
Context `{Realm}.

(** What a value finds on its prototype chain is a primitive or a
    built-in object. *)
Definition retract (x : jsvalue) : ref_value :=
  match x with
  | VPrim p => RPrim p
  | VBuiltin b => RBuiltin b
  | VObject _ => RPrim Undefined
  end.

(** What a read finds in a container. *)
Definition member (c : container ref_value) (k : string) : ref_value :=
  match c with
  | Obj ps => default (retract (inherited KObject k)) (lookup_prop k ps)
  | Arr elems named =>
      if String.eqb k "length" then RPrim (Num (Z.of_nat (length elems)))
      else default (retract (inherited KArray k)) (own_get c k)
  end.

(** [x[k]]. *)
Definition get_prop (h : store) (x : ref_value) (k : string) : outcome ref_value :=
  match x with
  | RRef l =>
      match h !! l with
      | Some (Obj ps) =>
          match lookup_prop k ps with
          | Some v => Ok v
          | None => inject (inherited KObject k)
          end
      | Some (Arr elems named) =>
          if String.eqb k "length" then Ok (RPrim (Num (Z.of_nat (length elems))))
          else
            match own_get (Arr elems named) k with
            | Some v => Ok v
            | None => inject (inherited KArray k)
            end
      | None => Ok (RPrim Undefined)
      end
  | RPrim (Str s) =>
      if String.eqb k "length" then Ok (RPrim (Num (Z.of_nat (String.length s))))
      else
        match string_index k ≫= (fun i => String.get i s) with
        | Some c => Ok (RPrim (Str (String c EmptyString)))
        | None => inject (inherited KString k)
        end
  | RPrim (Num _) => inject (inherited KNumber k)
  | RPrim (Bool _) => inject (inherited KBoolean k)
  | RPrim Undefined | RPrim Null => Throws
  | RBuiltin b => x ← builtin_get b k; inject x
  end.

Fixpoint get_loop (h : store) (cursor : ref_value) (segs : JSONPath)
  : outcome ref_value :=
  match segs with
  | [] => Ok cursor
  | seg :: segs' =>
      if is_nullish cursor then Ok (RPrim Undefined)
      else x ← get_prop h cursor (to_key seg); get_loop h x segs'
  end.

Definition getValueAtPath (h : store) (root : ref_value) (path : option JSONPath)
  : outcome ref_value :=
  match path with
  | None | Some [] => Ok root
  | Some segs => get_loop h root segs
  end.

(** The loop and the final assignment, statement by statement: the child
    is allocated, stored in the object at [cursor], and becomes the
    cursor. *)
Fixpoint set_loop (h : store) (cursor : nat) (seg : segment) (rest : JSONPath)
    (v : ref_value) : outcome store :=
  match rest with
  | [] => assign h cursor (to_key seg) v
  | nextSeg :: rest' =>
      cur ← get_prop h (RRef cursor) (to_key seg);
      let '(child, h) :=
        alloc h (if is_nullish cur then fresh_for nextSeg else shallow_copy h cur) in
      h ← assign h cursor (to_key seg) (RRef child);
      set_loop h child nextSeg rest' v
  end.

Definition setValueAtPath (h : store) (root : ref_value) (path : option JSONPath)
    (v : ref_value) : outcome (ref_value * store) :=
  match path with
  | None | Some [] => Ok (v, h)
  | Some (seg :: rest) =>
      let '(rootClone, h) := alloc h (shallow_copy h root) in
      h ← set_loop h rootClone seg rest v; Ok (RRef rootClone, h)
  end.

End Language.

(** Two paths part ways: at the first position where their keys differ
    both have a segment. *)
Fixpoint disjoint (p q : JSONPath) : bool :=
  match p, q with
  | sp :: p', sq :: q' =>
      if String.eqb (to_key sp) (to_key sq) then disjoint p' q' else true
  | _, _ => false
  end.

(** [x] is a primitive, a built-in object or a reference below [n]. *)
Definition old (n : nat) (x : ref_value) : Prop :=
  match x with
  | RRef l => l < n
  | _ => True
  end.

(** The values held by an object. *)
Definition members (c : container ref_value) : list ref_value :=
  match c with
  | Arr elems named => omap id elems ++ named.*2
  | Obj ps => ps.*2
  end.

Definition members_old (n : nat) (c : container ref_value) : Prop :=
  Forall (old n) (members c).

(** No reference of the store leads outside of it. *)
Definition closed (h : store) : Prop :=
  forall l c, h !! l = Some c -> members_old (length h) c.

(** The arrays of a JSON document have elements only. *)
Definition json_arrays (h : store) : Prop :=
  forall l elems named, h !! l = Some (Arr elems named) -> named = [].

(** The same three conditions as checks. *)
Definition is_old (n : nat) (x : ref_value) : bool :=
  match x with
  | RRef l => bool_decide (l < n)
  | _ => true
  end.

Definition is_closed (h : store) : bool :=
  forallb (fun c => forallb (is_old (length h)) (members c)) h.

Definition is_json (h : store) : bool :=
  forallb (fun c =>
             match c with
             | Arr _ (_ :: _) => false
             | _ => true
             end) h.

(** What the invariants of the loop say about the store [h]: below [n]
    lie the original objects, closed under references and with arrays as
    in JSON. *)
Definition original (n : nat) (h : store) : Prop :=
  n <= length h
  /\ (forall l c, l < n -> h !! l = Some c -> members_old n c)
  /\ (forall l elems named, l < n -> h !! l = Some (Arr elems named) -> named = []).

End Store.

(** ** Documents and nodes used as examples *)

Definition row (k : string) (v : jsvalue) (t : row_type) : NodeRow :=
  {| key := Some k; value := v; type := t |}.

Definition bare_row (v : jsvalue) (t : row_type) : NodeRow :=
  {| key := None; value := v; type := t |}.

(** The document [{"user": {"name": "Ann", "age": 30}}] and its node at
    [["user"]]. *)
Definition ann_doc : jsvalue :=
  VObj [("user", VObj [("name", VPrim (Str "Ann")); ("age", VPrim (Num 30))])].

Definition ann_node : NodeData :=
  {| text := Some [row "name" (VPrim (Str "Ann")) TString;
                   row "age" (VPrim (Num 30)) TNumber];
     path := Some [SStr "user"] |}.

(** The document [{"a": 1, "b": 2}], shown as one node at the root. *)
Definition ab_doc : jsvalue := VObj [("a", VPrim (Num 1)); ("b", VPrim (Num 2))].

Definition ab_node : NodeData :=
  {| text := Some [row "a" (VPrim (Num 1)) TNumber; row "b" (VPrim (Num 2)) TNumber];
     path := Some [] |}.

(** The editor, open on [node] over the document text [doc], with [edited]
    in the text area. *)
Definition editing (doc : string) (node : option NodeData) (edited : string) : State :=
  {| json := doc; selectedNode := node; editedText := edited; error := None;
     isEditing := true; closed := false; timers := [] |}.

(** [{"a": 1, "b": [2]}] in a store: the object at 0, its array at 1. *)
Definition ab_store : Store.store :=
  [Obj [("a", Store.RPrim (Num 1)); ("b", Store.RRef 1)];
   Arr [Some (Store.RPrim (Num 2))] []].

(** ** jsonPathToString *)

(** [typeof seg === "number" ? seg : `"${seg}"`]. *)
Definition show_segment (seg : segment) : string :=
  match seg with
  | SNum n => pretty n
  | SStr s => Reference.dquote +:+ s +:+ Reference.dquote
  end.

Definition jsonPathToString (path : option JSONPath) : string :=
  match path with
  | None | Some [] => "$"
  | Some segs => "$[" +:+ join "][" (map show_segment segs) +:+ "]"
  end.

(** ** The draft of the editor *)

Section Draft.
Context `{Realm} `{JsonCodec}.

Definition setEditedText (s : string) (st : State) : State :=
  {| json := json st; selectedNode := selectedNode st; editedText := s;
     error := error st; isEditing := isEditing st; closed := closed st;
     timers := timers st |}.

(** [normalizeNodeData(nodeData?.text ?? [])]. *)
Definition originalText (st : State) : outcome string :=
  normalizeNodeData (Some (default [] (selectedNode st ≫= text))).

(** [handleCancel]: the draft goes back to the node's text, which the
    component has computed when it was rendered. *)
Definition handleCancel (st : State) : outcome State :=
  s ← originalText st;
  let st := setEditedText s st in
  let st := setError None st in
  Ok (setIsEditing false st).

(** The effect of lines 90-94, run when the dialog opens or the node's
    text changes. *)
Definition resetEffect (st : State) : outcome State :=
  s ← originalText st;
  let st := setEditedText s st in
  let st := setIsEditing false st in
  Ok (setError None st).

(** The [onClick] of the Edit button. *)
Definition handleEdit (st : State) : State := setIsEditing true st.

End Draft.

(** ** Shapes of documents along a path *)

(** [x] is not an array that carries named members. *)
Definition no_named (x : jsvalue) : bool :=
  match x with
  | VObject (Arr _ (_ :: _)) => false
  | _ => true
  end.

(** The values met from [x] along [p], the last one apart, are as JSON
    has them: their arrays have elements only. *)
Fixpoint json_along (x : jsvalue) (p : JSONPath) : bool :=
  match p with
  | [] => true
  | seg :: rest =>
      no_named x
      && match own_prop x (to_key seg) with
         | Some y => json_along y rest
         | None => true
         end
  end.

(** An array without holes and without named members, or a plain object. *)
Definition dense (c : container jsvalue) : bool :=
  match c with
  | Obj _ => true
  | Arr elems named =>
      forallb (fun o => match o with Some _ => true | None => false end) elems
      && match named with [] => true | _ :: _ => false end
  end.

(** [p] leads from [x] to a member that is there, through plain objects
    and dense arrays. *)
Fixpoint addresses (x : jsvalue) (p : JSONPath) : bool :=
  match p with
  | [] => true
  | seg :: rest =>
      match x with
      | VObject c =>
          dense c
          && match own_get c (to_key seg) with
             | Some y => addresses y rest
             | None => false
             end
      | _ => false
      end
  end.

Definition is_number_segment (seg : segment) : bool :=
  match seg with
  | SNum _ => true
  | SStr _ => false
  end.

(** The keys in the order in which assignments create them: a key that is
    there keeps its place, a new one goes last. *)
Definition keys_after (ks base : list string) : list string :=
  fold_left (fun acc k => if bool_decide (k ∈ acc) then acc else acc ++ [k]) ks base.

(** The keys under which [normalizeNodeData] makes a member, row by row:
    the key of a row that counts, [__proto__] apart. *)
Definition row_keys (rows : list NodeRow) : list string :=
  omap (fun row =>
          if is_scalar_row row && negb (no_key row)
          then match key row with
               | Some k => if String.eqb k "__proto__" then None else Some k
               | None => None
               end
          else None)
    rows.

(** A name that is not an array index. *)
Definition is_name (k : string) : bool :=
  match array_index k with
  | Some _ => false
  | None => true
  end.

(** Keys in the order of an enumeration: no key stands after one that it
    goes before, so that the array indices come first, in ascending
    order. *)
Fixpoint enumerated (ks : list string) : bool :=
  match ks with
  | [] => true
  | k :: ks' => forallb (fun k' => negb (goes_before k' k)) ks' && enumerated ks'
  end.

(** What follows a number in a text: nothing, or a character that is
    neither a digit nor the start of a fraction or of an exponent. *)
Definition ends_number (tail : string) : bool :=
  match tail with
  | EmptyString => true
  | String c _ =>
      let n := Ascii.N_of_ascii c in
      negb (is_digit c) && negb ((n =? 46)%N || (n =? 101)%N || (n =? 69)%N)
  end.

(** ** JSON data that the platform's codec reads back *)

(** [null], a boolean or a number: the values whose text in a template
    literal is their JSON text. *)
Definition bare_scalar (v : jsvalue) : bool :=
  match v with
  | VPrim Null | VPrim (Bool _) | VPrim (Num _) => true
  | _ => false
  end.

(** The values of JSON that are not containers. *)
Definition json_scalar (v : jsvalue) : bool :=
  match v with
  | VPrim Null | VPrim (Bool _) | VPrim (Num _) | VPrim (Str _) => true
  | _ => false
  end.

(** The members of an object of scalars, as the language holds them: each
    key once, in the order of an enumeration. *)
Definition flat_object (ps : list (string * jsvalue)) : bool :=
  forallb (fun kx => json_scalar kx.2) ps
  && bool_decide (NoDup ps.*1)
  && enumerated ps.*1.

(** What the editor relies on when it shows a text and parses it again:
    [JSON.parse] reads ["{}"] as the empty object, reads the text that a
    template literal gives for [null], a boolean or a number as that
    value, and reads the serialization of an object of scalars as that
    object. *)
Class JsonLaws `{Realm} `{JsonCodec} : Prop := {
  parse_empty_object : JSON_parse "{}" = Some (VObj []);
  parse_bare_scalar v s :
    bare_scalar v = true -> to_string v = Ok s -> JSON_parse s = Some v;
  parse_flat_object ps :
    flat_object ps = true -> JSON_parse (JSON_stringify (VObj ps)) = Some (VObj ps)
}.

(** The rows that count hold scalars of JSON. *)
Definition scalar_rows (rows : list NodeRow) : bool :=
  forallb (fun row =>
             negb (is_scalar_row row && negb (no_key row)) || json_scalar (value row))
    rows.

(** ** More examples *)

(** Two rebuilt node lists: one that has the node of [["user"]] again,
    one that lost it. *)
Definition rebuilt_nodes : list NodeData :=
  [ {| text := Some []; path := Some [] |};
    {| text := Some [row "name" (VPrim (Str "Ann")) TString;
                     row "age" (VPrim (Num 31)) TNumber];
       path := Some [SStr "user"] |} ].

(** [{"list": [10, 20]}]. *)
Definition list_doc : jsvalue :=
  VObj [("list", VArr [Some (VPrim (Num 10)); Some (VPrim (Num 20))])].

(** * Properties *)

(** ** Members *)

Section Members.
Context {V : Type}.
Implicit Types (ps : list (string * V)) (elems : list (option V)).
Implicit Types (c : container V) (k : string) (v : V).

Lemma lookup_update_eq k v ps :
  is_Some (lookup_prop k ps) -> lookup_prop k (update_prop k v ps) = Some v.
Proof.
  induction ps as [|[k' v'] ps IH]; simpl; [by intros [? ?]|].
  destruct (String.eqb k k') eqn:E; simpl.
  - by rewrite String.eqb_refl.
  - by rewrite E.
Qed.

Lemma lookup_update_ne k k' v ps :
  k <> k' -> lookup_prop k' (update_prop k v ps) = lookup_prop k' ps.
Proof.
  intros Hne. induction ps as [|[k0 v0] ps IH]; simpl; [done|].
  destruct (String.eqb k k0) eqn:E; simpl.
  - apply String.eqb_eq in E. subst k0.
    destruct (String.eqb k' k) eqn:E'; [|done].
    apply String.eqb_eq in E'. congruence.
  - by rewrite IH.
Qed.

Lemma lookup_add_eq k v ps :
  lookup_prop k ps = None -> lookup_prop k (add_prop k v ps) = Some v.
Proof.
  induction ps as [|[k' v'] ps IH]; simpl.
  - by rewrite String.eqb_refl.
  - destruct (String.eqb k k') eqn:E; [done|]. intros Hk.
    destruct (goes_before k k'); simpl.
    + by rewrite String.eqb_refl.
    + rewrite E. by apply IH.
Qed.

Lemma lookup_add_ne k k' v ps :
  k <> k' -> lookup_prop k' (add_prop k v ps) = lookup_prop k' ps.
Proof.
  intros Hne. assert (String.eqb k' k = false) as E.
  { apply String.eqb_neq. congruence. }
  induction ps as [|[k0 v0] ps IH]; simpl.
  - by rewrite E.
  - destruct (goes_before k k0); simpl.
    + by rewrite E.
    + by rewrite IH.
Qed.

Lemma lookup_assign_eq k v ps : lookup_prop k (assign_prop k v ps) = Some v.
Proof.
  unfold assign_prop. destruct (lookup_prop k ps) eqn:E.
  - apply lookup_update_eq. by rewrite E.
  - by apply lookup_add_eq.
Qed.

Lemma lookup_assign_ne k k' v ps :
  k <> k' -> lookup_prop k' (assign_prop k v ps) = lookup_prop k' ps.
Proof.
  intros Hne. unfold assign_prop. destruct (lookup_prop k ps).
  - by apply lookup_update_ne.
  - by apply lookup_add_ne.
Qed.

Lemma elem_assign_eq i v elems : mjoin (assign_elem i v elems !! i) = Some v.
Proof.
  unfold assign_elem. case_decide as Hi.
  - by rewrite list_lookup_insert_eq.
  - rewrite lookup_app_r by lia.
    rewrite lookup_app_r by (rewrite length_replicate; lia).
    rewrite length_replicate.
    by replace (i - length elems - (i - length elems)) with 0 by lia.
Qed.

Lemma elem_assign_ne i j v elems :
  i <> j -> mjoin (assign_elem i v elems !! j) = mjoin (elems !! j).
Proof.
  intros Hne. unfold assign_elem. case_decide as Hi.
  - by rewrite list_lookup_insert_ne.
  - destruct (decide (j < length elems)) as [Hj|Hj].
    + by rewrite lookup_app_l.
    + rewrite lookup_app_r by lia.
      rewrite (lookup_ge_None_2 elems j) by lia.
      destruct (decide (j - length elems < i - length elems)) as [Hlt|Hge].
      * rewrite lookup_app_l by (by rewrite length_replicate).
        by rewrite lookup_replicate_2.
      * rewrite lookup_app_r by (rewrite length_replicate; lia).
        rewrite length_replicate.
        destruct (j - length elems - (i - length elems)) as [|n] eqn:E;
          [lia | done].
Qed.

(** A key that is an index is the decimal spelling of that index. *)
Lemma string_index_Some k i : string_index k = Some i -> k = pretty (N.of_nat i).
Proof.
  unfold string_index. destruct (digits_value _ _) as [n|]; [|done].
  destruct (String.eqb (pretty n) k) eqn:E; [|done].
  intros [= <-]. apply String.eqb_eq in E. by rewrite N2Nat.id.
Qed.

Lemma array_index_Some k i : array_index k = Some i -> k = pretty (N.of_nat i).
Proof.
  unfold array_index. destruct (string_index k) as [j|] eqn:E; [|done].
  destruct (_ <? _)%N; [|done]. intros [= <-]. by apply string_index_Some.
Qed.

Lemma pretty_N_char_digit d :
  (d < 10)%N ->
  is_digit (pretty_N_char d) = true
  /\ (Ascii.N_of_ascii (pretty_N_char d) - 48)%N = d.
Proof.
  intros Hd.
  assert (d = 0 \/ d = 1 \/ d = 2 \/ d = 3 \/ d = 4 \/ d = 5 \/ d = 6
          \/ d = 7 \/ d = 8 \/ d = 9)%N as Hcases by lia.
  repeat (destruct Hcases as [->|Hcases]; [by vm_compute|]).
  subst d. by vm_compute.
Qed.

Lemma digits_value_pretty_go x s :
  exists m, forall acc,
    digits_value (pretty_N_go x s) acc = digits_value s (acc * m + x)%N.
Proof.
  revert s. induction (N.lt_wf_0 x) as [x _ IH]; intros s.
  destruct (decide (x = 0)%N) as [->|Hx].
  - exists 1%N. intros acc. rewrite pretty_N_go_0. f_equal. lia.
  - rewrite pretty_N_go_step by lia.
    destruct (IH (x `div` 10)%N) with (s := String (pretty_N_char (x `mod` 10)) s)
      as [m Hm]; [apply N.div_lt; lia|].
    exists (10 * m)%N. intros acc. rewrite Hm.
    destruct (pretty_N_char_digit (x `mod` 10)) as [Hd Hv];
      [by apply N.mod_lt|].
    cbn [digits_value]. rewrite Hd, Hv. f_equal.
    pose proof (N.div_mod x 10). lia.
Qed.

Lemma digits_value_pretty (n : N) : digits_value (pretty n) 0 = Some n.
Proof.
  unfold pretty, pretty_N. case_decide as Hn; [by subst|].
  destruct (digits_value_pretty_go n "") as [m Hm]. rewrite Hm. simpl.
  f_equal; lia.
Qed.

(** The decimal spelling of an integer is an index. *)
Lemma string_index_pretty (i : nat) : string_index (pretty i) = Some i.
Proof.
  unfold string_index, pretty at 1, pretty_nat.
  rewrite digits_value_pretty. unfold pretty at 2, pretty_nat.
  by rewrite String.eqb_refl, Nat2N.id.
Qed.

Lemma array_index_pretty (i : nat) :
  (N.of_nat i < 4294967295)%N -> array_index (pretty i) = Some i.
Proof.
  intros Hi. unfold array_index. rewrite string_index_pretty.
  by rewrite (proj2 (N.ltb_lt _ _) Hi).
Qed.

(** Reading the member that was just assigned. *)
Lemma own_get_put_eq c k v : own_get (put c k v) k = Some v.
Proof.
  destruct c as [elems named|ps]; simpl.
  - destruct (array_index k) as [i|] eqn:E; simpl; rewrite E.
    + apply elem_assign_eq.
    + apply lookup_assign_eq.
  - apply lookup_assign_eq.
Qed.

(** Reading a member under another key. *)
Lemma own_get_put_ne c k k' v :
  k <> k' -> own_get (put c k v) k' = own_get c k'.
Proof.
  intros Hne. destruct c as [elems named|ps]; simpl.
  - destruct (array_index k) as [i|] eqn:E; simpl;
      destruct (array_index k') as [j|] eqn:E'; try done.
    + apply elem_assign_ne. intros ->.
      apply array_index_Some in E, E'. congruence.
    + by apply lookup_assign_ne.
  - by apply lookup_assign_ne.
Qed.

(** An ordinary assignment returns, with the member in place. *)
Lemma own_set_ordinary (vw : V -> value_view) c k v :
  ordinary c k = true -> own_set vw c k v = Ok (put c k v).
Proof.
  destruct c as [elems named|ps]; simpl.
  - destruct (array_index k) as [i|] eqn:E; [done|].
    rewrite bool_decide_eq_false_2 by (by intros [? ?]). simpl.
    destruct (String.eqb k "length"); [done|]. simpl.
    destruct (String.eqb k "__proto__"); simpl; [|done].
    intros Hown. by rewrite Hown.
  - destruct (String.eqb k "__proto__"); simpl; [|done].
    intros Hown. by rewrite Hown.
Qed.

Lemma plain_ordinary c k : plain_key k = true -> ordinary c k = true.
Proof.
  unfold plain_key. intros [Hl Hp]%andb_true_iff.
  destruct c as [elems named|ps]; simpl; rewrite ?Hl, Hp; simpl; [|done].
  apply orb_true_r.
Qed.

Lemma own_set_plain (vw : V -> value_view) c k v :
  plain_key k = true -> own_set vw c k v = Ok (put c k v).
Proof. intros Hk. by apply own_set_ordinary, plain_ordinary. Qed.

(** After an assignment the member is an own one. *)
Lemma ordinary_put c k v k' : ordinary c k' = true -> ordinary (put c k v) k' = true.
Proof.
  destruct c as [elems named|ps]; simpl.
  - destruct (array_index k) as [i|] eqn:E; simpl; [done|].
    intros [Hi|[Hl Hp]%andb_true_iff]%orb_true_iff; rewrite ?Hi; [done|].
    rewrite Hl. apply orb_true_iff. right. simpl.
    apply orb_true_iff in Hp as [Hp|Hp]; rewrite ?Hp; [done|].
    apply orb_true_iff. right. apply bool_decide_eq_true.
    apply bool_decide_eq_true in Hp.
    destruct (decide (k = k')) as [->|Hne].
    + by rewrite lookup_assign_eq.
    + by rewrite lookup_assign_ne.
  - intros [Hp|Hp]%orb_true_iff; rewrite ?Hp; [done|].
    apply orb_true_iff. right. apply bool_decide_eq_true.
    apply bool_decide_eq_true in Hp.
    destruct (decide (k = k')) as [->|Hne].
    + by rewrite lookup_assign_eq.
    + by rewrite lookup_assign_ne.
Qed.

End Members.

(** ** Path equality *)

Lemma seg_eqb_eq x y : seg_eqb x y = true <-> x = y.
Proof.
  destruct x as [m|s], y as [n|t]; simpl; try (split; [done|discriminate]).
  - rewrite N.eqb_eq. split; congruence.
  - rewrite String.eqb_eq. split; congruence.
Qed.

Lemma every_eq_spec (a b : JSONPath) i :
  every_eq i a b = true <-> forall j x, a !! j = Some x -> b !! (i + j) = Some x.
Proof.
  revert i. induction a as [|v a IH]; intros i; simpl.
  - split; [intros _ j x Hj; destruct j; discriminate | done].
  - split.
    + destruct (b !! i) as [w|] eqn:Hw; [|done].
      intros [Hv Ha]%andb_true_iff. apply seg_eqb_eq in Hv as ->.
      intros [|j] x Hj; simpl in Hj.
      * injection Hj as <-. by rewrite Nat.add_0_r.
      * rewrite Nat.add_succ_r. by apply (proj1 (IH (S i)) Ha).
    + intros Hall. specialize (Hall 0 v eq_refl) as Hw.
      rewrite Nat.add_0_r in Hw. rewrite Hw.
      apply andb_true_iff. split; [by apply seg_eqb_eq|].
      apply IH. intros j x Hj. specialize (Hall (S j) x Hj).
      by rewrite Nat.add_succ_r in Hall.
Qed.

Lemma pathEquals_eq (a b : option JSONPath) : pathEquals a b = true <-> a = b.
Proof.
  destruct a as [a|], b as [b|]; simpl; [|by split..].
  destruct (Nat.eqb (length a) (length b)) eqn:Hlen; simpl.
  - apply Nat.eqb_eq in Hlen. rewrite every_eq_spec. split.
    + intros Hall. f_equal. apply list_eq. intros i.
      destruct (a !! i) as [x|] eqn:Hx.
      * symmetry. exact (Hall i x Hx).
      * apply lookup_ge_None in Hx. symmetry. apply lookup_ge_None. lia.
    + intros [= ->] j x Hj. done.
  - apply Nat.eqb_neq in Hlen. split; [done|]. intros [= ->]. done.
Qed.

(** C8 (path equality): [pathEquals] is reflexive, symmetric and
    transitive; two paths are equal exactly when they have the same length
    and the same segment at every position; a numeric segment and the
    string that spells it are different ([[0]] against [["0"]]), and so are
    paths of different lengths ([["a"]] against [["a", 0]]). *)
Theorem pathEquals_equivalence :
  (forall a, pathEquals a a = true)
  /\ (forall a b, pathEquals a b = true -> pathEquals b a = true)
  /\ (forall a b c,
        pathEquals a b = true -> pathEquals b c = true -> pathEquals a c = true)
  /\ (forall a b : JSONPath,
        pathEquals (Some a) (Some b) = true
        <-> length a = length b /\ forall i, a !! i = b !! i)
  /\ pathEquals (Some [SNum 0]) (Some [SStr "0"]) = false
  /\ pathEquals (Some [SStr "a"]) (Some [SStr "a"; SNum 0]) = false.
Proof.
  split; [|split; [|split; [|split; [|split]]]].
  - intros a. by apply pathEquals_eq.
  - intros a b Hab. apply pathEquals_eq. apply pathEquals_eq in Hab. done.
  - intros a b c Hab Hbc. apply pathEquals_eq.
    apply pathEquals_eq in Hab, Hbc. congruence.
  - intros a b. rewrite pathEquals_eq. split.
    + by intros [= ->].
    + intros [_ Hall]. f_equal. by apply list_eq.
  - reflexivity.
  - reflexivity.
Qed.

Lemma pathEquals_equivalence_witness :
  pathEquals (Some [SStr "user"; SNum 1]) (Some [SStr "user"; SNum 1]) = true
  /\ pathEquals (Some [SStr "user"; SNum 1]) (Some [SStr "user"; SNum 1]) = true.
Proof.
  split.
  - apply (proj1 pathEquals_equivalence).
  - apply (proj1 (proj2 pathEquals_equivalence)
             (Some [SStr "user"; SNum 1]) (Some [SStr "user"; SNum 1])).
    reflexivity.
Defined.

(** ** The display of a path *)

Lemma string_app_cons a (s t : string) : String a s +:+ t = String a (s +:+ t).
Proof. reflexivity. Qed.

Lemma string_app_assoc (s t u : string) : (s +:+ t) +:+ u = s +:+ (t +:+ u).
Proof.
  induction s as [|a s IH]; [done|]. by rewrite !string_app_cons, IH.
Qed.

Lemma string_length_app (s t : string) :
  String.length (s +:+ t) = String.length s + String.length t.
Proof.
  induction s as [|a s IH]; [done|]. rewrite string_app_cons.
  cbn [String.length]. by rewrite IH.
Qed.

Lemma string_app_inv_r (s t u : string) : s +:+ u = t +:+ u -> s = t.
Proof.
  revert t. induction s as [|a s IH]; intros [|b t] Heq.
  - done.
  - apply (f_equal String.length) in Heq.
    rewrite !string_length_app in Heq. cbn [String.length] in Heq. lia.
  - apply (f_equal String.length) in Heq.
    rewrite !string_length_app in Heq. cbn [String.length] in Heq. lia.
  - rewrite !string_app_cons in Heq. injection Heq as -> Heq.
    f_equal. by apply IH.
Qed.

Lemma join_snoc sep parts x :
  parts <> [] -> join sep (parts ++ [x]) = join sep parts +:+ sep +:+ x.
Proof.
  induction parts as [|y parts IH]; intros Hne; [done|].
  destruct parts as [|z parts]; [done|].
  change (join sep ((y :: z :: parts) ++ [x]))
    with (y +:+ sep +:+ join sep ((z :: parts) ++ [x])).
  rewrite IH by done.
  change (join sep (y :: z :: parts)) with (y +:+ sep +:+ join sep (z :: parts)).
  by rewrite !string_app_assoc.
Qed.

Lemma show_path_snoc p seg :
  jsonPathToString (Some (p ++ [seg]))
  = jsonPathToString (Some p) +:+ "[" +:+ show_segment seg +:+ "]".
Proof.
  destruct p as [|s p]; [done|].
  change (jsonPathToString (Some ((s :: p) ++ [seg])))
    with ("$[" +:+ join "][" (map show_segment ((s :: p) ++ [seg])) +:+ "]").
  change (jsonPathToString (Some (s :: p)))
    with ("$[" +:+ join "][" (map show_segment (s :: p)) +:+ "]").
  rewrite map_app. cbn [map]. rewrite join_snoc by done.
  rewrite !string_app_assoc. done.
Qed.

(** X17: one more segment adds its bracket to the display: a number bare,
    a string between double quotes; the display of the root is ["$"]. *)
Theorem jsonPathToString_snoc p seg :
  jsonPathToString (Some (p ++ [seg]))
  = jsonPathToString (Some p) +:+ "[" +:+ show_segment seg +:+ "]".
Proof. apply show_path_snoc. Qed.

Lemma pretty_not_quoted (n : N) s : pretty n <> Reference.dquote +:+ s.
Proof.
  intros Heq. pose proof (digits_value_pretty n) as Hd. rewrite Heq in Hd.
  done.
Qed.

Lemma show_segment_inj seg1 seg2 : show_segment seg1 = show_segment seg2 -> seg1 = seg2.
Proof.
  destruct seg1 as [m|s], seg2 as [n|t]; cbn [show_segment]; intros Heq.
  - f_equal. by apply (inj pretty).
  - by apply pretty_not_quoted in Heq.
  - symmetry in Heq. by apply pretty_not_quoted in Heq.
  - f_equal. apply (inj (String.app Reference.dquote)) in Heq.
    by apply string_app_inv_r in Heq.
Qed.

(** X18: only the root is displayed as ["$"], and two paths that differ in
    their last segment only (two children of one node) are displayed
    differently. *)
Theorem jsonPathToString_children :
  (forall path, jsonPathToString path = "$" <-> path = None \/ path = Some [])
  /\ (forall p seg1 seg2,
        jsonPathToString (Some (p ++ [seg1])) = jsonPathToString (Some (p ++ [seg2]))
        -> seg1 = seg2).
Proof.
  split.
  - intros [[|s p]|]; split; try tauto; try (intros [?|?]; done).
    intros Heq. exfalso.
    change (jsonPathToString (Some (s :: p)))
      with ("$[" +:+ join "][" (map show_segment (s :: p)) +:+ "]") in Heq.
    simpl in Heq. done.
  - intros p seg1 seg2 Heq. rewrite !show_path_snoc in Heq.
    apply (inj (String.app _)) in Heq.
    apply (inj (String.app "[")) in Heq.
    apply string_app_inv_r in Heq. by apply show_segment_inj.
Qed.

Lemma jsonPathToString_children_witness :
  jsonPathToString (Some ([SStr "list"] ++ [SNum 0]))
  <> jsonPathToString (Some ([SStr "list"] ++ [SStr "0"])).
Proof.
  intros Heq. by apply (proj2 jsonPathToString_children) in Heq.
Defined.

(** ** Reading *)

Section Reads.
Context `{Realm}.

Lemma get_loop_nullish x q :
  is_nullish x = true -> q <> [] -> get_loop x q = Ok (VPrim Undefined).
Proof. intros Hx Hq. destruct q as [|seg q]; [done|]. simpl. by rewrite Hx. Qed.

Lemma get_loop_from_undefined q :
  get_loop (VPrim Undefined) q = Ok (VPrim Undefined).
Proof. by destruct q. Qed.

Lemma getValueAtPath_loop root p : getValueAtPath root (Some p) = get_loop root p.
Proof. by destruct p. Qed.

Lemma get_prop_container c k : get_prop (VObject c) k = Ok (member c k).
Proof.
  destruct c as [elems named|ps]; simpl; [|done].
  by destruct (String.eqb k "length").
Qed.

Lemma get_loop_container c seg q :
  get_loop (VObject c) (seg :: q) = get_loop (member c (to_key seg)) q.
Proof. cbn [get_loop is_nullish]. by rewrite get_prop_container. Qed.

Lemma get_loop_app x p q :
  get_loop x (p ++ q) = y ← get_loop x p; get_loop y q.
Proof.
  revert x. induction p as [|seg p IH]; intros x; [done|].
  rewrite <- app_comm_cons. cbn [get_loop].
  destruct (is_nullish x) eqn:Hx.
  - simpl. by rewrite get_loop_from_undefined.
  - destruct (get_prop x (to_key seg)) as [y| |]; simpl; [apply IH|done..].
Qed.

(** X1: reading along a concatenated path is reading along its first part
    and then, from the value found, along the second; when the first
    read throws, so does the whole. *)
Theorem getValueAtPath_app root p q :
  getValueAtPath root (Some (p ++ q))
  = x ← getValueAtPath root (Some p); getValueAtPath x (Some q).
Proof.
  rewrite !getValueAtPath_loop, get_loop_app.
  destruct (get_loop root p); simpl; [by destruct q|done..].
Qed.

(** X2: once the value under a path is [null] or [undefined], every longer
    path reads [undefined]: the read returns and does not throw. *)
Theorem getValueAtPath_below_null root p q x :
  getValueAtPath root (Some p) = Ok x -> is_nullish x = true -> q <> [] ->
  getValueAtPath root (Some (p ++ q)) = Ok (VPrim Undefined).
Proof.
  intros Hp Hx Hq. rewrite getValueAtPath_loop in Hp.
  rewrite getValueAtPath_loop, get_loop_app, Hp. simpl.
  by apply get_loop_nullish.
Qed.

(** X3: the value read depends on the keys that the segments spell, not on
    their kinds: [[0]] and [["0"]], which [pathEquals] tells apart, read
    the same value. *)
Theorem getValueAtPath_keys root p q :
  map to_key p = map to_key q ->
  getValueAtPath root (Some p) = getValueAtPath root (Some q).
Proof.
  rewrite !getValueAtPath_loop. revert root q.
  induction p as [|seg p IH]; intros root [|seg' q] Hkeys; try done.
  injection Hkeys as Hseg Hrest. cbn [get_loop]. rewrite Hseg.
  destruct (is_nullish root); [done|].
  destruct (get_prop root (to_key seg')); simpl; [by apply IH|done..].
Qed.

(** X4: a numeric segment below 2^32 - 1 reads, from an array, the element
    at that index: [undefined] for a hole and for an index at or past the
    length. *)
Theorem getValueAtPath_array_index elems named (n : N) :
  (n < 4294967295)%N ->
  getValueAtPath (VObject (Arr elems named)) (Some [SNum n])
  = Ok (default (VPrim Undefined) (mjoin (elems !! N.to_nat n))).
Proof.
  intros Hn.
  assert (array_index (to_key (SNum n)) = Some (N.to_nat n)) as Hidx.
  { pose proof (array_index_pretty (N.to_nat n)) as Hp.
    unfold pretty at 1, pretty_nat in Hp. rewrite N2Nat.id in Hp. by apply Hp. }
  assert (is_Some (string_index (to_key (SNum n)))) as Hsi.
  { unfold array_index in Hidx. destruct (string_index _); [done|discriminate]. }
  assert (String.eqb (to_key (SNum n)) "length" = false) as Hlen.
  { apply String.eqb_neq. intros Heq. rewrite Heq in Hidx. by vm_compute in Hidx. }
  cbn [getValueAtPath get_loop is_nullish get_prop]. rewrite Hlen.
  cbn [own_get mbind outcome_bind]. rewrite Hidx. unfold inherited.
  rewrite bool_decide_eq_true_2 by done. done.
Qed.

End Reads.

Lemma getValueAtPath_below_null_witness :
  getValueAtPath (H := Reference.realm) (VObj [("a", VPrim Null)])
    (Some ([SStr "a"] ++ [SStr "b"; SNum 0]))
  = Ok (VPrim Undefined).
Proof.
  apply (getValueAtPath_below_null _ _ _ (VPrim Null));
    [reflexivity | reflexivity | discriminate].
Defined.

Lemma getValueAtPath_keys_witness :
  getValueAtPath (H := Reference.realm) list_doc (Some [SStr "list"; SNum 1])
  = getValueAtPath (H := Reference.realm) list_doc (Some [SStr "list"; SStr "1"])
  /\ pathEquals (Some [SStr "list"; SNum 1]) (Some [SStr "list"; SStr "1"]) = false.
Proof. split; [by apply getValueAtPath_keys | reflexivity]. Defined.

Lemma getValueAtPath_array_index_witness :
  getValueAtPath (H := Reference.realm) (VArr [Some (VPrim (Num 10)); None])
    (Some [SNum 0]) = Ok (VPrim (Num 10))
  /\ getValueAtPath (H := Reference.realm) (VArr [Some (VPrim (Num 10)); None])
       (Some [SNum 1]) = Ok (VPrim Undefined)
  /\ getValueAtPath (H := Reference.realm) (VArr [Some (VPrim (Num 10)); None])
       (Some [SNum 7]) = Ok (VPrim Undefined).
Proof.
  split; [|split].
  - by rewrite getValueAtPath_array_index.
  - by rewrite getValueAtPath_array_index.
  - by rewrite getValueAtPath_array_index.
Defined.

(** ** Writing *)

Section MemberUpdates.
Context {V : Type}.
Implicit Types (ps : list (string * V)) (elems : list (option V)).
Implicit Types (c : container V) (k : string).

Lemma update_prop_same k (x : V) ps :
  lookup_prop k ps = Some x -> update_prop k x ps = ps.
Proof.
  induction ps as [|[k' x'] ps IH]; simpl; [done|].
  destruct (String.eqb k k') eqn:E.
  - apply String.eqb_eq in E as ->. by intros [= ->].
  - intros Hk. by rewrite IH.
Qed.

Lemma assign_prop_same k (x : V) ps :
  lookup_prop k ps = Some x -> assign_prop k x ps = ps.
Proof. intros Hk. unfold assign_prop. rewrite Hk. by apply update_prop_same. Qed.

Lemma update_prop_twice k (x y : V) ps :
  update_prop k y (update_prop k x ps) = update_prop k y ps.
Proof.
  induction ps as [|[k' x'] ps IH]; simpl; [done|].
  destruct (String.eqb k k') eqn:E; simpl.
  - by rewrite String.eqb_refl.
  - by rewrite E, IH.
Qed.

Lemma update_add_prop k (x y : V) ps :
  lookup_prop k ps = None -> update_prop k y (add_prop k x ps) = add_prop k y ps.
Proof.
  induction ps as [|[k' x'] ps IH]; simpl.
  - by rewrite String.eqb_refl.
  - destruct (String.eqb k k') eqn:E; [done|]. intros Hk.
    destruct (goes_before k k'); simpl.
    + by rewrite String.eqb_refl.
    + by rewrite E, IH.
Qed.

Lemma assign_prop_twice k (x y : V) ps :
  assign_prop k y (assign_prop k x ps) = assign_prop k y ps.
Proof.
  unfold assign_prop at 1. rewrite lookup_assign_eq.
  unfold assign_prop. destruct (lookup_prop k ps) eqn:E.
  - apply update_prop_twice.
  - by apply update_add_prop.
Qed.

Lemma assign_elem_same i (x : V) elems :
  mjoin (elems !! i) = Some x -> assign_elem i x elems = elems.
Proof.
  intros Hi. destruct (elems !! i) as [o|] eqn:Ho; [|done]. simpl in Hi. subst o.
  unfold assign_elem. rewrite decide_True by (by apply lookup_lt_Some in Ho).
  by apply list_insert_id.
Qed.

Lemma assign_elem_twice i (x y : V) elems :
  assign_elem i y (assign_elem i x elems) = assign_elem i y elems.
Proof.
  unfold assign_elem at 2. case_decide as Hi.
  - unfold assign_elem. rewrite length_insert.
    rewrite !decide_True by done. apply list_insert_insert_eq.
  - unfold assign_elem. rewrite !length_app, length_replicate. simpl.
    rewrite decide_True by lia. rewrite (decide_False _ _ Hi).
    rewrite insert_app_r_alt by lia.
    rewrite insert_app_r_alt by (rewrite length_replicate; lia).
    rewrite length_replicate.
    by replace (i - length elems - (i - length elems)) with 0 by lia.
Qed.

Lemma put_same c k x : own_get c k = Some x -> put c k x = c.
Proof.
  destruct c as [elems named|ps]; simpl.
  - destruct (array_index k); intros Hx.
    + by rewrite assign_elem_same.
    + by rewrite assign_prop_same.
  - intros Hx. by rewrite assign_prop_same.
Qed.

Lemma put_twice c k x y : put (put c k x) k y = put c k y.
Proof.
  destruct c as [elems named|ps]; simpl.
  - destruct (array_index k) eqn:E; simpl; rewrite E.
    + by rewrite assign_elem_twice.
    + by rewrite assign_prop_twice.
  - by rewrite assign_prop_twice.
Qed.

End MemberUpdates.

Lemma array_index_not_length k i : array_index k = Some i -> String.eqb k "length" = false.
Proof.
  intros Hk. apply String.eqb_neq. intros ->. by vm_compute in Hk.
Qed.

Section Writes.
Context `{Realm}.

(** What is read under the key of an ordinary assignment is the value
    assigned. *)
Lemma member_put_eq c k v : ordinary c k = true -> member (put c k v) k = v.
Proof.
  destruct c as [elems named|ps]; cbn [ordinary put].
  - destruct (array_index k) as [i|] eqn:E.
    + intros _. cbn [member]. rewrite (array_index_not_length k i E).
      cbn [own_get]. rewrite E. by rewrite elem_assign_eq.
    + rewrite (bool_decide_eq_false_2 (is_Some None)) by (by intros [? ?]).
      cbn [orb]. intros [Hl _]%andb_true_iff. cbn [member].
      apply negb_true_iff in Hl. rewrite Hl. cbn [own_get]. rewrite E.
      by rewrite lookup_assign_eq.
  - intros _. cbn [member]. by rewrite lookup_assign_eq.
Qed.

(** The loop returns when each of its assignments is an ordinary one. *)
Lemma set_loop_written v rest : forall cursor seg,
  ordinary_write cursor seg rest = true ->
  set_loop cursor seg rest v = Ok (written cursor seg rest v).
Proof.
  induction rest as [|nextSeg rest IH]; intros cursor seg Hord.
  all: cbn [ordinary_write] in Hord; apply andb_true_iff in Hord as [Hk Hrest].
  - by apply own_set_ordinary.
  - cbn [set_loop written]. rewrite get_prop_container. cbn [mbind outcome_bind].
    rewrite own_set_ordinary by done. cbn [mbind outcome_bind].
    rewrite IH by done. cbn [mbind outcome_bind].
    rewrite own_set_ordinary by (by apply ordinary_put).
    by rewrite put_twice.
Qed.

Lemma plain_ordinary_write rest : forall cursor seg,
  plain_path (seg :: rest) = true -> ordinary_write cursor seg rest = true.
Proof.
  induction rest as [|nextSeg rest IH]; intros cursor seg Hp.
  all: cbn [plain_path forallb] in Hp; apply andb_true_iff in Hp as [Hk Hrest].
  all: cbn [ordinary_write]; rewrite plain_ordinary by done; cbn [andb].
  - done.
  - by apply IH.
Qed.

(** A write along a path of plain keys returns. *)
Lemma setValueAtPath_plain root seg rest v :
  plain_path (seg :: rest) = true ->
  setValueAtPath root (Some (seg :: rest)) v
  = Ok (VObject (written (shallow_copy root) seg rest v)).
Proof.
  intros Hp. cbn [setValueAtPath].
  by rewrite set_loop_written by (by apply plain_ordinary_write).
Qed.

(** ** Reading back a write *)

Lemma get_loop_written v rest : forall cursor seg,
  ordinary_write cursor seg rest = true ->
  get_loop (VObject (written cursor seg rest v)) (seg :: rest) = Ok v.
Proof.
  induction rest as [|nextSeg rest IH]; intros cursor seg Hord.
  all: cbn [ordinary_write] in Hord; apply andb_true_iff in Hord as [Hk Hrest].
  all: rewrite get_loop_container; cbn [written]; rewrite member_put_eq by done.
  - done.
  - by apply IH.
Qed.

Lemma get_after_set_plain root p v :
  plain_path p = true ->
  exists newRoot,
    setValueAtPath root (Some p) v = Ok newRoot
    /\ getValueAtPath newRoot (Some p) = Ok v.
Proof.
  intros Hp. destruct p as [|seg rest]; [by exists v|].
  eexists. split; [by apply setValueAtPath_plain|].
  apply get_loop_written. by apply plain_ordinary_write.
Qed.


(** C7 (root replace): with the empty path, [setValueAtPath] returns the
    value itself, whatever the root. *)
Theorem set_empty_path root v : setValueAtPath root (Some []) v = Ok v.
Proof. reflexivity. Qed.

(** C4: a root that is not a container is tolerated, but it always
    becomes a plain object.  With root [null] and path [[0]] the result is
    the object [{"0": 1}], not the array [[1]], although one level further
    down a missing container under a numeric segment is created as an
    array. *)
Theorem set_on_null_root_numeric :
  setValueAtPath (VPrim Null) (Some [SNum 0]) (VPrim (Num 1))
    = Ok (VObj [("0", VPrim (Num 1))])
  /\ (r ← setValueAtPath (VPrim Null) (Some [SNum 0]) (VPrim (Num 1)); Ok (isArray r))
     = Ok false
  /\ setValueAtPath (VObj [("a", VPrim Null)]) (Some [SStr "a"; SNum 0]) (VPrim (Num 1))
    = Ok (VObj [("a", VArr [Some (VPrim (Num 1))])]).
Proof.
  by vm_compute.
Qed.

End Writes.



Section WritesMore.
Context `{Realm}.

(** *** Writing into an array *)

(** X5: writing at a numeric index below 2^32 - 1 of an array gives an
    array again, with the value at that index; the array grows to reach an
    index at or past its length, and never shrinks. *)
Theorem setValueAtPath_array_index elems named (n : N) v :
  (n < 4294967295)%N ->
  exists elems',
    setValueAtPath (VObject (Arr elems named)) (Some [SNum n]) v = Ok (VArr elems')
    /\ length elems' = max (length elems) (S (N.to_nat n))
    /\ elems' !! N.to_nat n = Some (Some v)
    /\ (forall i, length elems <= i -> i < N.to_nat n -> elems' !! i = Some None).
Proof.
  intros Hn.
  assert (array_index (to_key (SNum n)) = Some (N.to_nat n)) as Hidx.
  { pose proof (array_index_pretty (N.to_nat n)) as Hp.
    unfold pretty at 1, pretty_nat in Hp. rewrite N2Nat.id in Hp. by apply Hp. }
  cbn [setValueAtPath set_loop shallow_copy own_set]. rewrite Hidx.
  eexists. split; [reflexivity|].
  set (i := N.to_nat n). set (copy := spread_array (VPrim Undefined) elems).
  assert (length copy = length elems) as Hlen
    by (subst copy; unfold spread_array; by rewrite length_map).
  unfold assign_elem. rewrite Hlen. case_decide as Hi.
  - split; [rewrite length_insert; lia|]. split.
    + apply list_lookup_insert_eq. lia.
    + intros j Hj1 Hj2. lia.
  - split; [rewrite !length_app, length_replicate; simpl; lia|]. split.
    + rewrite lookup_app_r by lia.
      rewrite lookup_app_r by (rewrite length_replicate; lia).
      rewrite length_replicate, Hlen.
      by replace (i - length elems - (i - length elems)) with 0 by lia.
    + intros j Hj1 Hj2. rewrite lookup_app_r by lia.
      rewrite lookup_app_l by (rewrite length_replicate; lia).
      apply lookup_replicate_2. lia.
Qed.

(** *** Writing back, and writing twice *)

Lemma shallow_copy_dense c : dense c = true -> shallow_copy (VObject c) = c.
Proof.
  destruct c as [elems named|ps]; simpl; [|done].
  intros [Hel Hnamed]%andb_true_iff. destruct named; [|done]. f_equal.
  unfold spread_array. induction elems as [|[x|] elems IH]; simpl in *; [done| |done].
  by rewrite IH.
Qed.

Lemma dense_put c k x y :
  dense c = true -> own_get c k = Some x -> dense (put c k y) = true.
Proof.
  destruct c as [elems named|ps]; simpl; [|done].
  intros [Hel Hnamed]%andb_true_iff. destruct named; [|done].
  destruct (array_index k) as [i|]; [|done]. intros Hx. simpl.
  rewrite andb_true_r.
  destruct (elems !! i) as [o|] eqn:Ho; [|done].
  unfold assign_elem. rewrite decide_True by (by apply lookup_lt_Some in Ho).
  rewrite forallb_forall in Hel. apply forallb_forall. intros o' Hin.
  apply list_elem_of_In, list_elem_of_lookup in Hin as [j Hj].
  destruct (decide (i = j)) as [<-|Hij].
  - rewrite list_lookup_insert_eq in Hj by (by apply lookup_lt_Some in Ho).
    by injection Hj as <-.
  - rewrite list_lookup_insert_ne in Hj by done.
    apply Hel. apply list_elem_of_In. by apply list_elem_of_lookup_2 with j.
Qed.

(** In a plain object or a dense array an own member is what a read
    finds, and assigning to it is an ordinary assignment. *)
Lemma member_own_dense c k x :
  dense c = true -> own_get c k = Some x ->
  member c k = x /\ ordinary c k = true.
Proof.
  destruct c as [elems named|ps]; simpl.
  - intros [_ Hnamed]%andb_true_iff. destruct named; [|done].
    destruct (array_index k) as [i|] eqn:E; [|done]. intros Hx.
    rewrite (array_index_not_length k i E), Hx. split; [done|].
    by rewrite bool_decide_eq_true_2.
  - intros _ Hx. rewrite Hx. split; [done|].
    rewrite (bool_decide_eq_true_2 (is_Some (Some x))) by done.
    apply orb_true_r.
Qed.

Lemma addresses_ordinary_write rest : forall c seg,
  addresses (VObject c) (seg :: rest) = true -> ordinary_write c seg rest = true.
Proof.
  induction rest as [|nextSeg rest IH]; intros c seg Haddr.
  all: cbn [addresses] in Haddr; apply andb_true_iff in Haddr as [Hdense Hmember].
  all: destruct (own_get c (to_key seg)) as [x|] eqn:Hx; [|done].
  all: destruct (member_own_dense c _ x Hdense Hx) as [Hm Hord].
  all: cbn [ordinary_write]; rewrite Hord; cbn [andb].
  { done. }
  rewrite Hm. destruct x as [p|c'|b]; [done| |done]. cbn [is_nullish].
  pose proof Hmember as Haddr'.
  cbn [addresses] in Hmember. apply andb_true_iff in Hmember as [Hdense' _].
  rewrite shallow_copy_dense by done. by apply IH.
Qed.

Lemma get_loop_addresses rest : forall c seg,
  addresses (VObject c) (seg :: rest) = true ->
  exists x, get_loop (VObject c) (seg :: rest) = Ok x
            /\ written c seg rest x = c.
Proof.
  induction rest as [|nextSeg rest IH]; intros c seg Haddr.
  all: cbn [addresses] in Haddr; apply andb_true_iff in Haddr as [Hdense Hmember].
  all: destruct (own_get c (to_key seg)) as [x|] eqn:Hx; [|done].
  all: destruct (member_own_dense c _ x Hdense Hx) as [Hm Hord].
  all: rewrite get_loop_container, Hm.
  - exists x. split; [done|]. cbn [written]. by apply put_same.
  - destruct x as [p|c'|b]; [done| |done].
    pose proof Hmember as Haddr'.
    cbn [addresses] in Hmember. apply andb_true_iff in Hmember as [Hdense' _].
    destruct (IH c' nextSeg Haddr') as (y & Hy & Hback).
    exists y. split; [done|]. cbn [written]. rewrite Hm. cbn [is_nullish].
    rewrite shallow_copy_dense by done. rewrite Hback. by apply put_same.
Qed.

(** Where a path addresses a member, the read returns, and writing the
    value read gives the root itself. *)
Lemma write_back root p :
  addresses root p = true ->
  exists x,
    getValueAtPath root (Some p) = Ok x
    /\ setValueAtPath root (Some p) x = Ok root.
Proof.
  intros Haddr. destruct p as [|seg rest]; [by exists root|].
  destruct root as [q|c|b]; [done| |done].
  destruct (get_loop_addresses rest c seg Haddr) as (x & Hx & Hback).
  exists x. rewrite getValueAtPath_loop. split; [done|].
  cbn [setValueAtPath].
  pose proof Haddr as Haddr'. cbn [addresses] in Haddr'.
  apply andb_true_iff in Haddr' as [Hdense _].
  rewrite shallow_copy_dense by done.
  rewrite set_loop_written by (by apply addresses_ordinary_write).
  cbn [mbind outcome_bind]. by rewrite Hback.
Qed.

(** X7: where the path leads to a member that is there, through plain
    objects and dense arrays, the read returns, and writing back the
    value just read gives the document itself. *)
Theorem setValueAtPath_getValueAtPath root p :
  addresses root p = true ->
  (x ← getValueAtPath root (Some p); setValueAtPath root (Some p) x) = Ok root.
Proof.
  intros Haddr. destruct (write_back root p Haddr) as (x & -> & Hback).
  exact Hback.
Qed.

Lemma written_twice v1 v2 rest : forall c seg,
  addresses (VObject c) (seg :: rest) = true ->
  addresses (VObject (written c seg rest v1)) (seg :: rest) = true
  /\ written (written c seg rest v1) seg rest v2 = written c seg rest v2.
Proof.
  induction rest as [|nextSeg rest IH]; intros c seg Haddr.
  all: pose proof Haddr as Haddr0.
  all: cbn [addresses] in Haddr; apply andb_true_iff in Haddr as [Hdense Hmember].
  all: destruct (own_get c (to_key seg)) as [x|] eqn:Hx; [|done].
  all: destruct (member_own_dense c _ x Hdense Hx) as [Hm Hord].
  - cbn [written addresses]. rewrite (dense_put c _ x) by done.
    rewrite own_get_put_eq. split; [done|]. apply put_twice.
  - destruct x as [p|c'|b]; [done| |done].
    pose proof Hmember as Haddr'.
    cbn [addresses] in Hmember. apply andb_true_iff in Hmember as [Hdense' _].
    destruct (IH c' nextSeg Haddr') as [Haddr1 Htwice].
    cbn [written]. rewrite Hm. cbn [is_nullish].
    rewrite (shallow_copy_dense c') by done.
    cbn [addresses]. rewrite (dense_put c _ (VObject c')) by done.
    rewrite own_get_put_eq. split; [done|].
    rewrite member_put_eq by done. cbn [is_nullish].
    assert (dense (written c' nextSeg rest v1) = true) as Hd1.
    { destruct rest; cbn [addresses] in Haddr1;
        by apply andb_true_iff in Haddr1 as [? _]. }
    rewrite (shallow_copy_dense _ Hd1), Htwice. apply put_twice.
Qed.

(** X8: under the same condition both writes return, and of two writes
    at the same path only the second one shows. *)
Theorem setValueAtPath_twice root p v1 v2 :
  addresses root p = true ->
  exists r,
    setValueAtPath root (Some p) v2 = Ok r
    /\ (r1 ← setValueAtPath root (Some p) v1; setValueAtPath r1 (Some p) v2) = Ok r.
Proof.
  intros Haddr. destruct p as [|seg rest]; [by exists v2|].
  destruct root as [q|c|b]; [done| |done].
  pose proof Haddr as Haddr'. cbn [addresses] in Haddr'.
  apply andb_true_iff in Haddr' as [Hdense _].
  destruct (written_twice v1 v2 rest c seg Haddr) as [Haddr1 Htwice].
  assert (dense (written c seg rest v1) = true) as Hd1.
  { destruct rest; cbn [addresses] in Haddr1;
      by apply andb_true_iff in Haddr1 as [? _]. }
  exists (VObject (written c seg rest v2)).
  cbn [setValueAtPath]. rewrite (shallow_copy_dense c) by done.
  rewrite !set_loop_written by (by apply addresses_ordinary_write).
  cbn [mbind outcome_bind]. split; [done|].
  rewrite (shallow_copy_dense _ Hd1).
  rewrite set_loop_written by (by apply addresses_ordinary_write).
  cbn [mbind outcome_bind]. by rewrite Htwice.
Qed.

End WritesMore.

Lemma setValueAtPath_array_index_witness :
  exists elems',
    setValueAtPath (H := Reference.realm) (VArr [Some (VPrim (Num 10))])
      (Some [SNum 3]) (VPrim (Num 9))
    = Ok (VArr elems')
    /\ length elems' = 4
    /\ elems' !! 3 = Some (Some (VPrim (Num 9)))
    /\ elems' !! 2 = Some None.
Proof.
  destruct (setValueAtPath_array_index (H := Reference.realm)
              [Some (VPrim (Num 10))] [] 3 (VPrim (Num 9)))
    as (elems' & Hset & Hlen & Hat & Hholes); [done|].
  exists elems'. split; [done|]. split; [done|]. split; [done|].
  apply Hholes; simpl; lia.
Defined.

Lemma setValueAtPath_getValueAtPath_witness :
  (x ← getValueAtPath (H := Reference.realm) list_doc (Some [SStr "list"; SNum 1]);
   setValueAtPath (H := Reference.realm) list_doc (Some [SStr "list"; SNum 1]) x)
  = Ok list_doc.
Proof. apply setValueAtPath_getValueAtPath. reflexivity. Defined.

Lemma setValueAtPath_twice_witness :
  exists r,
    setValueAtPath (H := Reference.realm) list_doc (Some [SStr "list"; SNum 1])
      (VPrim (Num 22)) = Ok r
    /\ (r1 ← setValueAtPath (H := Reference.realm) list_doc
                (Some [SStr "list"; SNum 1]) (VPrim (Num 21));
        setValueAtPath (H := Reference.realm) r1 (Some [SStr "list"; SNum 1])
          (VPrim (Num 22))) = Ok r.
Proof. apply setValueAtPath_twice. reflexivity. Defined.


(** ** Merging the members of two objects *)

Lemma lookup_prop_app {V} k (ps qs : list (string * V)) :
  lookup_prop k (ps ++ qs)
  = match lookup_prop k ps with
    | Some v => Some v
    | None => lookup_prop k qs
    end.
Proof.
  induction ps as [|[k' v'] ps IH]; simpl; [done|].
  by destruct (String.eqb k k').
Qed.

Lemma lookup_prop_Some_elem {V} k (v : V) ps :
  lookup_prop k ps = Some v -> (k, v) ∈ ps.
Proof.
  induction ps as [|[k' v'] ps IH]; simpl; [done|].
  destruct (String.eqb k k') eqn:E.
  - apply String.eqb_eq in E as ->. intros [= ->]. apply list_elem_of_here.
  - intros Hk. apply list_elem_of_further. by apply IH.
Qed.

Lemma lookup_prop_None {V} k (ps : list (string * V)) :
  lookup_prop k ps = None <-> k ∉ ps.*1.
Proof.
  induction ps as [|[k' v'] ps IH]; simpl.
  - split; [intros _; apply not_elem_of_nil | done].
  - rewrite not_elem_of_cons. destruct (String.eqb k k') eqn:E.
    + apply String.eqb_eq in E as ->. split; [done | by intros [? _]].
    + apply String.eqb_neq in E. rewrite IH. tauto.
Qed.

Lemma elem_lookup_prop_NoDup {V} k (v : V) ps :
  NoDup ps.*1 -> (k, v) ∈ ps -> lookup_prop k ps = Some v.
Proof.
  induction ps as [|[k' v'] ps IH]; simpl.
  - intros _ Hin. by apply elem_of_nil in Hin.
  - intros [Hk' Hnd]%NoDup_cons [Heq|Hin]%elem_of_cons.
    + injection Heq as <- <-. by rewrite String.eqb_refl.
    + destruct (String.eqb k k') eqn:E; [|by apply IH].
      apply String.eqb_eq in E as ->. exfalso. apply Hk'.
      apply list_elem_of_fmap. by exists (k', v).
Qed.

(** With distinct keys, the first and the last binding of a key agree. *)
Lemma lookup_prop_rev {V} k (ps : list (string * V)) :
  NoDup ps.*1 -> lookup_prop k (reverse ps) = lookup_prop k ps.
Proof.
  intros Hnd. destruct (lookup_prop k ps) as [v|] eqn:E.
  - apply elem_lookup_prop_NoDup.
    + by rewrite fmap_reverse, reverse_Permutation.
    + rewrite elem_of_reverse. by apply lookup_prop_Some_elem.
  - apply lookup_prop_None. apply lookup_prop_None in E.
    by rewrite fmap_reverse, elem_of_reverse.
Qed.

Lemma lookup_fold_assign {V} k (pps tps : list (string * V)) :
  lookup_prop k (fold_left (fun obj kv => assign_prop kv.1 kv.2 obj) pps tps)
  = match lookup_prop k (reverse pps) with
    | Some v => Some v
    | None => lookup_prop k tps
    end.
Proof.
  revert tps. induction pps as [|[k' v'] pps IH]; intros tps; simpl; [done|].
  rewrite IH, reverse_cons, lookup_prop_app.
  destruct (lookup_prop k (reverse pps)); [done|].
  simpl. destruct (String.eqb k k') eqn:E.
  - apply String.eqb_eq in E as ->. apply lookup_assign_eq.
  - apply String.eqb_neq in E. by apply lookup_assign_ne.
Qed.

Lemma merge_objects_overlay target parsed :
  NoDup (spread_object parsed).*1 ->
  exists merged,
    merge_objects target parsed = VObj merged
    /\ forall k,
         lookup_prop k merged = overlay (spread_object target) (spread_object parsed) k.
Proof.
  intros Hnd. eexists. split; [reflexivity|]. intros k.
  rewrite lookup_fold_assign. unfold overlay. by rewrite lookup_prop_rev.
Qed.

(** What [{...x}] copies from a plain object with distinct keys has
    distinct keys; the built-in objects have no member to copy. *)
Lemma spread_object_distinct parsed :
  is_plain_object parsed = true -> distinct_keys parsed ->
  NoDup (spread_object parsed).*1.
Proof.
  destruct parsed as [q|c|b]; [done| |].
  - by destruct c.
  - intros _ _. apply NoDup_nil_2.
Qed.

(** ** The save handler *)

Section Commit.
Context `{Realm} `{JsonCodec}.

(** The state that a commit leaves when its write returned [newRoot]. *)
Lemma handleSave_selected st parsed nodeData :
  JSON_parse (editedText st) = Some parsed ->
  selectedNode st = Some nodeData ->
  handleSave st
  = match written_root (parse_root (json st)) nodeData parsed with
    | Ok newRoot =>
        Ok (onClose
              (setIsEditing false
                 (setTimeout (path nodeData)
                    (setJson (JSON_stringify newRoot) (setError None st)))))
    | Throws => Ok (setError (Some invalid_json_message) st)
    | Unmodelled => Unmodelled
    end.
Proof.
  intros Hparsed Hnode. unfold handleSave, save_try. simpl.
  rewrite Hparsed, Hnode.
  by destruct (written_root (parse_root (json st)) nodeData parsed).
Qed.

(** The value that a commit writes at the node's path. *)
Lemma written_root_value rootObj nodeData parsed newRoot :
  distinct_keys parsed ->
  written_root rootObj nodeData parsed = Ok newRoot ->
  exists value,
    setValueAtPath rootObj (path nodeData) value = Ok newRoot
    /\ if single_keyless (default [] (text nodeData)) then value = parsed
       else exists target,
              getValueAtPath rootObj (path nodeData) = Ok target
              /\ if is_plain_object target && is_plain_object parsed
                 then exists merged,
                        value = VObj merged
                        /\ forall k,
                             lookup_prop k merged
                             = overlay (spread_object target) (spread_object parsed) k
                 else value = parsed.
Proof.
  intros Hkeys. unfold written_root.
  destruct (single_keyless _); [intros Hw; by exists parsed|].
  destruct (getValueAtPath rootObj (path nodeData)) as [target| |]; [|done..].
  cbn [mbind outcome_bind].
  destruct (is_plain_object parsed) eqn:Hp, (is_plain_object target) eqn:Ht;
    cbn [andb]; intros Hw.
  - destruct (merge_objects_overlay target parsed) as (merged & Hm & Hov).
    { by apply spread_object_distinct. }
    exists (VObj merged). rewrite <- Hm. split; [done|].
    exists target. split; [done|]. rewrite Ht. by exists merged.
  - exists parsed. split; [done|]. exists target. by rewrite Ht.
  - exists parsed. split; [done|]. exists target. by rewrite Ht.
  - exists parsed. split; [done|]. exists target. by rewrite Ht.
Qed.

(** A commit whose node has a path of plain keys returns from its write
    whenever it returns from its read. *)
Lemma written_root_plain rootObj nodeData parsed :
  plain_path (default [] (path nodeData)) = true ->
  (single_keyless (default [] (text nodeData)) = true
   \/ exists target, getValueAtPath rootObj (path nodeData) = Ok target) ->
  exists newRoot, written_root rootObj nodeData parsed = Ok newRoot.
Proof.
  intros Hp Hread. unfold written_root.
  assert (forall value, exists newRoot,
            setValueAtPath rootObj (path nodeData) value = Ok newRoot) as Hset.
  { intros value. destruct (path nodeData) as [p|]; [|by exists value].
    destruct (get_after_set_plain rootObj p value Hp) as (r & Hr & _). by exists r. }
  destruct (single_keyless _); [apply Hset|].
  destruct Hread as [?|[target ->]]; [done|]. cbn [mbind outcome_bind].
  destruct (is_plain_object parsed); [|apply Hset].
  destruct (is_plain_object target); apply Hset.
Qed.


(** C5 (malformed edit): when the edited text does not parse, [handleSave]
    ends normally (nothing is thrown to the caller) in a state whose error
    is ["Invalid JSON — please fix syntax before saving"]; the document
    text, the selected node and the pending re-selections are those it
    started with, and the dialog is neither closed nor taken out of edit
    mode. *)
Theorem handleSave_malformed_edit st :
  JSON_parse (editedText st) = None ->
  exists st',
    handleSave st = Ok st'
    /\ error st' = Some "Invalid JSON — please fix syntax before saving"
    /\ (exists rest, error st' = Some ("Invalid JSON" +:+ rest))
    /\ json st' = json st
    /\ selectedNode st' = selectedNode st
    /\ timers st' = timers st
    /\ isEditing st' = isEditing st
    /\ closed st' = closed st.
Proof.
  intros Hbad. unfold handleSave, save_try. simpl. rewrite Hbad.
  eexists. split; [reflexivity|]. simpl.
  split; [done|]. split; [|done].
  by exists " — please fix syntax before saving".
Qed.

End Commit.

Section Corrupt.
Context `{Realm} `{JsonCodec}.

(** On the empty object a path of plain keys whose first key names
    nothing inherited reads [undefined]. *)
Lemma get_loop_empty_object seg rest :
  inherits KObject (to_key seg) = false ->
  to_key seg <> "__proto__" ->
  get_loop (VObj []) (seg :: rest) = Ok (VPrim Undefined).
Proof.
  intros Hin Hproto. rewrite get_loop_container. cbn [member lookup_prop default].
  unfold inherited. rewrite Hin.
  apply String.eqb_neq in Hproto. rewrite Hproto.
  destruct (bool_decide _); apply get_loop_from_undefined.
Qed.


(** X10: when the edited text parses and no node is selected, the commit
    ends with the error ["No target node selected"] and changes nothing
    else: the document is not written, nothing is scheduled, the dialog
    stays open. *)
Theorem handleSave_no_node st parsed :
  JSON_parse (editedText st) = Some parsed ->
  selectedNode st = None ->
  handleSave st = Ok (setError (Some "No target node selected") st).
Proof.
  intros Hparsed Hnode. unfold handleSave, save_try. simpl.
  by rewrite Hparsed, Hnode.
Qed.

(** X11: [handleSave] does not throw, whatever is thrown inside its [try]
    block by the parse, the read or the write; and a commit is all or
    nothing: if it ends with an error nothing but the error has changed;
    if it ends without one, a node was selected, the edited text parsed,
    the write returned, the document holds the serialization of the root
    written, the re-selection of the node's path is scheduled last, the
    dialog is closed and out of edit mode, and the draft and the
    selection are as before. *)
Theorem handleSave_all_or_nothing st :
  handleSave st <> Throws
  /\ forall st',
       handleSave st = Ok st' ->
       match error st' with
       | Some msg => st' = setError (Some msg) st
       | None =>
           exists nodeData parsed newRoot,
             selectedNode st = Some nodeData
             /\ JSON_parse (editedText st) = Some parsed
             /\ written_root (parse_root (json st)) nodeData parsed = Ok newRoot
             /\ json st' = JSON_stringify newRoot
             /\ timers st' = timers st ++ [path nodeData]
             /\ closed st' = true /\ isEditing st' = false
             /\ editedText st' = editedText st
             /\ selectedNode st' = selectedNode st
       end.
Proof.
  unfold handleSave, save_try. simpl.
  destruct (JSON_parse (editedText st)) as [parsed|] eqn:Hedit.
  - destruct (selectedNode st) as [nodeData|] eqn:Hnode.
    + destruct (written_root (parse_root (json st)) nodeData parsed)
        as [newRoot| |] eqn:Hw; simpl.
      * split; [done|]. intros st' [= <-]. simpl.
        exists nodeData, parsed, newRoot. by rewrite Hnode.
      * split; [done|]. by intros st' [= <-].
      * split; [done|]. done.
    + split; [done|]. by intros st' [= <-].
  - split; [done|]. by intros st' [= <-].
Qed.

End Corrupt.


Lemma handleSave_malformed_edit_witness :
  exists st',
    handleSave (H := Reference.realm) (H0 := Reference.codec)
      (editing (Reference.stringify ann_doc) (Some ann_node) "{bad json")
    = Ok st'
    /\ error st' = Some "Invalid JSON — please fix syntax before saving"
    /\ json st' = Reference.stringify ann_doc
    /\ selectedNode st' = Some ann_node.
Proof.
  destruct (handleSave_malformed_edit (H := Reference.realm) (H0 := Reference.codec)
              (editing (Reference.stringify ann_doc) (Some ann_node) "{bad json"))
    as (st' & Hsave & Herr & _ & Hjson & Hnode & _); [by vm_compute|].
  by exists st'.
Defined.


Lemma handleSave_no_node_witness :
  handleSave (H := Reference.realm) (H0 := Reference.codec)
    (editing (Reference.stringify ann_doc) None "31")
  = Ok (setError (Some "No target node selected")
          (editing (Reference.stringify ann_doc) None "31")).
Proof.
  apply (handleSave_no_node _ (VPrim (Num 31))); [by vm_compute | reflexivity].
Defined.


(** A write that throws inside the [try] block: on the document
    [[1, 2, 3]], the node at [["length"]] and the edited text ["x"] (as
    JSON), setting the length of the copy to a text that is no number
    throws a [RangeError]; the commit shows the error of a malformed edit
    and writes nothing. *)
Lemma handleSave_write_throws :
  handleSave (H := Reference.realm) (H0 := Reference.codec)
    (editing (Reference.stringify
                (VArr [Some (VPrim (Num 1)); Some (VPrim (Num 2)); Some (VPrim (Num 3))]))
       (Some {| text := Some [bare_row (VPrim (Num 3)) TNumber];
                path := Some [SStr "length"] |})
       (Reference.stringify (VPrim (Str "x"))))
  = Ok (setError (Some "Invalid JSON — please fix syntax before saving")
          (editing (Reference.stringify
                      (VArr [Some (VPrim (Num 1)); Some (VPrim (Num 2));
                             Some (VPrim (Num 3))]))
             (Some {| text := Some [bare_row (VPrim (Num 3)) TNumber];
                      path := Some [SStr "length"] |})
             (Reference.stringify (VPrim (Str "x"))))).
Proof. by vm_compute. Qed.

(** ** The text of a node *)

Lemma add_row_skip obj row :
  is_scalar_row row && negb (no_key row) = false -> add_row obj row = Ok obj.
Proof.
  unfold add_row, no_key. destruct (is_scalar_row row); [|done].
  by destruct (key row) as [[|]|].
Qed.

(** The object under construction never has an own member [__proto__]:
    the assignment of that name goes to the setter. *)
Lemma assign_member_spec obj k v obj' :
  lookup_prop "__proto__" obj = None ->
  assign_member obj k v = Ok obj' ->
  lookup_prop "__proto__" obj' = None
  /\ forall k', lookup_prop k' obj'
                = if String.eqb k' k && negb (String.eqb k "__proto__")
                  then Some v else lookup_prop k' obj.
Proof.
  intros Hinv. unfold assign_member. cbn [own_set].
  destruct (String.eqb k "__proto__") eqn:Ek.
  - apply String.eqb_eq in Ek as ->. rewrite Hinv.
    rewrite (bool_decide_eq_false_2 (is_Some None)) by (by intros [? ?]).
    cbn [andb negb]. unfold proto_set.
    destruct (setter_ignores (view v)); [|done]. cbn [mbind outcome_bind].
    intros [= <-]. split; [done|]. intros k'. by rewrite andb_false_r.
  - cbn [andb mbind outcome_bind]. intros [= <-].
    apply String.eqb_neq in Ek. split.
    + by rewrite lookup_assign_ne.
    + intros k'. rewrite andb_true_r. destruct (String.eqb k' k) eqn:E.
      * apply String.eqb_eq in E as ->. apply lookup_assign_eq.
      * apply String.eqb_neq in E. by apply lookup_assign_ne.
Qed.

Lemma add_row_spec obj row obj' :
  lookup_prop "__proto__" obj = None ->
  add_row obj row = Ok obj' ->
  lookup_prop "__proto__" obj' = None
  /\ forall k, lookup_prop k obj'
               = if contributes k row && negb (String.eqb k "__proto__")
                 then Some (value row) else lookup_prop k obj.
Proof.
  intros Hinv. unfold add_row, contributes, no_key.
  destruct (is_scalar_row row); cbn [andb]; [|by intros [= <-]].
  destruct (key row) as [[|a k0]|] eqn:E; cbn [negb andb];
    [by intros [= <-] | | by intros [= <-]].
  intros Hobj'.
  destruct (assign_member_spec obj _ _ obj' Hinv Hobj') as [Hinv' Hlook].
  split; [done|]. intros k. rewrite Hlook.
  destruct (String.eqb k (String a k0)) eqn:Ek.
  - apply String.eqb_eq in Ek as ->. by rewrite bool_decide_eq_true_2.
  - apply String.eqb_neq in Ek. rewrite bool_decide_eq_false_2; [done|congruence].
Qed.

Lemma add_rows_spec rows : forall obj obj',
  lookup_prop "__proto__" obj = None ->
  add_rows obj rows = Ok obj' ->
  lookup_prop "__proto__" obj' = None
  /\ forall k, lookup_prop k obj'
               = match (if String.eqb k "__proto__" then None else row_value k rows) with
                 | Some v => Some v
                 | None => lookup_prop k obj
                 end.
Proof.
  induction rows as [|row rows IH]; intros obj obj' Hinv; cbn [add_rows].
  - intros [= <-]. split; [done|]. intros k. by destruct (String.eqb k "__proto__").
  - destruct (add_row obj row) as [obj1| |] eqn:Hrow; [|done..].
    cbn [mbind outcome_bind]. intros Hrows.
    destruct (add_row_spec obj row obj1 Hinv Hrow) as [Hinv1 Hlook1].
    destruct (IH obj1 obj' Hinv1 Hrows) as [Hinv' Hlook].
    split; [done|]. intros k. rewrite Hlook, Hlook1. cbn [row_value].
    destruct (String.eqb k "__proto__"); [by rewrite andb_false_r|].
    rewrite andb_true_r. destruct (row_value k rows); [done|].
    by destruct (contributes k row).
Qed.

(** The members of the object built from the rows: none under
    [__proto__], and under any other key the value of the last row that
    counts and has this key. *)
Lemma lookup_rows_object k rows obj :
  rows_object rows = Ok obj ->
  lookup_prop k obj = if String.eqb k "__proto__" then None else row_value k rows.
Proof.
  intros Hobj. destruct (add_rows_spec rows [] obj eq_refl Hobj) as [_ Hlook].
  rewrite Hlook. by destruct (if String.eqb k "__proto__" then _ else _).
Qed.

Lemma row_value_is_Some k rows :
  is_Some (row_value k rows)
  <-> exists row, row ∈ rows /\ key row = Some k /\ k <> EmptyString
                  /\ is_scalar_row row = true.
Proof.
  induction rows as [|row rows IH]; simpl.
  - split; [by intros [? ?] | intros (? & Hin & _); by apply elem_of_nil in Hin].
  - destruct (row_value k rows) as [v|].
    + split; [intros _ | by eexists].
      destruct (proj1 IH) as (r & Hin & Hr); [by eexists|].
      exists r. split; [by apply list_elem_of_further | done].
    + split.
      * destruct (contributes k row) eqn:E; [|by intros [? ?]]. intros _.
        unfold contributes, no_key in E.
        apply andb_true_iff in E as [[Hs Hk]%andb_true_iff Hd].
        apply bool_decide_eq_true in Hd. rewrite Hd in Hk.
        exists row. split; [apply list_elem_of_here|].
        split; [done|]. split; [|done]. by intros ->.
      * intros (r & [->|Hin]%elem_of_cons & Hk & Hne & Hs).
        -- unfold contributes, no_key. rewrite Hs, Hk. simpl.
           destruct k; [done|]. rewrite bool_decide_eq_true_2; by eauto.
        -- destruct (proj2 IH) as [? ?]; [by exists r | done].
Qed.

Lemma add_row_returns obj row :
  lookup_prop "__proto__" obj = None ->
  negb (contributes "__proto__" row) || setter_ignores (view (value row)) = true ->
  exists obj', add_row obj row = Ok obj'.
Proof.
  intros Hinv Hfree. unfold add_row, contributes, no_key in *.
  destruct (is_scalar_row row); cbn [andb] in *; [|by eexists].
  destruct (key row) as [[|a k0]|] eqn:E; cbn [negb andb] in *;
    [by eexists| |by eexists].
  unfold assign_member. cbn [own_set].
  destruct (String.eqb (String a k0) "__proto__") eqn:Ek; cbn [andb].
  - apply String.eqb_eq in Ek. rewrite Ek in *. rewrite Hinv.
    rewrite (bool_decide_eq_false_2 (is_Some None)) by (by intros [? ?]).
    rewrite bool_decide_eq_true_2 in Hfree by done. cbn [negb orb] in Hfree.
    unfold proto_set. rewrite Hfree. by eexists.
  - by eexists.
Qed.

Lemma add_rows_returns rows : forall obj,
  lookup_prop "__proto__" obj = None ->
  setter_free rows = true ->
  exists obj', add_rows obj rows = Ok obj'.
Proof.
  induction rows as [|row rows IH]; intros obj Hinv Hfree; [by eexists|].
  cbn [setter_free forallb] in Hfree. apply andb_true_iff in Hfree as [Hrow Hrows].
  destruct (add_row_returns obj row Hinv Hrow) as [obj1 Hobj1].
  cbn [add_rows]. rewrite Hobj1. cbn [mbind outcome_bind].
  apply IH; [|done]. by destruct (add_row_spec obj row obj1 Hinv Hobj1).
Qed.

(** The rows without key and the rows of containers can be left out. *)
Lemma add_rows_filter (P : NodeRow -> Prop) `{!forall row, Decision (P row)} rows :
  (forall row, ~ P row -> is_scalar_row row && negb (no_key row) = false) ->
  forall obj, add_rows obj (filter P rows) = add_rows obj rows.
Proof.
  intros Hskip. induction rows as [|row rows IH]; intros obj; [done|].
  rewrite filter_cons. destruct (decide (P row)) as [Hrow|Hrow].
  - cbn [add_rows]. destruct (add_row obj row); [apply IH|done..].
  - cbn [add_rows]. rewrite add_row_skip by (by apply Hskip).
    cbn [mbind outcome_bind]. apply IH.
Qed.

Section Normalizer.
Context `{Realm} `{JsonCodec}.

Lemma normalizeNodeData_object rows :
  rows <> [] -> single_keyless rows = false ->
  normalizeNodeData (Some rows)
  = obj ← rows_object rows; Ok (JSON_stringify (VObj obj)).
Proof.
  intros Hne Hsk. unfold normalizeNodeData.
  destruct rows as [|row rows]; [done|]. by rewrite Hsk.
Qed.

(** C10: outside the single keyless case, the output is the serialization
    of an object in which only rows with a non-empty key and a type other
    than array and object appear: it has a member under [k] exactly when
    some such row has the key [k] and [k] is not [__proto__], a name whose
    assignment makes no member; a row whose key is absent or empty
    changes nothing, whatever its type.  The loop over the rows returns
    when no row assigns [null] or an object to [__proto__]. *)
Theorem normalizeNodeData_keyless_rows rows :
  rows <> [] -> single_keyless rows = false ->
  (forall obj,
     rows_object rows = Ok obj ->
     normalizeNodeData (Some rows) = Ok (JSON_stringify (VObj obj))
     /\ (forall k, is_Some (lookup_prop k obj)
                   <-> k <> "__proto__"
                       /\ exists row, row ∈ rows /\ key row = Some k
                                      /\ k <> EmptyString
                                      /\ is_scalar_row row = true)
     /\ rows_object (filter (fun row => no_key row = false) rows) = Ok obj
     /\ rows_object
          (filter (fun row => no_key row = false /\ is_scalar_row row = true) rows)
        = Ok obj)
  /\ (setter_free rows = true -> exists obj, rows_object rows = Ok obj).
Proof.
  intros Hne Hsk. split.
  - intros obj Hobj. split.
    { rewrite normalizeNodeData_object by done. by rewrite Hobj. }
    split.
    { intros k. rewrite (lookup_rows_object k rows obj Hobj).
      destruct (String.eqb k "__proto__") eqn:Ek.
      - apply String.eqb_eq in Ek. split; [by intros [? ?] | by intros [? _]].
      - apply String.eqb_neq in Ek. rewrite row_value_is_Some. tauto. }
    unfold rows_object in *. split.
    + rewrite add_rows_filter; [done|].
      intros row Hrow. destruct (no_key row); [apply andb_false_r | done].
    + rewrite add_rows_filter; [done|].
      intros row Hrow. destruct (no_key row), (is_scalar_row row); try done.
      destruct Hrow. done.
  - intros Hfree. by apply add_rows_returns.
Qed.

End Normalizer.

Lemma normalizeNodeData_keyless_rows_witness :
  normalizeNodeData (H := Reference.realm) (H0 := Reference.codec)
    (Some [row "name" (VPrim (Str "Ann")) TString;
           bare_row (VPrim (Num 1)) TNumber;
           row "" (VPrim (Num 2)) TNumber;
           row "__proto__" (VPrim (Num 3)) TNumber;
           row "tags" (VArr []) TArray])
  = Ok (Reference.stringify (VObj [("name", VPrim (Str "Ann"))])).
Proof.
  destruct (normalizeNodeData_keyless_rows (H := Reference.realm) (H0 := Reference.codec)
              [row "name" (VPrim (Str "Ann")) TString;
               bare_row (VPrim (Num 1)) TNumber;
               row "" (VPrim (Num 2)) TNumber;
               row "__proto__" (VPrim (Num 3)) TNumber;
               row "tags" (VArr []) TArray])
    as [Hout _]; [done | reflexivity |].
  destruct (Hout [("name", VPrim (Str "Ann"))]) as (Htext & _); [by vm_compute|].
  exact Htext.
Defined.

(** ** Selecting the node again *)

Lemma reselect_cases nodes p st :
  (exists before n after,
     nodes = before ++ n :: after
     /\ path n = p
     /\ (forall m, m ∈ before -> path m <> p)
     /\ reselect nodes p st = setSelectedNode n st)
  \/ ((forall m, m ∈ nodes -> path m <> p) /\ reselect nodes p st = st).
Proof.
  unfold reselect. induction nodes as [|n nodes IH]; simpl.
  - right. split; [|done]. intros m Hm. by apply elem_of_nil in Hm.
  - destruct (pathEquals (path n) p) eqn:En.
    + left. exists [], n, nodes. split; [done|].
      split; [by apply pathEquals_eq|]. split; [|done].
      intros m Hm. by apply elem_of_nil in Hm.
    + assert (path n <> p) as Hn.
      { intros Heq. apply pathEquals_eq in Heq. congruence. }
      destruct IH as [(before & m & after & -> & Hm & Hbefore & Hsel)|[Hnone Hsame]].
      * left. exists (n :: before), m, after. split; [done|].
        split; [done|]. split; [|done].
        intros m' [->|Hm']%elem_of_cons; [done | by apply Hbefore].
      * right. split; [|done].
        intros m [->|Hm]%elem_of_cons; [done | by apply Hnone].
Qed.

(** X13: the scheduled callback selects the first node of the rebuilt list
    whose path is, segment by segment, the path it was given, and leaves
    the selection alone when the list has no such node. *)
Theorem reselect_first_match nodes p st :
  (exists before n after,
     nodes = before ++ n :: after
     /\ path n = p
     /\ (forall m, m ∈ before -> path m <> p)
     /\ reselect nodes p st = setSelectedNode n st)
  \/ ((forall m, m ∈ nodes -> path m <> p) /\ reselect nodes p st = st).
Proof. apply reselect_cases. Qed.


(** ** The keys of the objects that the editor builds *)

Section Keys.
Context {V : Type}.
Implicit Types (ps : list (string * V)) (k : string).

Lemma keys_update_prop k (x : V) ps : (update_prop k x ps).*1 = ps.*1.
Proof.
  induction ps as [|[k' x'] ps IH]; [done|]. cbn [update_prop].
  destruct (String.eqb k k') eqn:E.
  - apply String.eqb_eq in E as ->. done.
  - rewrite !fmap_cons. by rewrite IH.
Qed.

Lemma elem_of_keys_add_prop k k' (x : V) ps :
  k' ∈ (add_prop k x ps).*1 <-> k' = k \/ k' ∈ ps.*1.
Proof.
  induction ps as [|[k0 x0] ps IH]; cbn [add_prop].
  - rewrite !fmap_cons. cbn [fst fmap list_fmap]. by rewrite elem_of_cons.
  - destruct (goes_before k k0).
    + rewrite fmap_cons. cbn [fst]. by rewrite elem_of_cons.
    + rewrite !fmap_cons. cbn [fst]. rewrite !elem_of_cons, IH. tauto.
Qed.

Lemma elem_of_keys_assign_prop k k' (x : V) ps :
  k' ∈ (assign_prop k x ps).*1 <-> k' = k \/ k' ∈ ps.*1.
Proof.
  unfold assign_prop. destruct (lookup_prop k ps) as [y|] eqn:E.
  - rewrite keys_update_prop. split; [tauto|]. intros [->|?]; [|done].
    apply lookup_prop_Some_elem in E. apply list_elem_of_fmap. by exists (k, y).
  - apply elem_of_keys_add_prop.
Qed.

Lemma NoDup_keys_add_prop k (x : V) ps :
  k ∉ ps.*1 -> NoDup ps.*1 -> NoDup (add_prop k x ps).*1.
Proof.
  induction ps as [|[k0 x0] ps IH]; cbn [add_prop]; intros Hk Hnd.
  - apply NoDup_singleton.
  - rewrite fmap_cons in Hk, Hnd. cbn [fst] in *.
    apply not_elem_of_cons in Hk as [Hne Hk].
    apply NoDup_cons in Hnd as [Hk0 Hnd].
    destruct (goes_before k k0).
    + rewrite !fmap_cons. cbn [fst]. apply NoDup_cons. split.
      * by intros [?|?]%elem_of_cons.
      * by apply NoDup_cons.
    + rewrite fmap_cons. cbn [fst]. apply NoDup_cons. split.
      * rewrite elem_of_keys_add_prop. intros [?|?]; done.
      * by apply IH.
Qed.

Lemma NoDup_keys_assign_prop k (x : V) ps :
  NoDup ps.*1 -> NoDup (assign_prop k x ps).*1.
Proof.
  intros Hnd. unfold assign_prop. destruct (lookup_prop k ps) eqn:E.
  - by rewrite keys_update_prop.
  - apply NoDup_keys_add_prop; [|done]. by apply lookup_prop_None.
Qed.

(** A name is added after all the keys. *)
Lemma keys_add_name k (x : V) ps :
  is_name k = true -> (add_prop k x ps).*1 = ps.*1 ++ [k].
Proof.
  intros Hk. unfold is_name in Hk.
  assert (forall k0, goes_before k k0 = false) as Hgo.
  { intros k0. unfold goes_before. by destruct (array_index k). }
  induction ps as [|[k0 x0] ps IH]; cbn [add_prop]; [done|].
  rewrite Hgo, !fmap_cons. cbn [fst]. by rewrite IH.
Qed.

(** An index is added among the indices, and leaves the names as they
    stand. *)
Lemma names_add_index k (x : V) ps :
  is_name k = false ->
  filter (fun k' => is_name k' = true) (add_prop k x ps).*1
  = filter (fun k' => is_name k' = true) ps.*1.
Proof.
  intros Hk. induction ps as [|[k0 x0] ps IH]; cbn [add_prop].
  - rewrite fmap_cons. cbn [fst fmap list_fmap]. rewrite filter_cons.
    rewrite decide_False by (by rewrite Hk). done.
  - destruct (goes_before k k0).
    + rewrite fmap_cons. cbn [fst]. rewrite filter_cons.
      by rewrite decide_False by (by rewrite Hk).
    + rewrite !fmap_cons. cbn [fst]. rewrite !filter_cons, IH. done.
Qed.

Lemma goes_before_trans_false k k0 y :
  goes_before k k0 = true -> goes_before y k0 = false -> goes_before y k = false.
Proof.
  unfold goes_before. destruct (array_index k) as [i|]; [|done].
  destruct (array_index y) as [m|]; [|done].
  destruct (array_index k0) as [j|]; [|done].
  intros Hij%bool_decide_eq_true Hmj%bool_decide_eq_false.
  apply bool_decide_eq_false. lia.
Qed.

Lemma enumerated_add_prop k (x : V) ps :
  enumerated ps.*1 = true -> enumerated (add_prop k x ps).*1 = true.
Proof.
  induction ps as [|[k0 x0] ps IH]; cbn [add_prop]; [done|].
  rewrite fmap_cons. cbn [fst enumerated].
  intros [Hk0 Hps]%andb_true_iff.
  destruct (goes_before k k0) eqn:Hgo.
  - rewrite !fmap_cons. cbn [fst enumerated forallb].
    rewrite Hk0, Hps, !andb_true_r.
    apply andb_true_iff. split.
    + unfold goes_before in *. destruct (array_index k0) as [j|]; [|done].
      destruct (array_index k) as [i|]; [|done].
      apply bool_decide_eq_true in Hgo. apply negb_true_iff, bool_decide_eq_false. lia.
    + apply forallb_forall. intros y Hy.
      rewrite forallb_forall in Hk0. specialize (Hk0 y Hy).
      apply negb_true_iff in Hk0. apply negb_true_iff.
      by apply goes_before_trans_false with k0.
  - rewrite fmap_cons. cbn [fst enumerated]. rewrite IH by done.
    rewrite andb_true_r. apply forallb_forall. intros y Hy.
    apply list_elem_of_In, elem_of_keys_add_prop in Hy as [->|Hy].
    + by rewrite Hgo.
    + rewrite forallb_forall in Hk0. apply Hk0. by apply list_elem_of_In.
Qed.

Lemma enumerated_assign_prop k (x : V) ps :
  enumerated ps.*1 = true -> enumerated (assign_prop k x ps).*1 = true.
Proof.
  intros Hps. unfold assign_prop. destruct (lookup_prop k ps).
  - by rewrite keys_update_prop.
  - by apply enumerated_add_prop.
Qed.

(** The names after an assignment: a new name goes last. *)
Lemma names_assign_prop k (x : V) ps :
  filter (fun k' => is_name k' = true) (assign_prop k x ps).*1
  = let names := filter (fun k' => is_name k' = true) ps.*1 in
    if is_name k && negb (bool_decide (k ∈ ps.*1)) then names ++ [k] else names.
Proof.
  unfold assign_prop. destruct (lookup_prop k ps) as [y|] eqn:E.
  - rewrite keys_update_prop.
    rewrite bool_decide_eq_true_2; [by rewrite andb_false_r|].
    apply lookup_prop_Some_elem in E. apply list_elem_of_fmap. by exists (k, y).
  - apply lookup_prop_None in E. rewrite (bool_decide_eq_false_2 _ E).
    rewrite andb_true_r. destruct (is_name k) eqn:Hk.
    + rewrite keys_add_name by done. rewrite filter_app, filter_cons.
      by rewrite decide_True by done.
    + by apply names_add_index.
Qed.

End Keys.

Lemma NoDup_keys_after ks base : NoDup base -> NoDup (keys_after ks base).
Proof.
  revert base. induction ks as [|k ks IH]; intros base Hbase; [done|].
  unfold keys_after. cbn [fold_left]. apply IH. case_bool_decide as Hin; [done|].
  apply NoDup_app. split; [done|]. split; [|apply NoDup_singleton].
  intros x Hx ->%list_elem_of_singleton. done.
Qed.

Lemma filter_agree {A} (P Q : A -> Prop) `{!forall x, Decision (P x)}
    `{!forall x, Decision (Q x)} (l : list A) :
  (forall x, x ∈ l -> P x <-> Q x) -> filter P l = filter Q l.
Proof.
  induction l as [|x l IH]; intros Hl; [done|]. rewrite !filter_cons.
  rewrite IH by (intros y Hy; apply Hl; by apply list_elem_of_further).
  pose proof (Hl x (list_elem_of_here _ _)) as Hx.
  destruct (decide (P x)), (decide (Q x)); tauto.
Qed.

Lemma keys_after_filter ks : forall base,
  NoDup ks -> keys_after ks base = base ++ filter (fun k => k ∉ base) ks.
Proof.
  induction ks as [|k ks IH]; intros base Hks.
  - by rewrite app_nil_r.
  - apply NoDup_cons in Hks as [Hk Hks]. unfold keys_after. cbn [fold_left].
    fold (keys_after ks (if bool_decide (k ∈ base) then base else base ++ [k])).
    rewrite filter_cons. case_bool_decide as Hin.
    + rewrite decide_False by (intros Hn; by apply Hn). by apply IH.
    + rewrite decide_True by done. rewrite IH by done.
      rewrite <- app_assoc. cbn [app]. do 2 f_equal.
      apply filter_agree. intros x Hx.
      rewrite elem_of_app, list_elem_of_singleton.
      split; [tauto|]. intros Hnb [?| ->]; done.
Qed.

(** One assignment, on the keys in the order of their creation [K] and on
    the members [ps] in the order of their enumeration: the same keys,
    and the same names in the same order. *)
Lemma keys_after_step {V} k (x : V) K (ps : list (string * V)) :
  (forall k', k' ∈ K <-> k' ∈ ps.*1) ->
  filter (fun k' => is_name k' = true) K = filter (fun k' => is_name k' = true) ps.*1 ->
  let K1 := if bool_decide (k ∈ K) then K else K ++ [k] in
  (forall k', k' ∈ K1 <-> k' ∈ (assign_prop k x ps).*1)
  /\ filter (fun k' => is_name k' = true) K1
     = filter (fun k' => is_name k' = true) (assign_prop k x ps).*1.
Proof.
  intros Hsame Hnames K1. subst K1. split.
  - intros k'. rewrite elem_of_keys_assign_prop. case_bool_decide as Hin.
    + rewrite Hsame. split; [tauto|]. intros [->|?]; [by apply Hsame|done].
    + rewrite elem_of_app, list_elem_of_singleton, Hsame. tauto.
  - rewrite names_assign_prop. cbn zeta. rewrite <- Hnames.
    case_bool_decide as Hin.
    + rewrite bool_decide_eq_true_2 by (by apply Hsame).
      by rewrite andb_false_r.
    + rewrite bool_decide_eq_false_2 by (by rewrite <- Hsame).
      rewrite andb_true_r, filter_app, filter_cons.
      destruct (is_name k) eqn:Hk.
      * by rewrite decide_True by done.
      * rewrite decide_False by done. by rewrite app_nil_r.
Qed.

Lemma keys_fold_assign {V} (pps : list (string * V)) : forall tps K,
  (forall k', k' ∈ K <-> k' ∈ tps.*1) ->
  filter (fun k' => is_name k' = true) K = filter (fun k' => is_name k' = true) tps.*1 ->
  let merged := fold_left (fun obj kv => assign_prop kv.1 kv.2 obj) pps tps in
  (forall k', k' ∈ keys_after pps.*1 K <-> k' ∈ merged.*1)
  /\ filter (fun k' => is_name k' = true) (keys_after pps.*1 K)
     = filter (fun k' => is_name k' = true) merged.*1.
Proof.
  induction pps as [|[k x] pps IH]; intros tps K Hsame Hnames; [done|].
  cbn [fold_left fmap list_fmap fst snd]. unfold keys_after. cbn [fold_left].
  destruct (keys_after_step k x K tps Hsame Hnames) as [Hsame1 Hnames1].
  apply (IH _ _ Hsame1 Hnames1).
Qed.

Lemma NoDup_fold_assign {V} (pps : list (string * V)) : forall tps,
  NoDup tps.*1 ->
  NoDup (fold_left (fun obj kv => assign_prop kv.1 kv.2 obj) pps tps).*1.
Proof.
  induction pps as [|[k x] pps IH]; intros tps Hnd; [done|].
  cbn [fold_left]. apply IH. by apply NoDup_keys_assign_prop.
Qed.

Lemma enumerated_fold_assign {V} (pps : list (string * V)) : forall tps,
  enumerated tps.*1 = true ->
  enumerated (fold_left (fun obj kv => assign_prop kv.1 kv.2 obj) pps tps).*1 = true.
Proof.
  induction pps as [|[k x] pps IH]; intros tps Hen; [done|].
  cbn [fold_left]. apply IH. by apply enumerated_assign_prop.
Qed.

(** X16: the merged object has the keys of the current value and of the
    edited object, each once when the current value has each once, in
    the order of an enumeration when the current value has them so:
    array indices first, in ascending order; the names come as in the
    current value, followed by the names that only the edited object
    has, in their order there. *)
Theorem merge_objects_keys tps pps :
  NoDup pps.*1 ->
  exists merged,
    merge_objects (VObj tps) (VObj pps) = VObj merged
    /\ (forall k, k ∈ merged.*1 <-> k ∈ tps.*1 \/ k ∈ pps.*1)
    /\ (NoDup tps.*1 -> NoDup merged.*1)
    /\ (enumerated tps.*1 = true -> enumerated merged.*1 = true)
    /\ filter (fun k => is_name k = true) merged.*1
       = filter (fun k => is_name k = true)
           (tps.*1 ++ filter (fun k => k ∉ tps.*1) pps.*1).
Proof.
  intros Hpps. eexists. split; [reflexivity|]. cbn [spread_object].
  destruct (keys_fold_assign pps tps tps.*1) as [Hsame Hnames]; [done..|].
  cbn zeta in *. rewrite keys_after_filter in Hsame, Hnames by done.
  split; [|split; [|split]].
  - intros k. rewrite <- Hsame, elem_of_app, list_elem_of_filter.
    split; [tauto|]. intros [?|?]; [by left|].
    destruct (decide (k ∈ tps.*1)); [by left | by right].
  - apply NoDup_fold_assign.
  - apply enumerated_fold_assign.
  - by rewrite Hnames.
Qed.

(** The keys and the names of the object that the rows build. *)
Lemma keys_add_rows rows : forall obj obj' K,
  lookup_prop "__proto__" obj = None ->
  add_rows obj rows = Ok obj' ->
  (forall k', k' ∈ K <-> k' ∈ obj.*1) ->
  filter (fun k' => is_name k' = true) K = filter (fun k' => is_name k' = true) obj.*1 ->
  (forall k', k' ∈ keys_after (row_keys rows) K <-> k' ∈ obj'.*1)
  /\ filter (fun k' => is_name k' = true) (keys_after (row_keys rows) K)
     = filter (fun k' => is_name k' = true) obj'.*1
  /\ (NoDup obj.*1 -> NoDup obj'.*1)
  /\ (enumerated obj.*1 = true -> enumerated obj'.*1 = true).
Proof.
  induction rows as [|row rows IH]; intros obj obj' K Hinv Hrows Hsame Hnames.
  { cbn [add_rows] in Hrows. injection Hrows as <-. done. }
  cbn [add_rows] in Hrows.
  destruct (add_row obj row) as [obj1| |] eqn:Hrow; [|done..].
  cbn [mbind outcome_bind] in Hrows.
  destruct (add_row_spec obj row obj1 Hinv Hrow) as [Hinv1 _].
  assert (row_keys (row :: rows)
          = match (if is_scalar_row row && negb (no_key row)
                   then match key row with
                        | Some k => if String.eqb k "__proto__" then None else Some k
                        | None => None
                        end
                   else None) with
            | Some k => k :: row_keys rows
            | None => row_keys rows
            end) as -> by done.
  unfold add_row, no_key in *.
  destruct (is_scalar_row row); cbn [andb].
  2:{ injection Hrow as <-. by apply IH. }
  destruct (key row) as [[|a k0]|]; cbn [negb andb].
  1,3: injection Hrow as <-; by apply IH.
  unfold assign_member in Hrow. cbn [own_set] in Hrow.
  destruct (String.eqb (String a k0) "__proto__") eqn:Ek.
  - apply String.eqb_eq in Ek. rewrite Ek in Hrow. rewrite Hinv in Hrow.
    rewrite (bool_decide_eq_false_2 (is_Some None)) in Hrow by (by intros [? ?]).
    cbn [andb negb] in Hrow. unfold proto_set in Hrow.
    destruct (setter_ignores _); [|done]. cbn [mbind outcome_bind] in Hrow.
    injection Hrow as <-. by apply IH.
  - cbn [andb mbind outcome_bind] in Hrow. injection Hrow as <-.
    unfold keys_after. cbn [fold_left].
    destruct (keys_after_step (String a k0) (value row) K obj Hsame Hnames)
      as [Hsame1 Hnames1].
    destruct (IH _ obj' _ Hinv1 Hrows Hsame1 Hnames1) as (H1 & H2 & H3 & H4).
    split; [done|]. split; [done|]. split.
    + intros Hnd. by apply H3, NoDup_keys_assign_prop.
    + intros Hen. by apply H4, enumerated_assign_prop.
Qed.

(** X15: the object that [normalizeNodeData] serializes has each key
    once; its keys are those of the rows that count, [__proto__] apart,
    in the order of an enumeration: array indices first, in ascending
    order, then the names in the order in which the rows first name
    them. *)
Theorem rows_object_keys rows obj :
  rows_object rows = Ok obj ->
  NoDup obj.*1
  /\ (forall k, k ∈ obj.*1 <-> k ∈ row_keys rows)
  /\ enumerated obj.*1 = true
  /\ filter (fun k => is_name k = true) obj.*1
     = filter (fun k => is_name k = true) (keys_after (row_keys rows) []).
Proof.
  intros Hobj.
  destruct (keys_add_rows rows [] obj [] eq_refl Hobj) as (Hsame & Hnames & Hnd & Hen);
    [done..|].
  split; [apply Hnd, NoDup_nil_2|]. split; [|split; [by apply Hen | done]].
  intros k. rewrite <- Hsame.
  assert (forall ks base, k ∈ keys_after ks base <-> k ∈ base \/ k ∈ ks) as Hafter.
  { induction ks as [|k0 ks IHks]; intros base.
    - cbn. rewrite elem_of_nil. tauto.
    - unfold keys_after. cbn [fold_left].
      fold (keys_after ks (if bool_decide (k0 ∈ base) then base else base ++ [k0])).
      rewrite IHks, elem_of_cons. case_bool_decide as Hin.
      + split; [tauto|]. intros [?|[->|?]]; tauto.
      + rewrite elem_of_app, list_elem_of_singleton. tauto. }
  rewrite Hafter, elem_of_nil. tauto.
Qed.

Lemma merge_objects_keys_witness :
  exists merged,
    merge_objects (VObj [("b", VPrim (Num 1))]) (VObj [("c", VPrim (Num 3)); ("1", VPrim (Num 2))])
    = VObj merged
    /\ merged.*1 = ["1"; "b"; "c"].
Proof.
  destruct (merge_objects_keys
              [("b", VPrim (Num 1))]
              [("c", VPrim (Num 3)); ("1", VPrim (Num 2))])
    as (merged & Hmerge & _); [compute_done|].
  exists merged. split; [done|]. injection Hmerge as <-. by vm_compute.
Defined.

Lemma rows_object_keys_witness :
  rows_object [row "b" (VPrim (Num 1)) TNumber; row "1" (VPrim (Num 2)) TNumber;
               row "__proto__" (VPrim (Num 3)) TNumber]
  = Ok [("1", VPrim (Num 2)); ("b", VPrim (Num 1))]
  /\ NoDup [("1", VPrim (Num 2)); ("b", VPrim (Num 1))].*1
  /\ enumerated [("1", VPrim (Num 2)); ("b", VPrim (Num 1))].*1 = true.
Proof.
  assert (rows_object [row "b" (VPrim (Num 1)) TNumber; row "1" (VPrim (Num 2)) TNumber;
                       row "__proto__" (VPrim (Num 3)) TNumber]
          = Ok [("1", VPrim (Num 2)); ("b", VPrim (Num 1))]) as Hobj by reflexivity.
  split; [exact Hobj|].
  destruct (rows_object_keys _ _ Hobj) as (Hnd & _ & Hen & _). by split.
Defined.

(** ** What a write leaves alone, on values *)

Lemma lookup_string_members {V} (inj : prim -> V) k j s :
  lookup_prop k (string_members inj j s)
  = match string_index k with
    | Some i =>
        if decide (j <= i)
        then (fun c => inj (Str (String c EmptyString))) <$> String.get (i - j) s
        else None
    | None => None
    end.
Proof.
  revert j. induction s as [|c s IH]; intros j; simpl.
  - destruct (string_index k); [|done]. by case_decide.
  - destruct (String.eqb k (pretty j)) eqn:E.
    + apply String.eqb_eq in E as ->. rewrite string_index_pretty.
      rewrite decide_True by done. by rewrite Nat.sub_diag.
    + apply String.eqb_neq in E. rewrite IH.
      destruct (string_index k) as [i|] eqn:Hi; [|done].
      assert (i <> j) as Hij.
      { intros ->. apply string_index_Some in Hi. by rewrite Hi in E. }
      destruct (decide (S j <= i)) as [Hle|Hle].
      * rewrite decide_True by lia.
        by replace (i - j) with (S (i - S j)) by lia.
      * by rewrite decide_False by lia.
Qed.

Lemma disjoint_cons sp p sq q :
  Store.disjoint (sp :: p) (sq :: q)
  = if String.eqb (to_key sp) (to_key sq) then Store.disjoint p q else true.
Proof. reflexivity. Qed.

Lemma spread_array_lookup {V} (undef x : V) (elems : list (option V)) i :
  mjoin (elems !! i) = Some x -> mjoin (spread_array undef elems !! i) = Some x.
Proof.
  unfold spread_array. rewrite list_lookup_fmap.
  by destruct (elems !! i) as [[y|]|].
Qed.

(** A copy has the own members of what it copies, unless that is an array
    with named members. *)
Lemma own_prop_copy x k y :
  no_named x = true -> own_prop x k = Some y ->
  own_prop (VObject (shallow_copy x)) k = Some y.
Proof.
  intros Hx. destruct x as [p|[elems named|ps]|b]; cbn [own_prop shallow_copy].
  - destruct p; try done. cbn [spread_object]. rewrite lookup_string_members.
    destruct (string_index k) as [i|]; [|done]. cbn [mbind option_bind].
    rewrite decide_True by lia. rewrite Nat.sub_0_r.
    by destruct (String.get i s).
  - destruct named; [|done]. destruct (String.eqb k "length"); [done|].
    cbn [own_get]. destruct (array_index k); [|done]. apply spread_array_lookup.
  - done.
  - done.
Qed.

(** What a copy has besides: [undefined] where an array has a hole. *)
Lemma own_prop_copy_inv x k y :
  own_prop (VObject (shallow_copy x)) k = Some y ->
  own_prop x k = Some y \/ y = VPrim Undefined.
Proof.
  destruct x as [p|[elems named|ps]|b]; cbn [own_prop shallow_copy].
  - destruct p; try done. cbn [spread_object]. rewrite lookup_string_members.
    destruct (string_index k) as [i|]; [|done]. cbn [mbind option_bind].
    rewrite decide_True by lia. rewrite Nat.sub_0_r.
    destruct (String.get i s); [by left|done].
  - destruct (String.eqb k "length"); [done|].
    cbn [own_get]. destruct (array_index k) as [i|]; [|done].
    unfold spread_array. rewrite list_lookup_fmap.
    destruct (elems !! i) as [[z|]|]; cbn; intros [= <-]; [by left|by right].
  - by left.
  - destruct b as [[]|]; cbn; try done.
    destruct (String.eqb k "length"); [done|]. by destruct (array_index k).
Qed.

Lemma json_along_undefined rest : json_along (VPrim Undefined) rest = true.
Proof. by destruct rest. Qed.

Lemma own_prop_put_ne c k k' v :
  k <> k' -> own_prop (VObject (put c k v)) k' = own_prop (VObject c) k'.
Proof.
  intros Hne. pose proof (own_get_put_ne c k k' v Hne) as Hget.
  destruct c as [elems named|ps]; [|done].
  cbn [own_prop]. cbn [put] in *.
  destruct (array_index k); cbn [own_prop]; by rewrite Hget.
Qed.

Lemma own_prop_put_eq c k v :
  plain_key k = true -> own_prop (VObject (put c k v)) k = Some v.
Proof.
  intros [Hl _]%andb_true_iff. apply negb_true_iff in Hl.
  pose proof (own_get_put_eq c k v) as Hget.
  destruct c as [elems named|ps]; [|done].
  cbn [put] in *. destruct (array_index k); cbn [own_prop]; by rewrite Hl.
Qed.

Section Frame.
Context `{Realm}.

(** Where an own member is found, a read finds it. *)
Lemma get_prop_own x k y : own_prop x k = Some y -> get_prop x k = Ok y.
Proof.
  destruct x as [p|[elems named|ps]|b]; cbn [own_prop get_prop]; [| | |done].
  - destruct p; try done.
    destruct (String.eqb k "length") eqn:El.
    { apply String.eqb_eq in El as ->. done. }
    intros Hy. by rewrite Hy.
  - destruct (String.eqb k "length"); [done|]. intros Hy. by rewrite Hy.
  - intros Hy. by rewrite Hy.
Qed.

Lemma own_prop_not_nullish x k y : own_prop x k = Some y -> is_nullish x = false.
Proof. by destruct x as [[| | | |]| |]. Qed.

(** The value reached through own members is the value read. *)
Lemma get_loop_own q : forall x y, own_loop x q = Some y -> get_loop x q = Ok y.
Proof.
  induction q as [|seg q IH]; intros x y; cbn [own_loop get_loop].
  - by intros [= ->].
  - destruct (own_prop x (to_key seg)) as [z|] eqn:Hz; [|done].
    cbn [mbind option_bind]. intros Hy.
    rewrite (own_prop_not_nullish x _ z Hz), (get_prop_own x _ z Hz).
    cbn [mbind outcome_bind]. by apply IH.
Qed.

Lemma member_own c k y : own_prop (VObject c) k = Some y -> member c k = y.
Proof.
  intros Hy. pose proof (get_prop_own _ _ _ Hy) as Hget.
  rewrite get_prop_container in Hget. by injection Hget.
Qed.

(** The loop changes nothing of what is reached from the cursor, through
    own members, along a path that parts ways with the path written. *)
Lemma written_leaves v rest : forall cursor seg q x,
  plain_path (seg :: rest) = true ->
  match own_prop (VObject cursor) (to_key seg) with
  | Some y => json_along y rest = true
  | None => True
  end ->
  Store.disjoint (seg :: rest) q = true ->
  own_loop (VObject cursor) q = Some x ->
  own_loop (VObject (written cursor seg rest v)) q = Some x.
Proof.
  induction rest as [|nextSeg rest IH]; intros cursor seg q x Hp Hjson Hdis Hx.
  all: destruct q as [|sq q]; [done|].
  all: rewrite disjoint_cons in Hdis.
  all: cbn [plain_path forallb] in Hp; apply andb_true_iff in Hp as [Hk Hrest].
  all: cbn [own_loop] in *.
  all: destruct (String.eqb (to_key seg) (to_key sq)) eqn:E.
  - done.
  - apply String.eqb_neq in E. cbn [written]. by rewrite own_prop_put_ne.
  - apply String.eqb_eq in E. rewrite <- E in *. cbn [written].
    rewrite own_prop_put_eq by done. cbn [mbind option_bind].
    destruct (own_prop (VObject cursor) (to_key seg)) as [y|] eqn:Hy; [|done].
    cbn [mbind option_bind] in Hx.
    rewrite (member_own cursor _ y Hy).
    destruct q as [|sq2 q]; [by destruct rest|].
    assert (is_nullish y = false) as Hnn.
    { cbn [own_loop] in Hx.
      destruct (own_prop y (to_key sq2)) as [z|] eqn:Hz; [|done].
      by apply own_prop_not_nullish with (to_key sq2) z. }
    rewrite Hnn.
    assert (no_named y = true /\
            match own_prop y (to_key nextSeg) with
            | Some y' => json_along y' rest = true
            | None => True
            end) as [Hnamed Hjson'].
    { cbn [json_along] in Hjson. apply andb_true_iff in Hjson as [? Hj].
      split; [done|]. by destruct (own_prop y (to_key nextSeg)). }
    apply IH; [done| |done|].
    + destruct (own_prop (VObject (shallow_copy y)) (to_key nextSeg)) as [y'|] eqn:Hy';
        [|done].
      destruct (own_prop_copy_inv y _ y' Hy') as [Hy''| ->].
      * by rewrite Hy'' in Hjson'.
      * apply json_along_undefined.
    + cbn [own_loop] in *.
      destruct (own_prop y (to_key sq2)) as [z|] eqn:Hz; [|done].
      by rewrite (own_prop_copy y _ z Hnamed Hz).
  - apply String.eqb_neq in E. cbn [written]. by rewrite own_prop_put_ne.
Qed.

End Frame.

Section FrameMore.
Context `{Realm}.

Lemma setValueAtPath_leaves root p v r q x :
  plain_path p = true -> json_along root p = true ->
  setValueAtPath root (Some p) v = Ok r ->
  Store.disjoint p q = true ->
  own_loop root q = Some x ->
  own_loop r q = Some x.
Proof.
  intros Hp Hjson Hset Hdis Hx. destruct p as [|seg rest]; [done|].
  rewrite setValueAtPath_plain in Hset by done. injection Hset as <-.
  cbn [json_along] in Hjson. apply andb_true_iff in Hjson as [Hroot Hjson].
  apply written_leaves; [done| |done|].
  - destruct (own_prop (VObject (shallow_copy root)) (to_key seg)) as [y|] eqn:Hy;
      [|done].
    destruct (own_prop_copy_inv root _ y Hy) as [Hy'| ->].
    + by rewrite Hy' in Hjson.
    + apply json_along_undefined.
  - destruct q as [|sq q]; [done|]. cbn [own_loop] in *.
    destruct (own_prop root (to_key sq)) as [z|] eqn:Hz; [|done].
    by rewrite (own_prop_copy root _ z Hroot Hz).
Qed.

End FrameMore.

Section CommitFrame.
Context `{Realm} `{JsonCodec}.

Lemma written_root_set rootObj nodeData parsed newRoot :
  written_root rootObj nodeData parsed = Ok newRoot ->
  exists value, setValueAtPath rootObj (path nodeData) value = Ok newRoot.
Proof.
  unfold written_root. destruct (single_keyless _); [by eexists|].
  destruct (getValueAtPath rootObj (path nodeData)) as [target| |]; [|done..].
  cbn [mbind outcome_bind]. destruct (is_plain_object parsed); [|by eexists].
  destruct (is_plain_object target); by eexists.
Qed.

(** X9: a commit leaves the rest of the document alone: the root that it
    serializes has, along every path that parts ways with the node's
    path, the own member that the root it started from has there, and a
    read at that path returns it in both.  The node's path has plain keys
    and the values met in the document along it have arrays as in
    JSON. *)
Theorem handleSave_leaves_rest st parsed nodeData newRoot :
  JSON_parse (editedText st) = Some parsed ->
  selectedNode st = Some nodeData ->
  plain_path (default [] (path nodeData)) = true ->
  json_along (parse_root (json st)) (default [] (path nodeData)) = true ->
  written_root (parse_root (json st)) nodeData parsed = Ok newRoot ->
  (exists st', handleSave st = Ok st' /\ json st' = JSON_stringify newRoot)
  /\ forall q x,
       Store.disjoint (default [] (path nodeData)) q = true ->
       own_loop (parse_root (json st)) q = Some x ->
       getValueAtPath newRoot (Some q) = Ok x
       /\ getValueAtPath (parse_root (json st)) (Some q) = Ok x.
Proof.
  intros Hparsed Hnode Hp Hjson Hw. split.
  - rewrite (handleSave_selected st parsed nodeData Hparsed Hnode), Hw.
    by eexists.
  - intros q x Hq Hx. destruct (written_root_set _ _ _ _ Hw) as [value Hset].
    destruct (path nodeData) as [p|]; [|done]. cbn [default from_option id] in *.
    rewrite !getValueAtPath_loop. split; apply get_loop_own; [|done].
    by apply (setValueAtPath_leaves (parse_root (json st)) p value).
Qed.

(** X12: after a commit whose write returned, running the callback it
    scheduled against a rebuilt list that has a node under the edited
    node's path selects a node with that path, and does not touch the
    document just written. *)
Theorem handleSave_then_reselect st parsed nodeData newRoot nodes n :
  JSON_parse (editedText st) = Some parsed ->
  selectedNode st = Some nodeData ->
  written_root (parse_root (json st)) nodeData parsed = Ok newRoot ->
  n ∈ nodes -> path n = path nodeData ->
  exists st' m,
    handleSave st = Ok st'
    /\ last (timers st') = Some (path nodeData)
    /\ selectedNode (reselect nodes (path nodeData) st') = Some m
    /\ m ∈ nodes /\ path m = path nodeData
    /\ json (reselect nodes (path nodeData) st') = json st'.
Proof.
  intros Hparsed Hnode Hw Hin Hpath.
  rewrite (handleSave_selected st parsed nodeData Hparsed Hnode), Hw.
  eexists. destruct (reselect_cases nodes (path nodeData)
    (onClose (setIsEditing false (setTimeout (path nodeData)
       (setJson (JSON_stringify newRoot) (setError None st))))))
    as [(before & m & after & Hnodes & Hm & _ & Hsel)|[Hnone _]].
  - exists m. split; [done|].
    split; [apply last_snoc|]. rewrite Hsel. split; [done|].
    split; [|done]. rewrite Hnodes. apply elem_of_app. right.
    apply list_elem_of_here.
  - by destruct (Hnone n Hin).
Qed.

End CommitFrame.

Lemma handleSave_leaves_rest_witness :
  exists st' newRoot,
    handleSave (H := Reference.realm) (H0 := Reference.codec)
      (editing (Reference.stringify ann_doc)
         (Some {| text := Some [bare_row (VPrim (Num 30)) TNumber];
                  path := Some [SStr "user"; SStr "age"] |})
         "31")
    = Ok st'
    /\ json st' = Reference.stringify newRoot
    /\ getValueAtPath (H := Reference.realm) newRoot (Some [SStr "user"; SStr "name"])
       = Ok (VPrim (Str "Ann")).
Proof.
  destruct (handleSave_leaves_rest (H := Reference.realm) (H0 := Reference.codec)
              (editing (Reference.stringify ann_doc)
                 (Some {| text := Some [bare_row (VPrim (Num 30)) TNumber];
                          path := Some [SStr "user"; SStr "age"] |})
                 "31")
              (VPrim (Num 31))
              {| text := Some [bare_row (VPrim (Num 30)) TNumber];
                 path := Some [SStr "user"; SStr "age"] |}
              (VObj [("user", VObj [("name", VPrim (Str "Ann")); ("age", VPrim (Num 31))])]))
    as ((st' & Hsave & Hjson) & Hrest);
    [by vm_compute | reflexivity | reflexivity | by vm_compute | by vm_compute |].
  exists st'. eexists. split; [done|]. split; [done|].
  apply (Hrest [SStr "user"; SStr "name"]); [reflexivity | by vm_compute].
Defined.

Lemma handleSave_then_reselect_witness :
  exists st' m,
    handleSave (H := Reference.realm) (H0 := Reference.codec)
      (editing (Reference.stringify ann_doc) (Some ann_node)
         (Reference.stringify (VObj [("age", VPrim (Num 31))])))
    = Ok st'
    /\ selectedNode (reselect rebuilt_nodes (Some [SStr "user"]) st') = Some m
    /\ path m = Some [SStr "user"].
Proof.
  destruct (handleSave_then_reselect (H := Reference.realm) (H0 := Reference.codec)
              (editing (Reference.stringify ann_doc) (Some ann_node)
                 (Reference.stringify (VObj [("age", VPrim (Num 31))])))
              (VObj [("age", VPrim (Num 31))]) ann_node
              (VObj [("user", VObj [("name", VPrim (Str "Ann")); ("age", VPrim (Num 31))])])
              rebuilt_nodes
              {| text := Some [row "name" (VPrim (Str "Ann")) TString;
                               row "age" (VPrim (Num 31)) TNumber];
                 path := Some [SStr "user"] |})
    as (st' & m & Hsave & _ & Hsel & _ & Hpath & _);
    [by vm_compute | reflexivity | by vm_compute | | reflexivity |].
  - apply list_elem_of_further, list_elem_of_here.
  - by exists st', m.
Defined.

(** ** The draft: opening, cancelling, and saving it untouched *)

Lemma fold_assign_same {V} (pps tps : list (string * V)) :
  Forall (fun kx => lookup_prop kx.1 tps = Some kx.2) pps ->
  fold_left (fun obj kv => assign_prop kv.1 kv.2 obj) pps tps = tps.
Proof.
  induction 1 as [|[k x] pps Hk _ IH]; [done|].
  cbn [fold_left fst snd]. by rewrite assign_prop_same.
Qed.

Section DraftFacts.
Context `{Realm} `{JsonCodec}.

(** X19: Cancel leaves the editor as the effect that runs on opening
    does, whatever the draft and the error were.  Where the node's text
    can be computed, Cancel returns: the draft is the node's text again,
    the error is gone and the editor shows the text; the document, the
    selection and what was scheduled stay. *)
Theorem handleCancel_resets st draft err :
  handleCancel (setError err (setEditedText draft st)) = resetEffect st
  /\ (forall s,
       normalizeNodeData (Some (default [] (selectedNode st ≫= text))) = Ok s ->
       exists st', handleCancel st = Ok st' /\ editedText st' = s)
  /\ forall st',
       handleCancel st = Ok st' ->
       normalizeNodeData (Some (default [] (selectedNode st ≫= text)))
       = Ok (editedText st')
       /\ error st' = None
       /\ isEditing st' = false
       /\ json st' = json st
       /\ selectedNode st' = selectedNode st
       /\ timers st' = timers st.
Proof.
  split.
  - unfold handleCancel, resetEffect, originalText.
    change (selectedNode (setError err (setEditedText draft st)))
      with (selectedNode st).
    by destruct (normalizeNodeData (Some (default [] (selectedNode st ≫= text)))).
  - split.
    { intros s Hs. unfold handleCancel, originalText. rewrite Hs.
      eexists. split; [reflexivity | done]. }
    intros st'. unfold handleCancel, originalText.
    destruct (normalizeNodeData (Some (default [] (selectedNode st ≫= text))))
      as [s| |]; [|done..].
    cbn [mbind outcome_bind]. by intros [= <-].
Qed.

(** X14: saving the draft as the editor filled it in writes the document
    back unchanged.  The node shows several rows or a keyed one, the codec
    reads the node's text back as the object of its rows, the node's path
    leads to a plain object in the document, through plain objects and
    dense arrays, and that object has every member that the rows show. *)
Theorem handleSave_untouched_draft st nodeData obj tps :
  let rows := default [] (text nodeData) in
  let rootObj := parse_root (json st) in
  selectedNode st = Some nodeData ->
  single_keyless rows = false ->
  rows_object rows = Ok obj ->
  (forall s, normalizeNodeData (Some rows) = Ok s -> JSON_parse s = Some (VObj obj)) ->
  addresses rootObj (default [] (path nodeData)) = true ->
  getValueAtPath rootObj (path nodeData) = Ok (VObj tps) ->
  Forall (fun kx => lookup_prop kx.1 tps = Some kx.2) obj ->
  exists st1 st',
    handleCancel st = Ok st1
    /\ handleSave (handleEdit st1) = Ok st'
    /\ json st' = JSON_stringify rootObj
    /\ error st' = None /\ isEditing st' = false /\ closed st' = true.
Proof.
  intros rows rootObj Hnode Hsk Hobj Hparse Haddr Hget Hall.
  assert (exists s, normalizeNodeData (Some rows) = Ok s) as [s Hs].
  { unfold normalizeNodeData. destruct rows as [|r rows']; [by eexists|].
    rewrite Hsk, Hobj. by eexists. }
  assert (handleCancel st
          = Ok (setIsEditing false (setError None (setEditedText s st)))) as Hcancel.
  { unfold handleCancel, originalText. rewrite Hnode. cbn [mbind option_bind].
    fold rows. by rewrite Hs. }
  eexists. eexists. split; [exact Hcancel|].
  assert (written_root rootObj nodeData (VObj obj) = Ok rootObj) as Hw.
  { unfold written_root. fold rows. rewrite Hsk, Hget. cbn [mbind outcome_bind].
    cbn [is_plain_object]. unfold merge_objects. cbn [spread_object].
    rewrite fold_assign_same by done.
    destruct (path nodeData) as [p|]; [|by injection Hget as ->].
    cbn [default from_option id] in Haddr.
    destruct (write_back rootObj p Haddr) as (x & Hx & Hback).
    rewrite Hget in Hx. by injection Hx as <-. }
  rewrite (handleSave_selected _ (VObj obj) nodeData); [|by apply Hparse|exact Hnode].
  change (json (handleEdit (setIsEditing false (setError None (setEditedText s st)))))
    with (json st).
  fold rootObj. rewrite Hw. done.
Qed.

End DraftFacts.

Lemma handleSave_untouched_draft_witness :
  exists st1 st',
    handleCancel (H := Reference.realm) (H0 := Reference.codec)
      (editing (Reference.stringify ann_doc) (Some ann_node) "{") = Ok st1
    /\ handleSave (H := Reference.realm) (H0 := Reference.codec) (handleEdit st1)
       = Ok st'
    /\ json st' = Reference.stringify ann_doc.
Proof.
  destruct (handleSave_untouched_draft (H := Reference.realm) (H0 := Reference.codec)
              (editing (Reference.stringify ann_doc) (Some ann_node) "{")
              ann_node
              [("name", VPrim (Str "Ann")); ("age", VPrim (Num 30))]
              [("name", VPrim (Str "Ann")); ("age", VPrim (Num 30))])
    as (st1 & st' & Hcancel & Hsave & Hjson & _).
  - reflexivity.
  - reflexivity.
  - reflexivity.
  - intros s Hs. vm_compute in Hs. injection Hs as <-. by vm_compute.
  - by vm_compute.
  - by vm_compute.
  - by repeat constructor.
  - exists st1, st'. split; [done|]. split; [done|]. rewrite Hjson. by vm_compute.
Defined.

(** ** The store: what a write leaves alone *)

Module StoreFacts.
Import Store.

Implicit Types (h : store) (x v : ref_value) (c : container ref_value).

Lemma is_old_old n x : is_old n x = true -> old n x.
Proof. destruct x as [p|l|b]; simpl; [done| |done]. apply bool_decide_eq_true. Qed.

Lemma own_get_members c k x : own_get c k = Some x -> x ∈ members c.
Proof.
  destruct c as [elems named|ps]; simpl.
  - destruct (array_index k) as [i|].
    + destruct (elems !! i) as [o|] eqn:Hi; [|done]. simpl. intros ->.
      apply elem_of_app. left. apply list_elem_of_omap. exists (Some x).
      split; [|done]. by apply list_elem_of_lookup_2 with i.
    + intros Hx%lookup_prop_Some_elem. apply elem_of_app. right.
      apply list_elem_of_fmap. by exists (k, x).
  - intros Hx%lookup_prop_Some_elem. apply list_elem_of_fmap. by exists (k, x).
Qed.

Lemma members_old_get n c k x :
  members_old n c -> own_get c k = Some x -> old n x.
Proof.
  intros Hall Hx. unfold members_old in Hall. rewrite Forall_forall in Hall.
  apply Hall. by apply own_get_members with k.
Qed.

Lemma is_closed_closed h : is_closed h = true -> closed h.
Proof.
  unfold is_closed. rewrite forallb_forall. intros Hall l c Hl.
  apply Forall_forall. intros x Hx. apply is_old_old.
  assert (forallb (is_old (length h)) (members c) = true) as Hc.
  { apply Hall. apply list_elem_of_In. by apply list_elem_of_lookup_2 with l. }
  rewrite forallb_forall in Hc. apply Hc. by apply list_elem_of_In.
Qed.

Lemma is_json_json_arrays h : is_json h = true -> json_arrays h.
Proof.
  unfold is_json. rewrite forallb_forall. intros Hall l elems named Hl.
  assert (In (Arr elems named) h) as Hin.
  { apply list_elem_of_In. by apply list_elem_of_lookup_2 with l. }
  apply Hall in Hin. by destruct named.
Qed.

Lemma original_agree n h h' :
  original n h -> n <= length h' -> (forall l, l < n -> h' !! l = h !! l) ->
  original n h'.
Proof.
  intros (Hn & Hclosed & Hjson) Hn' Hagree. split; [done|]. split.
  - intros l c Hl. rewrite Hagree by done. by apply Hclosed.
  - intros l elems named Hl. rewrite Hagree by done. by apply Hjson.
Qed.

(** An own member of an object of the store. *)
Lemma own_prop_ref h l c k :
  h !! l = Some c ->
  own_prop h (RRef l) k
  = match c with
    | Arr _ _ => if String.eqb k "length" then None else own_get c k
    | Obj _ => own_get c k
    end.
Proof. intros Hl. cbn [own_prop]. rewrite Hl. by destruct c. Qed.

Lemma own_prop_old n h x k y :
  (forall l c, l < n -> h !! l = Some c -> members_old n c) ->
  old n x -> own_prop h x k = Some y -> old n y.
Proof.
  intros Hclosed Hx. destruct x as [p|l|b]; cbn [own_prop]; [| |done].
  - destruct p; try done. destruct (string_index k); [|done]. cbn.
    destruct (String.get _ _); [|done]. by intros [= <-].
  - simpl in Hx. destruct (h !! l) as [c|] eqn:Hc; [|done].
    specialize (Hclosed l c Hx Hc). destruct c as [elems named|ps].
    + destruct (String.eqb k "length"); [done|].
      by apply (members_old_get n (Arr elems named) k).
    + by apply (members_old_get n (Obj ps) k).
Qed.

(** Reaching through the store below [n] does not depend on what lies
    above, as long as no reference leads there. *)
Lemma own_loop_agree n h h' q : forall x,
  (forall l, l < n -> h' !! l = h !! l) ->
  (forall l c, l < n -> h !! l = Some c -> members_old n c) ->
  old n x ->
  own_loop h' x q = own_loop h x q.
Proof.
  induction q as [|seg q IH]; intros x Hagree Hclosed Hx; [done|].
  cbn [own_loop].
  assert (own_prop h' x (to_key seg) = own_prop h x (to_key seg)) as ->.
  { destruct x as [p|l|b]; [done| |done]. cbn [own_prop]. simpl in Hx.
    by rewrite Hagree. }
  destruct (own_prop h x (to_key seg)) as [y|] eqn:Hy; [|done].
  cbn [mbind option_bind]. apply IH; [done..|].
  by apply (own_prop_old n h x (to_key seg)).
Qed.

(** A shallow copy has the own members of what it copies. *)
Lemma own_get_shallow_copy n h x k y :
  (forall l elems named, l < n -> h !! l = Some (Arr elems named) -> named = []) ->
  old n x ->
  own_prop h x k = Some y ->
  match shallow_copy h x with
  | Arr elems named => if String.eqb k "length" then None else own_get (Arr elems named) k
  | Obj ps => lookup_prop k ps
  end = Some y.
Proof.
  intros Hjson Hx. destruct x as [p|l|b]; cbn [own_prop shallow_copy]; [| |done].
  - destruct p; try done. cbn [spread_object]. rewrite lookup_string_members.
    destruct (string_index k) as [i|]; [|done]. cbn [mbind option_bind].
    rewrite decide_True by lia. rewrite Nat.sub_0_r.
    by destruct (String.get i s).
  - simpl in Hx. destruct (h !! l) as [[elems named|ps]|] eqn:Hl; [| |done].
    + rewrite (Hjson l elems named Hx Hl).
      destruct (String.eqb k "length"); [done|]. cbn [own_get].
      destruct (array_index k); [|done]. apply spread_array_lookup.
    + cbn [spread_object]. by rewrite Hl.
Qed.

Lemma old_string_members n i s :
  Forall (old n) (string_members RPrim i s).*2.
Proof. revert i. induction s as [|a s IH]; intros i; simpl; by constructor. Qed.

Lemma members_old_shallow_copy n h x :
  (forall l c, l < n -> h !! l = Some c -> members_old n c) ->
  old n x ->
  members_old n (shallow_copy h x).
Proof.
  intros Hclosed Hx. unfold members_old. destruct x as [p|l|b]; simpl.
  - destruct p; try by constructor. apply old_string_members.
  - simpl in Hx. destruct (h !! l) as [[elems named|ps]|] eqn:Hl; simpl.
    + rewrite app_nil_r. specialize (Hclosed l _ Hx Hl).
      unfold members_old in Hclosed. simpl in Hclosed.
      apply Forall_app in Hclosed as [Hel _].
      clear Hl. induction elems as [|[y|] elems IH]; simpl; [done|..].
      * apply Forall_cons in Hel as [? ?]. constructor; by auto.
      * constructor; by auto.
    + by apply (Hclosed l _ Hx Hl).
    + by constructor.
  - destruct b as [[]|]; by constructor.
Qed.

Lemma child_members_old n h cur nextSeg :
  (forall l c, l < n -> h !! l = Some c -> members_old n c) ->
  old n cur ->
  members_old n (if is_nullish cur then fresh_for nextSeg else shallow_copy h cur).
Proof.
  intros Hclosed Hcur. destruct (is_nullish cur).
  - destruct nextSeg; by constructor.
  - by apply members_old_shallow_copy.
Qed.

Section WithRealm.
Context `{Realm}.

Lemma inject_inherited kd k : inject (inherited kd k) = Ok (retract (inherited kd k)).
Proof.
  unfold inherited. destruct (bool_decide _); [done|].
  destruct (String.eqb k "__proto__"); [done|]. by destruct (inherits kd k).
Qed.

Lemma get_prop_ref h l c k :
  h !! l = Some c -> get_prop h (RRef l) k = Ok (member c k).
Proof.
  intros Hl. cbn [get_prop]. rewrite Hl. destruct c as [elems named|ps]; cbn [member].
  - destruct (String.eqb k "length"); [done|].
    destruct (own_get (Arr elems named) k); [done|]. apply inject_inherited.
  - destruct (lookup_prop k ps); [done|]. apply inject_inherited.
Qed.

Lemma old_retract n (t : jsvalue) : old n (retract t).
Proof. by destruct t. Qed.

Lemma member_old n c k : members_old n c -> old n (member c k).
Proof.
  intros Hc. destruct c as [elems named|ps]; cbn [member].
  - destruct (String.eqb k "length"); [done|].
    destruct (own_get (Arr elems named) k) as [y|] eqn:Hy; [|apply old_retract].
    by apply (members_old_get n (Arr elems named) k).
  - destruct (lookup_prop k ps) as [y|] eqn:Hy; [|apply old_retract].
    by apply (members_old_get n (Obj ps) k).
Qed.

Lemma member_own_ref h l c k y :
  h !! l = Some c -> own_prop h (RRef l) k = Some y -> member c k = y.
Proof.
  intros Hl. rewrite (own_prop_ref h l c k Hl).
  destruct c as [elems named|ps]; cbn [member].
  - destruct (String.eqb k "length"); [done|]. by intros ->.
  - cbn [own_get]. by intros ->.
Qed.

Lemma member_put_eq_ref c k v : plain_key k = true -> member (put c k v) k = v.
Proof.
  intros [Hl _]%andb_true_iff. apply negb_true_iff in Hl.
  pose proof (own_get_put_eq c k v) as Hget.
  destruct c as [elems named|ps]; cbn [put] in *.
  - destruct (array_index k); cbn [member]; by rewrite Hl, Hget.
  - cbn [member]. cbn [own_get] in Hget. by rewrite Hget.
Qed.

Lemma assign_plain h cursor k v c :
  h !! cursor = Some c -> plain_key k = true ->
  assign h cursor k v = Ok (<[cursor := put c k v]> h).
Proof.
  intros Hc Hk. unfold assign. rewrite Hc.
  by rewrite own_set_plain by done.
Qed.

Lemma own_prop_not_nullish_ref h x k y : own_prop h x k = Some y -> is_nullish x = false.
Proof. by destruct x as [[| | | |]| |]. Qed.

Lemma get_prop_own_ref h x k y : own_prop h x k = Some y -> get_prop h x k = Ok y.
Proof.
  destruct x as [p|l|b]; cbn [own_prop get_prop]; [| |done].
  - destruct p; try done.
    destruct (String.eqb k "length") eqn:El.
    { apply String.eqb_eq in El as ->. done. }
    destruct (string_index k) as [i|]; [|done]. cbn [mbind option_bind].
    destruct (String.get i s); [|done]. by intros [= <-].
  - destruct (h !! l) as [[elems named|ps]|]; [| |done].
    + destruct (String.eqb k "length"); [done|]. by intros ->.
    + by intros ->.
Qed.

(** The value reached through own members is the value read. *)
Lemma get_loop_own_ref h q : forall x y, own_loop h x q = Some y -> get_loop h x q = Ok y.
Proof.
  induction q as [|seg q IH]; intros x y; cbn [own_loop get_loop].
  - by intros [= ->].
  - destruct (own_prop h x (to_key seg)) as [z|] eqn:Hz; [|done].
    cbn [mbind option_bind]. intros Hy.
    rewrite (own_prop_not_nullish_ref h x _ z Hz), (get_prop_own_ref h x _ z Hz).
    cbn [mbind outcome_bind]. by apply IH.
Qed.

Lemma own_prop_put h cursor c k v k' :
  cursor < length h ->
  own_prop (<[cursor := put c k v]> h) (RRef cursor) k'
  = if String.eqb k k' then (if plain_key k then Some v else
                               own_prop (<[cursor := put c k v]> h) (RRef cursor) k')
    else match c with
         | Arr _ _ => if String.eqb k' "length" then None else own_get c k'
         | Obj _ => own_get c k'
         end.
Proof.
  intros Hlt. destruct (String.eqb k k') eqn:E.
  - apply String.eqb_eq in E as <-. destruct (plain_key k) eqn:Hk; [|done].
    rewrite (own_prop_ref _ cursor (put c k v)) by (by apply list_lookup_insert_eq).
    apply andb_true_iff in Hk as [Hl _]. apply negb_true_iff in Hl.
    pose proof (own_get_put_eq c k v) as Hget.
    destruct c as [elems named|ps]; cbn [put] in *; [|done].
    destruct (array_index k); by rewrite Hl.
  - apply String.eqb_neq in E.
    rewrite (own_prop_ref _ cursor (put c k v)) by (by apply list_lookup_insert_eq).
    pose proof (own_get_put_ne c k k' v E) as Hget.
    destruct c as [elems named|ps]; cbn [put] in *; [|done].
    destruct (array_index k); by rewrite Hget.
Qed.

(** The loop along a path of plain keys, from a cursor allocated by the
    write, in a store whose objects below [n] are the original ones: it
    returns; it allocates one object for each further segment; it writes
    to the cursor and to the objects it allocates, to nothing else; the
    objects met from the cursor along the path are the ones it allocated,
    one after the other; the value is read back at the end of the path;
    and what the cursor reached through own members along a path that
    parts ways with the path written, it still reaches. *)
Lemma set_loop_spec n v rest : forall h cursor seg c,
  original n h -> n <= cursor -> h !! cursor = Some c -> members_old n c ->
  plain_path (seg :: rest) = true ->
  exists h',
    set_loop h cursor seg rest v = Ok h'
    /\ length h' = length h + length rest
    /\ (forall l, l <> cursor -> l < length h -> h' !! l = h !! l)
    /\ (forall i, i <= length rest ->
          get_loop h' (RRef cursor) (take i (seg :: rest))
          = Ok (RRef (match i with 0 => cursor | S j => length h + j end)))
    /\ get_loop h' (RRef cursor) (seg :: rest) = Ok v
    /\ (forall q x,
          disjoint (seg :: rest) q = true ->
          own_loop h (RRef cursor) q = Some x ->
          own_loop h' (RRef cursor) q = Some x).
Proof.
  induction rest as [|nextSeg rest IH]; intros h cursor seg c Horig Hcur Hc Hmem Hp.
  all: pose proof (lookup_lt_Some _ _ _ Hc) as Hlt.
  all: pose proof Horig as (Hn & Hclosed & Hjson).
  all: cbn [plain_path forallb] in Hp; apply andb_true_iff in Hp as [Hk Hrest].
  - (* the final assignment *)
    exists (<[cursor := put c (to_key seg) v]> h).
    split; [by apply assign_plain|].
    split; [rewrite length_insert; simpl; lia|].
    split; [intros l Hne _; by apply list_lookup_insert_ne|].
    assert (get_loop (<[cursor := put c (to_key seg) v]> h) (RRef cursor) [seg] = Ok v)
      as Hback.
    { cbn [get_loop is_nullish].
      rewrite (get_prop_ref _ cursor (put c (to_key seg) v))
        by (by apply list_lookup_insert_eq).
      by rewrite member_put_eq_ref. }
    split; [|split; [exact Hback|]].
    + intros i Hi. simpl in Hi. by replace i with 0 by lia.
    + intros [|sq q] x Hdis Hx; [done|]. rewrite disjoint_cons in Hdis.
      destruct (String.eqb (to_key seg) (to_key sq)) eqn:E; [done|].
      cbn [own_loop] in *. rewrite own_prop_put, E by done.
      rewrite (own_prop_ref h cursor c _ Hc) in Hx.
      destruct (match c with
                | Arr _ _ => if String.eqb (to_key sq) "length" then None
                             else own_get c (to_key sq)
                | Obj _ => own_get c (to_key sq)
                end) as [y|] eqn:Hy; [|done].
      cbn [mbind option_bind] in *. rewrite <- Hx.
      apply own_loop_agree with n; [|done|].
      * intros l Hl. apply list_lookup_insert_ne. lia.
      * apply (members_old_get n c (to_key sq)); [done|].
        destruct c; [by destruct (String.eqb (to_key sq) "length")|done].
  - (* one more level *)
    set (k := to_key seg) in *. set (cur := member c k).
    set (child := if is_nullish cur then fresh_for nextSeg else shallow_copy h cur).
    set (h2 := <[cursor := put c k (RRef (length h))]> (h ++ [child])).
    assert (set_loop h cursor seg (nextSeg :: rest) v
            = set_loop h2 (length h) nextSeg rest v) as Hstep.
    { cbn [set_loop alloc]. fold k. rewrite (get_prop_ref h cursor c k Hc).
      cbn [mbind outcome_bind]. fold cur. fold child.
      rewrite (assign_plain (h ++ [child]) cursor k _ c);
        [done | by apply lookup_app_l_Some | done]. }
    assert (length h2 = S (length h)) as Hlen2.
    { subst h2. rewrite length_insert, length_app. simpl. lia. }
    assert (forall l, l <> cursor -> l < length h -> h2 !! l = h !! l) as Hother2.
    { intros l Hne Hl. subst h2. rewrite list_lookup_insert_ne by done.
      by apply lookup_app_l. }
    assert (h2 !! cursor = Some (put c k (RRef (length h)))) as Hcursor2.
    { subst h2. apply list_lookup_insert_eq. rewrite length_app. lia. }
    assert (h2 !! length h = Some child) as Hchild.
    { subst h2. rewrite list_lookup_insert_ne by lia.
      rewrite lookup_app_r by done. by rewrite Nat.sub_diag. }
    assert (old n cur) as Hcur_old by (by apply member_old).
    assert (original n h2) as Horig2.
    { apply original_agree with h; [done | lia |]. intros l Hl. apply Hother2; lia. }
    destruct (IH h2 (length h) nextSeg child Horig2 Hn Hchild
                (child_members_old n h cur nextSeg Hclosed Hcur_old) Hrest)
      as (h' & Hset & Hlen & Hother & Hpath & Hback & Hframe).
    exists h'. rewrite Hstep. split; [done|].
    split; [rewrite Hlen, Hlen2; simpl; lia|].
    assert (forall l, l < length h -> h' !! l = h2 !! l) as Hkeep
      by (intros l Hl; apply Hother; lia).
    assert (h' !! cursor = Some (put c k (RRef (length h)))) as Hcursor'
      by (by rewrite Hkeep).
    assert (get_prop h' (RRef cursor) k = Ok (RRef (length h))) as Hdown.
    { rewrite (get_prop_ref h' cursor _ k Hcursor'). by rewrite member_put_eq_ref. }
    split; [|split; [|split]].
    + intros l Hne Hl. rewrite Hkeep by done. by apply Hother2.
    + intros [|j] Hi; [done|]. simpl in Hi.
      rewrite firstn_cons. cbn [get_loop is_nullish]. fold k. rewrite Hdown.
      cbn [mbind outcome_bind]. rewrite (Hpath j) by lia.
      do 2 f_equal. destruct j as [|j']; [lia|]. rewrite Hlen2. lia.
    + cbn [get_loop is_nullish]. fold k. rewrite Hdown. exact Hback.
    + intros [|sq q] x Hdis Hx; [done|]. rewrite disjoint_cons in Hdis. fold k in Hdis.
      cbn [own_loop] in *.
      rewrite (own_prop_ref h cursor c _ Hc) in Hx.
      rewrite (own_prop_ref h' cursor _ _ Hcursor').
      pose proof (own_prop_put (h ++ [child]) cursor c k (RRef (length h)) (to_key sq))
        as Hput.
      rewrite (own_prop_ref _ cursor (put c k (RRef (length h)))) in Hput
        by (apply list_lookup_insert_eq; rewrite length_app; lia).
      rewrite Hput by (rewrite length_app; lia). clear Hput.
      destruct (String.eqb k (to_key sq)) eqn:E.
      * (* down the path written *)
        apply String.eqb_eq in E. rewrite <- E in Hx. rewrite Hk.
        cbn [mbind option_bind].
        destruct (match c with
                  | Arr _ _ => if String.eqb k "length" then None else own_get c k
                  | Obj _ => own_get c k
                  end) as [y|] eqn:Hy; [|done].
        cbn [mbind option_bind] in Hx.
        assert (own_prop h (RRef cursor) k = Some y) as Hown
          by (by rewrite (own_prop_ref h cursor c _ Hc)).
        assert (cur = y) as Hcur_y by (by apply (member_own_ref h cursor c k y)).
        destruct q as [|sq2 q]; [by destruct rest|].
        cbn [own_loop] in Hx.
        destruct (own_prop h y (to_key sq2)) as [z|] eqn:Hz; [|done].
        cbn [mbind option_bind] in Hx.
        assert (child = shallow_copy h y) as Hcopy.
        { subst child. rewrite Hcur_y.
          by rewrite (own_prop_not_nullish_ref h y _ z Hz). }
        apply Hframe; [done|]. cbn [own_loop].
        rewrite (own_prop_ref h2 (length h) child _ Hchild).
        assert (old n y) as Hy_old by (by rewrite <- Hcur_y).
        pose proof (own_get_shallow_copy n h y (to_key sq2) z Hjson Hy_old Hz) as Hz'.
        rewrite <- Hcopy in Hz'.
        assert (match child with
                | Arr _ _ => if String.eqb (to_key sq2) "length" then None
                             else own_get child (to_key sq2)
                | Obj _ => own_get child (to_key sq2)
                end = Some z) as -> by (by destruct child).
        cbn [mbind option_bind]. rewrite <- Hx.
        apply own_loop_agree with n; [|done|].
        -- intros l Hl. apply Hother2; lia.
        -- by apply (own_prop_old n h y (to_key sq2)).
      * (* aside *)
        destruct (match c with
                  | Arr _ _ => if String.eqb (to_key sq) "length" then None
                               else own_get c (to_key sq)
                  | Obj _ => own_get c (to_key sq)
                  end) as [y|] eqn:Hy; [|done].
        cbn [mbind option_bind] in *. rewrite <- Hx.
        apply own_loop_agree with n; [|done|].
        -- intros l Hl. rewrite Hkeep by lia. apply Hother2; lia.
        -- apply (members_old_get n c (to_key sq)); [done|].
           destruct c; [by destruct (String.eqb (to_key sq) "length")|done].
Qed.

Lemma getValueAtPath_loop_ref h root p : getValueAtPath h root (Some p) = get_loop h root p.
Proof. by destruct p. Qed.

Lemma setValueAtPath_store h root seg rest v :
  closed h -> json_arrays h -> old (length h) root ->
  plain_path (seg :: rest) = true ->
  exists h',
    setValueAtPath h root (Some (seg :: rest)) v = Ok (RRef (length h), h')
    /\ length h' = length h + length (seg :: rest)
    /\ (forall l, l < length h -> h' !! l = h !! l)
    /\ (forall i, i <= length rest ->
          exists l, get_loop h' (RRef (length h)) (take i (seg :: rest)) = Ok (RRef l)
                    /\ length h <= l)
    /\ get_loop h' (RRef (length h)) (seg :: rest) = Ok v
    /\ (forall q x,
          disjoint (seg :: rest) q = true ->
          own_loop h root q = Some x ->
          own_loop h' (RRef (length h)) q = Some x).
Proof.
  intros Hclosed Hjson Hroot Hp.
  set (n := length h). set (copy := shallow_copy h root).
  assert ((h ++ [copy]) !! n = Some copy) as Hcopy.
  { rewrite lookup_app_r by done. by rewrite Nat.sub_diag. }
  assert (forall l, l < n -> (h ++ [copy]) !! l = h !! l) as Hagree
    by (intros l Hl; by apply lookup_app_l).
  assert (original n h) as Horig.
  { split; [done|]. split.
    - intros l c _ Hl. by apply (Hclosed l).
    - intros l elems named _ Hl. by apply (Hjson l elems). }
  pose proof Horig as (_ & Hbelow & Hnamed).
  assert (original n (h ++ [copy])) as Horig1.
  { apply original_agree with h; [done| |done]. rewrite length_app. lia. }
  destruct (set_loop_spec n v rest (h ++ [copy]) n seg copy Horig1 (le_n _) Hcopy
              (members_old_shallow_copy n h root Hbelow Hroot) Hp)
    as (h' & Hset & Hlen & Hother & Hpath & Hback & Hframe).
  assert (length (h ++ [copy]) = S n) as Hlen1 by (rewrite length_app; simpl; lia).
  exists h'. split.
  { cbn [setValueAtPath alloc]. fold copy. fold n. by rewrite Hset. }
  split; [rewrite Hlen, Hlen1; simpl; lia|].
  split.
  { intros l Hl. rewrite Hother by lia. by apply Hagree. }
  split.
  { intros i Hi. eexists. split; [by apply Hpath|]. destruct i; lia. }
  split; [done|].
  intros q x Hdis Hx. apply Hframe; [done|].
  destruct q as [|sq q]; [done|]. cbn [own_loop] in *.
  destruct (own_prop h root (to_key sq)) as [y|] eqn:Hy; [|done].
  cbn [mbind option_bind] in Hx.
  rewrite (own_prop_ref (h ++ [copy]) n copy _ Hcopy).
  pose proof (own_get_shallow_copy n h root (to_key sq) y Hnamed Hroot Hy) as Hy'.
  fold copy in Hy'.
  assert (match copy with
          | Arr _ _ => if String.eqb (to_key sq) "length" then None
                       else own_get copy (to_key sq)
          | Obj _ => own_get copy (to_key sq)
          end = Some y) as -> by (by destruct copy).
  cbn [mbind option_bind]. rewrite <- Hx.
  apply own_loop_agree with n; [done..|].
  by apply (own_prop_old n h root (to_key sq)).
Qed.


(** X20: in the store of a JSON document, a write along a path of plain
    keys that is not empty returns a newly allocated root, allocates one
    object for each segment of the path, and stores the value itself at
    the end of the path: what is read back there is the value that was
    passed, the same reference when it is an object. *)
Theorem setValueAtPath_allocates h root seg rest v :
  is_closed h = true -> is_json h = true -> is_old (length h) root = true ->
  plain_path (seg :: rest) = true ->
  exists h',
    setValueAtPath h root (Some (seg :: rest)) v = Ok (RRef (length h), h')
    /\ length h' = length h + length (seg :: rest)
    /\ getValueAtPath h' (RRef (length h)) (Some (seg :: rest)) = Ok v.
Proof.
  intros Hclosed%is_closed_closed Hjson%is_json_json_arrays Hroot%is_old_old Hp.
  destruct (setValueAtPath_store h root seg rest v Hclosed Hjson Hroot Hp)
    as (h' & Hset & Hlen & _ & _ & Hback & _).
  by exists h'.
Qed.

End WithRealm.



Lemma setValueAtPath_allocates_witness :
  exists h',
    setValueAtPath (H := Reference.realm) ab_store (RRef 0)
      (Some [SStr "b"; SNum 3]) (RPrim (Num 9)) = Ok (RRef 2, h')
    /\ length h' = 4
    /\ getValueAtPath (H := Reference.realm) h' (RRef 2) (Some [SStr "b"; SNum 3])
       = Ok (RPrim (Num 9)).
Proof.
  destruct (setValueAtPath_allocates (H := Reference.realm) ab_store (RRef 0)
              (SStr "b") [SNum 3] (RPrim (Num 9)))
    as (h' & Hset & Hlen & Hback); [reflexivity..|].
  by exists h'.
Defined.

End StoreFacts.

(** ** The reference codec reads back what it writes *)

Lemma string_app_nil_r (s : string) : s +:+ "" = s.
Proof. induction s as [|a s IH]; [done|]. by rewrite string_app_cons, IH. Qed.

Lemma pretty_N_go_app x : forall s t, pretty_N_go x s +:+ t = pretty_N_go x (s +:+ t).
Proof.
  induction (N.lt_wf_0 x) as [x _ IH]; intros s t.
  destruct (decide (x = 0)%N) as [->|Hx]; [by rewrite !pretty_N_go_0|].
  rewrite (pretty_N_go_step x s), (pretty_N_go_step x (s +:+ t)) by lia.
  rewrite IH by (apply N.div_lt; lia). by rewrite string_app_cons.
Qed.

Lemma take_digits_pretty_go x : forall s,
  exists m, forall acc,
    Reference.take_digits (pretty_N_go x s) acc
    = Reference.take_digits s (acc * m + x)%N.
Proof.
  induction (N.lt_wf_0 x) as [x _ IH]; intros s.
  destruct (decide (x = 0)%N) as [->|Hx].
  - exists 1%N. intros acc. rewrite pretty_N_go_0. f_equal. lia.
  - rewrite pretty_N_go_step by lia.
    destruct (IH (x `div` 10)%N) with (s := String (pretty_N_char (x `mod` 10)) s)
      as [m Hm]; [apply N.div_lt; lia|].
    exists (10 * m)%N. intros acc. rewrite Hm.
    destruct (pretty_N_char_digit (x `mod` 10)) as [Hd Hv];
      [by apply N.mod_lt|].
    cbn [Reference.take_digits]. rewrite Hd, Hv. f_equal.
    pose proof (N.div_mod x 10). lia.
Qed.

(** The decimal spelling of a positive number starts with a digit that is
    not 0. *)
Lemma pretty_N_go_head x : forall s,
  (0 < x)%N ->
  exists c s',
    pretty_N_go x s = String c s'
    /\ is_digit c = true
    /\ (Ascii.N_of_ascii c - 48 <> 0)%N.
Proof.
  induction (N.lt_wf_0 x) as [x _ IH]; intros s Hx.
  rewrite pretty_N_go_step by done.
  destruct (decide (x `div` 10 = 0)%N) as [Hdiv|Hdiv].
  - rewrite Hdiv, pretty_N_go_0. eexists. eexists. split; [reflexivity|].
    destruct (pretty_N_char_digit (x `mod` 10)) as [Hd Hv]; [by apply N.mod_lt|].
    split; [done|]. rewrite Hv.
    pose proof (N.div_mod' x 10) as Hdm. rewrite Hdiv in Hdm. lia.
  - apply IH; [apply N.div_lt; lia |].
    destruct (x `div` 10)%N; [done | lia].
Qed.

Lemma take_digits_end tail n :
  ends_number tail = true -> Reference.take_digits tail n = (n, tail).
Proof.
  destruct tail as [|c tail]; [done|]. cbn [ends_number Reference.take_digits].
  intros [Hd _]%andb_true_iff. apply negb_true_iff in Hd. by rewrite Hd.
Qed.

Lemma parse_number_digits (neg : bool) c s2 n rest :
  is_digit c = true ->
  (if (Ascii.N_of_ascii c - 48 =? 0)%N
   then (0%N, s2) else Reference.take_digits s2 (Ascii.N_of_ascii c - 48))
  = (n, rest) ->
  ends_number rest = true ->
  Reference.parse_number
    (if neg then String (Ascii.ascii_of_N 45) (String c s2) else String c s2)
  = Some (if neg then (- Z.of_N n)%Z else Z.of_N n, rest).
Proof.
  intros Hdig Hpair Hrest.
  assert ((Ascii.N_of_ascii c =? 45)%N = false) as Hminus.
  { apply N.eqb_neq. intros Hc. unfold is_digit in Hdig. by rewrite Hc in Hdig. }
  assert (forall z : Z,
    match rest with
    | EmptyString => Some (z, rest)
    | String c' _ =>
        if (Ascii.N_of_ascii c' =? 46)%N || (Ascii.N_of_ascii c' =? 101)%N
           || (Ascii.N_of_ascii c' =? 69)%N
        then None else Some (z, rest)
    end = Some (z, rest)) as Hend.
  { intros z. destruct rest as [|c' rest']; [done|].
    cbn [ends_number] in Hrest. apply andb_true_iff in Hrest as [_ Hc].
    apply negb_true_iff in Hc. by rewrite Hc. }
  unfold Reference.parse_number. destruct neg.
  - change (Ascii.N_of_ascii (Ascii.ascii_of_N 45) =? 45)%N with true. cbv iota.
    rewrite Hdig, Hpair. apply Hend.
  - rewrite Hminus, Hdig, Hpair. apply Hend.
Qed.

Lemma pretty_N_digits (n : N) tail :
  ends_number tail = true ->
  exists c s2,
    pretty n +:+ tail = String c s2
    /\ is_digit c = true
    /\ (if (Ascii.N_of_ascii c - 48 =? 0)%N
        then (0%N, s2) else Reference.take_digits s2 (Ascii.N_of_ascii c - 48))
       = (n, tail).
Proof.
  intros Htail. unfold pretty, pretty_N. case_decide as Hn.
  - subst n. exists (Ascii.ascii_of_N 48), tail. done.
  - rewrite pretty_N_go_app. change ("" +:+ tail) with tail.
    destruct (pretty_N_go_head n tail) as (c & s' & Hs & Hdig & Hnz); [lia|].
    destruct (take_digits_pretty_go n tail) as [m Hm].
    pose proof (Hm 0%N) as Hall. rewrite Hs in Hall.
    cbn [Reference.take_digits] in Hall. rewrite Hdig in Hall.
    rewrite N.mul_0_r, !N.add_0_l, (take_digits_end tail) in Hall by done.
    exists c, s'. split; [done|]. split; [done|].
    by rewrite (proj2 (N.eqb_neq _ _) Hnz).
Qed.

Lemma parse_number_Z (z : Z) tail :
  ends_number tail = true ->
  Reference.parse_number (pretty z +:+ tail) = Some (z, tail).
Proof.
  intros Htail. destruct z as [|p|p].
  - change (pretty 0%Z) with (pretty 0%N).
    destruct (pretty_N_digits 0 tail Htail) as (c & s2 & -> & Hd & Hp).
    apply (parse_number_digits false _ _ _ _ Hd Hp Htail).
  - change (pretty (Z.pos p)) with (pretty (N.pos p)).
    destruct (pretty_N_digits (N.pos p) tail Htail) as (c & s2 & -> & Hd & Hp).
    apply (parse_number_digits false _ _ _ _ Hd Hp Htail).
  - change (pretty (Z.neg p)) with ("-" +:+ pretty (N.pos p)).
    rewrite string_app_assoc.
    destruct (pretty_N_digits (N.pos p) tail Htail) as (c & s2 & -> & Hd & Hp).
    apply (parse_number_digits true _ _ _ _ Hd Hp Htail).
Qed.

(** *** String literals *)

Lemma parse_chars_escape_unit c t :
  Reference.parse_chars (Reference.escape_unit c +:+ t)
  = Reference.prepend c (Reference.parse_chars t).
Proof. destruct c as [[] [] [] [] [] [] [] []]; reflexivity. Qed.

Lemma parse_chars_escape s rest :
  Reference.parse_chars (Reference.escape s +:+ Reference.dquote +:+ rest)
  = Some (s, rest).
Proof.
  induction s as [|c s IH]; [done|].
  cbn [Reference.escape]. rewrite string_app_assoc, parse_chars_escape_unit.
  by rewrite IH.
Qed.

(** *** Scalars *)

Lemma parse_value_space f s :
  Reference.parse_value (S f) (String (Ascii.ascii_of_N 32) s)
  = Reference.parse_value (S f) s.
Proof. reflexivity. Qed.

Lemma parse_value_number_head f c s :
  is_digit c = true \/ Ascii.N_of_ascii c = 45%N ->
  Reference.parse_value (S f) (String c s)
  = match Reference.parse_number (String c s) with
    | Some (z, rest') => Some (VPrim (Num z), rest')
    | None => None
    end.
Proof.
  destruct c as [[] [] [] [] [] [] [] []];
    (intros [Hc|Hc]; vm_compute in Hc; try discriminate Hc); reflexivity.
Qed.

Lemma pretty_Z_head (z : Z) tail :
  ends_number tail = true ->
  exists c s,
    pretty z +:+ tail = String c s
    /\ (is_digit c = true \/ Ascii.N_of_ascii c = 45%N).
Proof.
  intros Htail. destruct z as [|p|p].
  - change (pretty 0%Z) with (pretty 0%N).
    destruct (pretty_N_digits 0 tail Htail) as (c & s2 & -> & Hd & _). eauto.
  - change (pretty (Z.pos p)) with (pretty (N.pos p)).
    destruct (pretty_N_digits (N.pos p) tail Htail) as (c & s2 & -> & Hd & _). eauto.
  - change (pretty (Z.neg p)) with ("-" +:+ pretty (N.pos p)).
    rewrite string_app_assoc. eexists _, _. split; [reflexivity|]. by right.
Qed.

(** The text of a scalar, read where a value is expected, gives the
    scalar and leaves what follows. *)
Lemma parse_value_scalar f ind x tail :
  json_scalar x = true ->
  ends_number tail = true ->
  Reference.parse_value (S f) (Reference.stringify_at ind x +:+ tail) = Some (x, tail).
Proof.
  intros Hx Htail. destruct x as [[| |[]|z|s]| |]; try done.
  - change (Reference.stringify_at ind (VPrim (Num z))) with (pretty z).
    destruct (pretty_Z_head z tail Htail) as (c & s & Hs & Hc).
    pose proof (parse_number_Z z tail Htail) as Hnum. rewrite Hs in *.
    by rewrite parse_value_number_head, Hnum.
  - change (Reference.stringify_at ind (VPrim (Str s))) with (Reference.quote s).
    unfold Reference.quote. rewrite !string_app_assoc.
    change (Reference.dquote +:+ ?t) with (String (Ascii.ascii_of_N 34) t).
    cbn [Reference.parse_value Reference.skip_ws]. 
    change (Reference.is_ws (Ascii.ascii_of_N 34)) with false. cbv iota.
    change (Ascii.N_of_ascii (Ascii.ascii_of_N 34)) with 34%N. cbv iota beta zeta.
    change (34 =? 123)%N with false. change (34 =? 91)%N with false.
    change (34 =? 34)%N with true. cbv iota.
    by rewrite parse_chars_escape.
Qed.

(** *** Objects of scalars *)

Lemma parse_members_unfold f s acc :
  Reference.parse_members (S f) s acc
  = match Reference.skip_ws s with
    | String q rest =>
        if (Ascii.N_of_ascii q =? 34)%N then
          match Reference.parse_chars rest with
          | Some (k, rest1) =>
              match Reference.skip_ws rest1 with
              | String c rest2 =>
                  if (Ascii.N_of_ascii c =? 58)%N then
                    match Reference.parse_value f rest2 with
                    | Some (v, rest3) =>
                        match Reference.skip_ws rest3 with
                        | String d rest4 =>
                            if (Ascii.N_of_ascii d =? 44)%N
                            then Reference.parse_members f rest4 (assign_prop k v acc)
                            else if (Ascii.N_of_ascii d =? 125)%N
                            then Some (VObj (assign_prop k v acc), rest4)
                            else None
                        | EmptyString => None
                        end
                    | None => None
                    end
                  else None
              | EmptyString => None
              end
          | None => None
          end
        else None
    | EmptyString => None
    end.
Proof. reflexivity. Qed.

(** One member of the serialization: a line break, the indentation, the
    key, a colon, a space and the text of the value. *)
Lemma parse_members_step f k x tail acc :
  json_scalar x = true ->
  ends_number tail = true ->
  Reference.parse_members (S (S f))
    (Reference.newline
       +:+ (Reference.indent 2
              +:+ (Reference.quote k +:+ ": " +:+ Reference.stringify_at 2 x))
       +:+ tail) acc
  = match Reference.skip_ws tail with
    | String d rest4 =>
        if (Ascii.N_of_ascii d =? 44)%N
        then Reference.parse_members (S f) rest4 (assign_prop k x acc)
        else if (Ascii.N_of_ascii d =? 125)%N
        then Some (VObj (assign_prop k x acc), rest4)
        else None
    | EmptyString => None
    end.
Proof.
  intros Hx Htail. rewrite parse_members_unfold.
  unfold Reference.quote. rewrite !string_app_assoc.
  set (text := Reference.stringify_at 2 x +:+ tail).
  set (after := Reference.escape k +:+ Reference.dquote +:+ ": " +:+ text).
  change (Reference.skip_ws _) with (String (Ascii.ascii_of_N 34) after) at 1.
  cbv iota. change (Ascii.N_of_ascii (Ascii.ascii_of_N 34) =? 34)%N with true.
  cbv iota. subst after. rewrite parse_chars_escape. cbv iota beta.
  change (Reference.skip_ws (": " +:+ text))
    with (String (Ascii.ascii_of_N 58) (String (Ascii.ascii_of_N 32) text)).
  cbv iota. change (Ascii.N_of_ascii (Ascii.ascii_of_N 58) =? 58)%N with true.
  cbv iota. subst text.
  by rewrite parse_value_space, parse_value_scalar.
Qed.

Lemma enumerated_before ks k rest :
  enumerated (ks ++ k :: rest) = true ->
  forallb (fun k0 => negb (goes_before k k0)) ks = true.
Proof.
  induction ks as [|k0 ks IH]; [done|]. cbn [app enumerated forallb].
  intros [Hall Hen]%andb_true_iff. rewrite forallb_app in Hall.
  apply andb_true_iff in Hall as [_ Hall]. cbn [forallb] in Hall.
  apply andb_true_iff in Hall as [-> _]. by apply IH.
Qed.

Lemma add_prop_last {V} k (x : V) acc :
  forallb (fun k0 => negb (goes_before k k0)) acc.*1 = true ->
  add_prop k x acc = acc ++ [(k, x)].
Proof.
  induction acc as [|[k0 x0] acc IH]; [done|]. cbn [fmap list_fmap forallb fst].
  intros [Hk Hall]%andb_true_iff. apply negb_true_iff in Hk.
  cbn [add_prop app]. rewrite Hk. by rewrite IH.
Qed.

(** Assigning the members of an object that is in the order of an
    enumeration, one after the other, builds that object. *)
Lemma fold_assign_flat {V} (ps : list (string * V)) : forall acc,
  NoDup (acc ++ ps).*1 ->
  enumerated (acc ++ ps).*1 = true ->
  fold_left (fun a kx => assign_prop kx.1 kx.2 a) ps acc = acc ++ ps.
Proof.
  induction ps as [|[k x] ps IH]; intros acc Hnd Hen.
  { by rewrite app_nil_r. }
  cbn [fold_left fst snd].
  assert (assign_prop k x acc = acc ++ [(k, x)]) as ->.
  { unfold assign_prop. rewrite fmap_app in Hnd, Hen.
    assert (lookup_prop k acc = None) as ->.
    { apply lookup_prop_None. apply NoDup_app in Hnd as (_ & Hdis & _).
      intros Hin. apply (Hdis k Hin). cbn. apply elem_of_cons. by left. }
    apply add_prop_last. by apply (enumerated_before _ _ ps.*1). }
  change (acc ++ (k, x) :: ps) with (acc ++ [(k, x)] ++ ps) in *.
  rewrite app_assoc in *. by apply IH.
Qed.

Lemma parse_members_flat (ps : list (string * jsvalue)) : forall acc fuel,
  ps <> [] ->
  forallb (fun kx => json_scalar kx.2) ps = true ->
  length ps < fuel ->
  Reference.parse_members fuel
    (Reference.newline
       +:+ join ("," +:+ Reference.newline)
             (map (fun x => Reference.indent 2 +:+ x)
                (map (fun kx : string * string =>
                        Reference.quote kx.1 +:+ ": " +:+ kx.2)
                   (map (fun kx : string * jsvalue =>
                           (kx.1, Reference.stringify_at 2 kx.2)) ps)))
       +:+ Reference.newline +:+ "}") acc
  = Some (VObj (fold_left (fun a kx => assign_prop kx.1 kx.2 a) ps acc), "").
Proof.
  induction ps as [|[k x] ps IH]; intros acc fuel Hne Hall Hfuel; [done|].
  cbn [forallb snd] in Hall. apply andb_true_iff in Hall as [Hx Hall].
  cbn [length] in Hfuel.
  destruct fuel as [|[|f]]; [lia..|].
  destruct ps as [|kx' ps'].
  - cbn [map join fst snd fold_left].
    by rewrite parse_members_step.
  - set (ps := kx' :: ps') in *.
    cbn [map fst snd fold_left].
    assert (forall (item : string) items sep,
      items <> [] -> join sep (item :: items) = item +:+ sep +:+ join sep items)
      as Hjoin.
    { intros item [|??] sep ?; done. }
    rewrite Hjoin by (subst ps; done).
    rewrite (string_app_assoc (Reference.indent 2 +:+ _)).
    rewrite parse_members_step; [|done|by rewrite !string_app_assoc].
    rewrite !string_app_assoc.
    change (Reference.skip_ws ("," +:+ ?t)) with (String (Ascii.ascii_of_N 44) t).
    cbv iota. change (Ascii.N_of_ascii (Ascii.ascii_of_N 44) =? 44)%N with true.
    cbv iota. apply IH; [by subst ps | done | cbn [length] in *; lia].
Qed.

Lemma parse_value_object f rest :
  Reference.parse_value (S f) ("{" +:+ rest)
  = match Reference.skip_ws rest with
    | String c' rest' =>
        if (Ascii.N_of_ascii c' =? 125)%N then Some (VObj [], rest')
        else Reference.parse_members f rest []
    | EmptyString => None
    end.
Proof. reflexivity. Qed.

Lemma flat_items (ps : list (string * jsvalue)) ind :
  forallb (fun kx => json_scalar kx.2) ps = true ->
  omap id
    (map (fun kx : string * jsvalue =>
            match kx with
            | (_, VPrim Undefined) => None
            | (k, x) => Some (k, Reference.stringify_at ind x)
            end) ps)
  = map (fun kx : string * jsvalue => (kx.1, Reference.stringify_at ind kx.2)) ps.
Proof.
  induction ps as [|[k x] ps IH]; [done|]. cbn [forallb snd].
  intros [Hx Hall]%andb_true_iff. cbn [map omap]. rewrite <- IH by done.
  by destruct x as [[]| |].
Qed.

Lemma join_lines_length sep (items : list string) :
  length items
  <= String.length (join sep (map (fun x => Reference.indent 2 +:+ x) items)).
Proof.
  induction items as [|x items IH]; [done|].
  destruct items as [|y items].
  - cbn [map join length]. rewrite string_length_app.
    change (String.length (Reference.indent 2)) with 2. lia.
  - assert (forall (item : string) l,
      l <> [] -> join sep (item :: l) = item +:+ sep +:+ join sep l) as Hjoin.
    { intros item [|??] ?; done. }
    cbn [map]. rewrite Hjoin by done. rewrite !string_length_app.
    change (String.length (Reference.indent 2)) with 2.
    cbn [map length] in *. lia.
Qed.

Lemma join_lines_head sep (items : list string) :
  items <> [] ->
  exists t,
    join sep (map (fun x => Reference.indent 2 +:+ x) items) = "  " +:+ t.
Proof.
  destruct items as [|x [|y items]]; [done| |]; intros _.
  - by exists x.
  - eexists. cbn [map join]. rewrite string_app_assoc. reflexivity.
Qed.

Lemma layout_lines ind open close (items : list string) :
  items <> [] ->
  Reference.layout ind open close items
  = open +:+ Reference.newline
      +:+ join ("," +:+ Reference.newline)
            (map (fun x => Reference.indent (2 + ind) +:+ x) items)
      +:+ Reference.newline +:+ Reference.indent ind +:+ close.
Proof. by destruct items. Qed.

Lemma stringify_flat (ps : list (string * jsvalue)) :
  ps <> [] ->
  forallb (fun kx => json_scalar kx.2) ps = true ->
  Reference.stringify (VObj ps)
  = "{" +:+ Reference.newline
      +:+ join ("," +:+ Reference.newline)
            (map (fun x => Reference.indent 2 +:+ x)
               (map (fun kx : string * string =>
                       Reference.quote kx.1 +:+ ": " +:+ kx.2)
                  (map (fun kx : string * jsvalue =>
                          (kx.1, Reference.stringify_at 2 kx.2)) ps)))
      +:+ Reference.newline +:+ "}".
Proof.
  intros Hne Hall. unfold Reference.stringify. cbn [Reference.stringify_at].
  rewrite flat_items by done. rewrite layout_lines; [done|].
  by destruct ps.
Qed.

(** The reference parser reads the serialization of an object of scalars
    as that object. *)
Lemma reference_parse_flat ps :
  flat_object ps = true ->
  Reference.parse (Reference.stringify (VObj ps)) = Some (VObj ps).
Proof.
  unfold flat_object. intros [[Hall Hnd]%andb_true_iff Hen]%andb_true_iff.
  apply bool_decide_eq_true in Hnd.
  destruct (decide (ps = [])) as [->|Hne]; [done|].
  rewrite stringify_flat by done. unfold Reference.parse.
  set (items := map (fun kx : string * string => _) _).
  assert (length items = length ps) as Hlen.
  { subst items. by rewrite !length_map. }
  assert (items <> []) as Hitems.
  { intros Hnil. rewrite Hnil in Hlen. by destruct ps. }
  set (lines := join _ _).
  assert (length ps <= String.length lines) as Hlines.
  { subst lines. rewrite <- Hlen. apply join_lines_length. }
  assert (exists f,
    2 + 2 * String.length
              ("{" +:+ Reference.newline +:+ lines +:+ Reference.newline +:+ "}")
    = S f /\ length ps < f) as (f & -> & Hf).
  { exists (1 + 2 * String.length
                       ("{" +:+ Reference.newline +:+ lines
                          +:+ Reference.newline +:+ "}")).
    split; [done|]. rewrite !string_length_app. lia. }
  rewrite parse_value_object.
  assert (Reference.skip_ws
            (Reference.newline +:+ lines +:+ Reference.newline +:+ "}")
          = Reference.skip_ws (lines +:+ Reference.newline +:+ "}")) as -> by done.
  destruct (join_lines_head ("," +:+ Reference.newline) items Hitems) as [t Ht].
  fold lines in Ht.
  assert (exists c' rest',
            Reference.skip_ws (lines +:+ Reference.newline +:+ "}") = String c' rest'
            /\ (Ascii.N_of_ascii c' =? 125)%N = false) as (c' & rest' & -> & ->).
  { subst lines items.
    destruct ps as [|[k x] ps']; [done|]. clear.
    assert (forall (item : string) l sep, exists t,
      join sep (item :: l) = item +:+ t) as Hjoin.
    { intros item [|??] sep; [exists ""; by rewrite string_app_nil_r|by eexists]. }
    cbn [map fst snd]. edestruct Hjoin as [t' ->].
    unfold Reference.quote. rewrite !string_app_assoc.
    eexists _, _. split; [reflexivity|done]. }
  subst lines items.
  rewrite parse_members_flat by done.
  rewrite fold_assign_flat by done. done.
Qed.
(** ** The output of normalizeNodeData, parsed again *)

(** The reference codec and realm have the laws that the editor relies
    on. *)
Lemma reference_laws : JsonLaws (H := Reference.realm) (H0 := Reference.codec).
Proof.
  split.
  - reflexivity.
  - intros v s Hv Hs. destruct v as [[| |[]|z|?]| |]; try done;
      cbn in Hs; injection Hs as <-; try reflexivity.
    cbn [JSON_parse Reference.codec]. unfold Reference.parse.
    pose proof (parse_value_scalar (1 + 2 * String.length (pretty z)) 0
                  (VPrim (Num z)) "" eq_refl eq_refl) as Hparse.
    change (Reference.stringify_at 0 (VPrim (Num z))) with (pretty z) in Hparse.
    rewrite string_app_nil_r in Hparse.
    change (2 + 2 * String.length (pretty z))
      with (S (1 + 2 * String.length (pretty z))).
    by rewrite Hparse.
  - intros ps Hps. by apply reference_parse_flat.
Qed.

Lemma row_value_Some k rows x :
  row_value k rows = Some x ->
  exists row, row ∈ rows /\ contributes k row = true /\ value row = x.
Proof.
  induction rows as [|row rows IH]; [done|]. cbn [row_value].
  destruct (row_value k rows) as [y|].
  - intros [= ->]. destruct IH as (r & Hin & Hr); [done|].
    exists r. split; [by apply list_elem_of_further | done].
  - destruct (contributes k row) eqn:E; [|done]. intros [= <-].
    exists row. split; [apply list_elem_of_here | done].
Qed.

(** The object built from rows that hold scalars is an object of scalars,
    with each key once and the keys in the order of an enumeration. *)
Lemma rows_object_flat rows obj :
  rows_object rows = Ok obj ->
  scalar_rows rows = true ->
  flat_object obj = true.
Proof.
  intros Hobj Hrows.
  destruct (keys_add_rows rows [] obj [] eq_refl Hobj) as (_ & _ & Hnd & Hen);
    [done..|].
  specialize (Hnd (NoDup_nil_2 (A:=string))). specialize (Hen eq_refl).
  unfold flat_object. rewrite Hen, (bool_decide_eq_true_2 _ Hnd), !andb_true_r.
  apply forallb_forall. intros [k x] Hin. apply list_elem_of_In in Hin. cbn [snd].
  pose proof (elem_lookup_prop_NoDup k x obj Hnd Hin) as Hlook.
  rewrite (lookup_rows_object k rows obj Hobj) in Hlook.
  destruct (String.eqb k "__proto__"); [done|].
  apply row_value_Some in Hlook as (row & Hrow & Hc & <-).
  unfold scalar_rows in Hrows. rewrite forallb_forall in Hrows.
  apply list_elem_of_In in Hrow. specialize (Hrows row Hrow).
  unfold contributes in Hc. apply andb_true_iff in Hc as [Hc _].
  by rewrite Hc in Hrows.
Qed.

Section Output.
Context `{Realm} `{JsonCodec} `{!JsonLaws}.


End Output.


(** ** The kind of the containers that a write creates *)

Lemma isArray_put c k (v : jsvalue) : isArray (VObject (put c k v)) = isArray (VObject c).
Proof. destruct c as [elems named|ps]; cbn [put]; [|done]. by destruct (array_index k). Qed.

Lemma isArray_copy x : isArray (VObject (shallow_copy x)) = isArray x.
Proof. by destruct x as [p|[elems named|ps]|[[]|]]. Qed.

Lemma isArray_fresh nextSeg :
  isArray (VObject (fresh_for nextSeg)) = is_number_segment nextSeg.
Proof. by destruct nextSeg. Qed.

Section Kind.
Context `{Realm}.

Lemma isArray_written v rest c seg :
  isArray (VObject (written c seg rest v)) = isArray (VObject c).
Proof. destruct rest; cbn [written]; apply isArray_put. Qed.

(** A read finds in the copy of a container without named members what
    it finds in the container. *)
Lemma member_copy c k :
  no_named (VObject c) = true -> member (shallow_copy (VObject c)) k = member c k.
Proof.
  destruct c as [elems named|ps]; [|done]. destruct named; [|done]. intros _.
  cbn [shallow_copy member]. unfold spread_array. rewrite length_map.
  destruct (String.eqb k "length"); [done|]. cbn [own_get].
  destruct (array_index k) as [i|] eqn:E; [|done].
  rewrite list_lookup_fmap. destruct (elems !! i) as [[y|]|]; [done| |done].
  cbn. unfold inherited. unfold array_index in E.
  destruct (string_index k); [|done].
  by rewrite bool_decide_eq_true_2 by (by eexists).
Qed.

(** The container that a write leaves under a prefix of its path, when
    the prefix leads through own members to a container of the document:
    the copy of what the container had under the next segment, or a fresh
    container, written further. *)
Lemma get_loop_written_prefix v seg nextSeg rest c : forall pre x,
  json_along x (pre ++ [seg]) = true ->
  own_loop x pre = Some (VObject c) ->
  plain_path (pre ++ seg :: nextSeg :: rest) = true ->
  get_loop
    (VObject match pre ++ seg :: nextSeg :: rest with
             | s0 :: tail => written (shallow_copy x) s0 tail v
             | [] => shallow_copy x
             end)
    (pre ++ [seg])
  = Ok (VObject
          (written
             (if is_nullish (member c (to_key seg))
              then fresh_for nextSeg
              else shallow_copy (member c (to_key seg)))
             nextSeg rest v)).
Proof.
  induction pre as [|s pre IH]; intros x Hjson Hown Hp.
  - injection Hown as ->. cbn [app] in *. cbn [json_along] in Hjson.
    apply andb_true_iff in Hjson as [Hnamed _].
    cbn [plain_path forallb] in Hp. apply andb_true_iff in Hp as [Hk _].
    rewrite get_loop_container. cbn [written].
    rewrite member_put_eq by (by apply plain_ordinary).
    by rewrite member_copy.
  - cbn [app] in *. cbn [json_along] in Hjson.
    apply andb_true_iff in Hjson as [Hnamed Hjson].
    cbn [own_loop] in Hown.
    destruct (own_prop x (to_key s)) as [x1|] eqn:Hx1; [|done].
    cbn [mbind option_bind] in Hown.
    pose proof Hp as Hp0.
    cbn [plain_path forallb] in Hp. apply andb_true_iff in Hp as [Hk Hp].
    specialize (IH x1 Hjson Hown Hp).
    assert (is_nullish x1 = false) as Hnn.
    { destruct pre as [|s' pre']; [by injection Hown as ->|].
      cbn [app own_loop] in Hown.
      destruct (own_prop x1 (to_key s')) eqn:E; [|done].
      by apply (own_prop_not_nullish x1 _ _ E). }
    destruct (pre ++ seg :: nextSeg :: rest) as [|s1 r] eqn:E.
    { by destruct pre. }
    rewrite get_loop_container. cbn [written].
    rewrite member_put_eq by (by apply plain_ordinary).
    rewrite (member_own _ _ x1) by (by apply own_prop_copy).
    by rewrite Hnn.
Qed.

(** X6: where a prefix of the path leads, through own members and arrays
    that have elements only, to a container of the document, and the
    keys of the path are plain, the write returns, and the container that
    the new root has under the next segment is an array when the document
    has there nothing ([undefined] or [null]) and the following segment
    is a number, or when it has an array there; it is a plain object
    otherwise. *)
Theorem setValueAtPath_container_kind root pre seg nextSeg rest v c :
  plain_path (pre ++ seg :: nextSeg :: rest) = true ->
  json_along root (pre ++ [seg]) = true ->
  own_loop root pre = Some (VObject c) ->
  exists was newRoot now,
    getValueAtPath root (Some (pre ++ [seg])) = Ok was
    /\ setValueAtPath root (Some (pre ++ seg :: nextSeg :: rest)) v = Ok newRoot
    /\ getValueAtPath newRoot (Some (pre ++ [seg])) = Ok now
    /\ isArray now
       = (if is_nullish was then is_number_segment nextSeg else isArray was)
    /\ is_plain_object now = negb (isArray now).
Proof.
  intros Hp Hjson Hown.
  exists (member c (to_key seg)).
  pose proof (get_loop_written_prefix v seg nextSeg rest c pre root Hjson Hown Hp)
    as Hnow.
  destruct (pre ++ seg :: nextSeg :: rest) as [|s0 tail] eqn:E.
  { by destruct pre. }
  eexists. eexists. split.
  { rewrite getValueAtPath_loop, get_loop_app, (get_loop_own pre root _ Hown).
    cbn [mbind outcome_bind]. by rewrite get_loop_container. }
  split; [by apply setValueAtPath_plain|].
  split; [rewrite getValueAtPath_loop; exact Hnow|].
  rewrite isArray_written. split.
  - destruct (is_nullish (member c (to_key seg)));
      [apply isArray_fresh | apply isArray_copy].
  - rewrite <- (isArray_written v rest _ nextSeg).
    by destruct (written _ nextSeg rest v).
Qed.

End Kind.

Lemma setValueAtPath_container_kind_witness :
  exists newRoot now,
    setValueAtPath (H := Reference.realm) (VObj [("a", VPrim Null)])
      (Some [SStr "a"; SNum 0]) (VPrim (Num 1)) = Ok newRoot
    /\ getValueAtPath (H := Reference.realm) newRoot (Some [SStr "a"]) = Ok now
    /\ isArray now = true.
Proof.
  destruct (setValueAtPath_container_kind (H := Reference.realm)
              (VObj [("a", VPrim Null)]) [] (SStr "a") (SNum 0) []
              (VPrim (Num 1)) (Obj [("a", VPrim Null)]))
    as (was & newRoot & now & Hwas & Hset & Hnow & Hkind & _);
    [reflexivity..|].
  exists newRoot, now. split; [exact Hset|]. split; [exact Hnow|].
  rewrite Hkind. vm_compute in Hwas. by injection Hwas as <-.
Defined.
